(** * img-boxer: the mosaic core of [img_boxer.py], embedded and verified

    The Python module turns a list of decoded images into one mosaic with a
    requested aspect ratio.  This development embeds

    - [parse_aspect_ratio], [resize_with_crop], [resize_with_padding],
      [calculate_grid_size] and [create_image_mosaic] as Rocq functions,
    - Python's [float] as IEEE 754 binary64, through the executable
      specification [SpecFloat] of the Standard Library (no axioms),
    - Python exceptions as an error monad,
    - the parts of Pillow the module calls ([Image.new], [crop], [paste],
      [resize]) as operations on rasters, the allocator of the machine and
      the resampling filter being parameters.

    Every arithmetic step that the source performs on floats is performed
    here on binary64 values with the same rounding, so the statements below
    are about the numbers the program really computes. *)

From Stdlib Require Import ZArith QArith Qpower Qabs Qround Lia Lqa List String Ascii Bool.
From Stdlib Require Import SpecFloat.
Import ListNotations.

Local Open Scope Z_scope.

(* ===================================================================== *)
(** * Exceptions and the error monad *)
(* ===================================================================== *)

(** The exception classes that the module or the built-ins it calls can
    raise.  The messages of [ValueError "No images provided"] and of
    [ArgumentTypeError] are the ones written in the source; the messages of
    the built-in exceptions are CPython's and only informative.  Pillow
    raises [MemoryError] without a message. *)
Inductive exn : Type :=
| ValueError (msg : string)
| ZeroDivisionError (msg : string)
| OverflowError (msg : string)
| MemoryError
| ArgumentTypeError (msg : string).

Inductive result (A : Type) : Type :=
| Ok (a : A)
| Raise (e : exn).

Arguments Ok {A} a.
Arguments Raise {A} e.

Definition bind {A B : Type} (c : result A) (k : A -> result B) : result B :=
  match c with
  | Ok a => k a
  | Raise e => Raise e
  end.

Notation "x <- c ;; k" := (bind c (fun x => k))
  (at level 61, c at next level, right associativity).
Notation "' pat <- c ;; k" := (bind c (fun x => match x with pat => k end))
  (at level 61, pat pattern, c at next level, right associativity).

Definition is_ok {A : Type} (r : result A) : bool :=
  match r with Ok _ => true | Raise _ => false end.

(* ===================================================================== *)
(** * Python numbers *)
(* ===================================================================== *)

Module Py.

(** Python's [float] is IEEE 754 binary64: 53 bits of precision, infinities
    at exponent 1024. *)
Definition prec : Z := 53.
Definition emax : Z := 1024.

Definition float : Type := spec_float.

Definition valid (f : float) : bool := valid_binary prec emax f.

Definition float_is_zero (f : float) : bool :=
  match f with S754_zero _ => true | _ => false end.

Definition float_is_finite (f : float) : bool :=
  match f with S754_zero _ | S754_finite _ _ _ => true | _ => false end.

(** [0 < f], the comparison Python makes on floats (false on NaN). *)
Definition float_pos (f : float) : bool := SFltb (S754_zero false) f.

(** A positive real number held in a float: finite and above zero. *)
Definition pos_finite (f : float) : bool :=
  match f with S754_finite false _ _ => true | _ => false end.

(** [a < b] and [a > b] on floats. *)
Definition float_lt (a b : float) : bool := SFltb a b.
Definition float_gt (a b : float) : bool := SFltb b a.

(** The value of a finite float as a rational; 0 on the non-finite ones. *)
Definition F2Q (f : float) : Q :=
  match f with
  | S754_finite s m e => (inject_Z (cond_Zopp s (Zpos m)) * (2 ^ e))%Q
  | _ => 0%Q
  end.

(** [float(z)] for an integer: rounded to nearest-even, [OverflowError]
    when the rounded value does not fit. *)
Definition float_of_int (z : Z) : result float :=
  match binary_normalize prec emax z 0 false with
  | S754_infinity _ => Raise (OverflowError "int too large to convert to float")
  | f => Ok f
  end.

(** [x * y] on floats never raises. *)
Definition float_mul (x y : float) : float := SFmul prec emax x y.

(** [x / y] on floats raises on a zero divisor. *)
Definition float_truediv (x y : float) : result float :=
  if float_is_zero y then Raise (ZeroDivisionError "float division by zero")
  else Ok (SFdiv prec emax x y).

(** Mixed arithmetic converts the integer operand first. *)
Definition int_mul_float (z : Z) (f : float) : result float :=
  zf <- float_of_int z ;; Ok (float_mul zf f).

Definition float_mul_int (f : float) (z : Z) : result float :=
  zf <- float_of_int z ;; Ok (float_mul f zf).

Definition int_div_float (z : Z) (f : float) : result float :=
  zf <- float_of_int z ;; float_truediv zf f.

Definition float_div_int (f : float) (z : Z) : result float :=
  zf <- float_of_int z ;; float_truediv f zf.

(** An integer as an exact, not normalised, float: the operand form of the
    correctly rounded integer division. *)
Definition exact_int (z : Z) : float :=
  match z with
  | Z0 => S754_zero false
  | Zpos p => S754_finite false p 0
  | Zneg p => S754_finite true p 0
  end.

(** [a / b] on integers: the correctly rounded quotient of the two integers
    (no intermediate conversion), [ZeroDivisionError] on [b = 0],
    [OverflowError] when the quotient does not fit a float. *)
Definition int_truediv (a b : Z) : result float :=
  if b =? 0 then Raise (ZeroDivisionError "division by zero")
  else if a =? 0 then Ok (S754_zero (b <? 0))
  else match SFdiv prec emax (exact_int a) (exact_int b) with
       | S754_infinity _ =>
           Raise (OverflowError "integer division result too large for a float")
       | q => Ok q
       end.

(** The mantissa of a finite float with its sign. *)
Definition signed_mantissa (s : bool) (m : positive) : Z := cond_Zopp s (Zpos m).

(** [int(x)]: truncation towards zero.  [Z.shiftl] by a negative count
    shifts right, so [Z.shiftl m e] is the integer part of [m * 2^e]. *)
Definition int_of_float (f : float) : result Z :=
  match f with
  | S754_nan => Raise (ValueError "cannot convert float NaN to integer")
  | S754_infinity _ => Raise (OverflowError "cannot convert float infinity to integer")
  | S754_zero _ => Ok 0
  | S754_finite s m e => Ok (cond_Zopp s (Z.shiftl (Zpos m) e))
  end.

(** [math.ceil(x)]: the least integer not below [x]. *)
Definition math_ceil (f : float) : result Z :=
  match f with
  | S754_nan => Raise (ValueError "cannot convert float NaN to integer")
  | S754_infinity _ => Raise (OverflowError "cannot convert float infinity to integer")
  | S754_zero _ => Ok 0
  | S754_finite s m e => Ok (- Z.shiftl (- signed_mantissa s m) e)
  end.

(** [round(x)] with one argument: the nearest integer, ties to even.  The
    module never calls it; it is the reading of the word "round" against
    which the cell width is compared below. *)
Definition round_half_even (f : float) : result Z :=
  match f with
  | S754_nan => Raise (ValueError "cannot convert float NaN to integer")
  | S754_infinity _ => Raise (OverflowError "cannot convert float infinity to integer")
  | S754_zero _ => Ok 0
  | S754_finite s m e =>
      if 0 <=? e then Ok (cond_Zopp s (Zpos m * 2 ^ e))
      else
        let d := 2 ^ (- e) in
        let fl := Zpos m / d in
        let r := Zpos m mod d in
        let up := match 2 * r ?= d with
                  | Gt => true
                  | Eq => Z.odd fl
                  | Lt => false
                  end in
        Ok (cond_Zopp s (if up then fl + 1 else fl))
  end.

(** [math.sqrt(n)] for an integer argument: the argument is converted to a
    float, negative arguments are a domain error. *)
Definition math_sqrt (n : Z) : result float :=
  f <- float_of_int n ;;
  match SFsqrt prec emax f, f with
  | S754_nan, S754_nan => Ok S754_nan
  | S754_nan, _ => Raise (ValueError "math domain error")
  | r, _ => Ok r
  end.

End Py.


Import Py.

(* ===================================================================== *)
(** * Pillow images *)
(* ===================================================================== *)

(** An image is a raster: its size and the colour of each pixel.  Pillow
    stores sizes in C integers, so no image is wider or taller than
    [INT_MAX]. *)
Module PIL.

Definition INT_MAX : Z := 2 ^ 31 - 1.

Definition color : Type := (Z * Z * Z)%type.
Definition black : color := (0, 0, 0).

Record Image : Type := mkImage {
  width : Z;
  height : Z;
  getpixel : Z -> Z -> color
}.

Definition size (im : Image) : Z * Z := (width im, height im).

Definition inside (im : Image) (x y : Z) : bool :=
  (0 <=? x) && (x <? width im) && (0 <=? y) && (y <? height im).

(** Whether Pillow has room for the pixels of a raster of a given width
    and height.  That is for the machine to say, and for Pillow, which
    refuses a line of pixels whose length in bytes does not fit a C integer
    (for an RGB raster, a width above [INT_MAX / 4 - 1]) whatever the
    memory of the machine.  Nothing is assumed about the answer. *)
Class Memory : Type := {
  grants : Z -> Z -> bool
}.

(** [Image.new('RGB', size, color)]: negative sizes are refused, sizes that
    do not fit a C integer cannot be passed to the allocator, and the
    allocator raises [MemoryError] when it has no room for the pixels.  A
    raster of width zero has no pixels to allocate. *)
Definition new {M : Memory} (sz : Z * Z) (c : color) : result Image :=
  let '(w, h) := sz in
  if (w <? 0) || (h <? 0) then Raise (ValueError "Width and height must be >= 0")
  else if (INT_MAX <? w) || (INT_MAX <? h) then
    Raise (OverflowError "Python int too large to convert to C int")
  else if (w =? 0) || grants w h then Ok (mkImage w h (fun _ _ => c))
  else Raise MemoryError.

(** [image.crop((x0, y0, x1, y1))], the box being (left, upper, right,
    lower): the rectangle of that box;
    what lies outside the source is black. *)
Definition crop (im : Image) (box : Z * Z * Z * Z) : result Image :=
  let '(x0, y0, x1, y1) := box in
  if x1 <? x0 then Raise (ValueError "Coordinate 'right' is less than 'left'")
  else if y1 <? y0 then Raise (ValueError "Coordinate 'lower' is less than 'upper'")
  else Ok (mkImage (x1 - x0) (y1 - y0)
             (fun x y => if inside im (x + x0) (y + y0)
                         then getpixel im (x + x0) (y + y0)
                         else black)).

(** [dst.paste(src, (x, y))]: [src] overwrites the region of [dst] whose
    upper left corner is [(x, y)].  Python mutates [dst]; the model returns
    the new raster. *)
Definition paste (dst src : Image) (pos : Z * Z) : Image :=
  let '(px, py) := pos in
  mkImage (width dst) (height dst)
    (fun x y => if inside src (x - px) (y - py)
                then getpixel src (x - px) (y - py)
                else getpixel dst x y).

(** [image.resize(size, Image.Resampling.LANCZOS)].  The resampling filter
    is Pillow's business: all the module relies on is that a successful
    call returns an image of the requested size. *)
Class Resampler : Type := {
  resize : Image -> Z * Z -> result Image;
  resize_size : forall im sz out, resize im sz = Ok out -> size out = sz
}.

(** A concrete resampler for running the model: nearest neighbour, refusing
    empty target sizes as Pillow's resize does. *)
Definition nearest_resize (im : Image) (sz : Z * Z) : result Image :=
  let '(w, h) := sz in
  if (w <? 1) || (h <? 1) then Raise (ValueError "height and width must be > 0")
  else Ok (mkImage w h (fun x y => getpixel im (x * width im / w) (y * height im / h))).

End PIL.

Import PIL.

(* ===================================================================== *)
(** * The module [img_boxer] *)
(* ===================================================================== *)

(** ** [parse_aspect_ratio] *)

(** [s.split(sep)] for a one-character separator. *)
Fixpoint split_on (sep : ascii) (s : string) : list string :=
  match s with
  | EmptyString => [EmptyString]
  | String c rest =>
      if Ascii.eqb c sep then EmptyString :: split_on sep rest
      else match split_on sep rest with
           | [] => [String c EmptyString]
           | hd :: tl => String c hd :: tl
           end
  end.

Section ParseAspectRatio.

(** The built-in [float(str)]: a float, or [ValueError] on text that is
    not a number. *)
Variable float_of_string : string -> result float.

(** [width, height = map(float, parts)]: [map] is lazy, so the items are
    converted one at a time while the two targets are filled, and one
    more item is requested to check that there is none. *)
Definition unpack_two_floats (parts : list string) : result (float * float) :=
  match parts with
  | [] => Raise (ValueError "not enough values to unpack (expected 2, got 0)")
  | a :: rest =>
      w <- float_of_string a ;;
      match rest with
      | [] => Raise (ValueError "not enough values to unpack (expected 2, got 1)")
      | b :: rest' =>
          h <- float_of_string b ;;
          match rest' with
          | [] => Ok (w, h)
          | c :: _ =>
              _ <- float_of_string c ;;
              Raise (ValueError "too many values to unpack (expected 2)")
          end
      end
  end.

Definition parse_aspect_ratio (ratio_str : string) : result float :=
  let body :=
    '(width, height) <- unpack_two_floats (split_on ":"%char ratio_str) ;;
    float_truediv width height in
  match body with
  | Raise (ValueError _) =>
      Raise (ArgumentTypeError "Aspect ratio must be in format W:H (e.g., 16:9)")
  | r => r
  end.

End ParseAspectRatio.

(** A [float_of_string] for running the model on plain decimal literals: an
    optional sign, digits, an optional fraction.  The value is the
    correctly rounded quotient of the digits by the power of ten. *)
Definition digit_of (c : ascii) : option Z :=
  let n := Z.of_nat (nat_of_ascii c) in
  if (48 <=? n) && (n <=? 57) then Some (n - 48) else None.

Fixpoint read_digits (s : string) (acc : Z) (count : Z) : Z * Z * string :=
  match s with
  | EmptyString => (acc, count, s)
  | String c rest =>
      match digit_of c with
      | Some d => read_digits rest (10 * acc + d) (count + 1)
      | None => (acc, count, s)
      end
  end.

Definition decimal_float (s : string) : result float :=
  let bad := Raise (ValueError "could not convert string to float") in
  let '(neg, body) :=
    match s with
    | String "-"%char rest => (true, rest)
    | String "+"%char rest => (false, rest)
    | _ => (false, s)
    end in
  let '(ip, ni, after_int) := read_digits body 0 0 in
  let '(num, nf, rest) :=
    match after_int with
    | String "."%char frac => read_digits frac ip 0
    | _ => (ip, 0, after_int)
    end in
  match rest with
  | EmptyString =>
      if (ni + nf =? 0) then bad
      else if num =? 0 then Ok (S754_zero neg)
      else Ok (SFdiv prec emax (exact_int (cond_Zopp neg num)) (exact_int (10 ^ nf)))
  | _ => bad
  end.

(** ** [resize_with_crop] and [resize_with_padding] *)

Definition resize_with_crop (image : Image) (target_ratio : float) : result Image :=
  let '(width, height) := size image in
  current_ratio <- int_truediv width height ;;
  if float_gt current_ratio target_ratio then
    scaled <- int_mul_float height target_ratio ;;
    new_width <- int_of_float scaled ;;
    let left := (width - new_width) / 2 in
    crop image (left, 0, left + new_width, height)
  else if float_lt current_ratio target_ratio then
    scaled <- int_div_float width target_ratio ;;
    new_height <- int_of_float scaled ;;
    let top := (height - new_height) / 2 in
    crop image (0, top, width, top + new_height)
  else Ok image.

Definition resize_with_padding {M : Memory} (image : Image) (target_ratio : float)
  : result Image :=
  let '(width, height) := size image in
  current_ratio <- int_truediv width height ;;
  if float_gt current_ratio target_ratio then
    scaled <- int_div_float width target_ratio ;;
    new_height <- int_of_float scaled ;;
    new_image <- new (width, new_height) black ;;
    let paste_y := (new_height - height) / 2 in
    Ok (paste new_image image (0, paste_y))
  else if float_lt current_ratio target_ratio then
    scaled <- int_mul_float height target_ratio ;;
    new_width <- int_of_float scaled ;;
    new_image <- new (new_width, height) black ;;
    let paste_x := (new_width - width) / 2 in
    Ok (paste new_image image (paste_x, 0))
  else Ok image.

(** ** [calculate_grid_size] *)

Definition calculate_grid_size (n : Z) : result (Z * Z) :=
  if n <=? 1 then Ok (1, 1)
  else
    root <- math_sqrt n ;;
    cols <- math_ceil root ;;
    quot <- int_truediv n cols ;;
    rows <- math_ceil quot ;;
    Ok (rows, cols).

(** ** [create_image_mosaic] *)

Definition BASE_HEIGHT : Z := 300.

(** Integer [//] and [%]: floor division, [ZeroDivisionError] on zero. *)
Definition int_floordiv (a b : Z) : result Z :=
  if b =? 0 then Raise (ZeroDivisionError "integer division or modulo by zero")
  else Ok (a / b).

Definition int_mod (a b : Z) : result Z :=
  if b =? 0 then Raise (ZeroDivisionError "integer division or modulo by zero")
  else Ok (a mod b).

(** The layout computed before the canvas is allocated (lines 74 to 86). *)
Record layout : Type := mkLayout {
  l_rows : Z;
  l_cols : Z;
  l_cell_ratio : float;
  l_cell_width : Z;
  l_cell_height : Z
}.

Definition mosaic_layout (n_images : Z) (target_ratio : float) : result layout :=
  '(rows, cols) <- calculate_grid_size n_images ;;
  scaled <- float_mul_int target_ratio rows ;;
  cell_ratio <- float_div_int scaled cols ;;
  let cell_height := BASE_HEIGHT in
  w <- int_mul_float cell_height cell_ratio ;;
  cell_width <- int_of_float w ;;
  Ok (mkLayout rows cols cell_ratio cell_width cell_height).

Section Mosaic.

Context {R : Resampler} {M : Memory}.

(** What the loop body does to one image before pasting it. *)
Definition fit_cell (crop_mode : bool) (L : layout) (img : Image) : result Image :=
  resized <- (if crop_mode then resize_with_crop img (l_cell_ratio L)
              else resize_with_padding img (l_cell_ratio L)) ;;
  resize resized (l_cell_width L, l_cell_height L).

(** The loop [for idx, img in enumerate(images)], the canvas threaded
    through the iterations. *)
Fixpoint place_images (crop_mode : bool) (L : layout)
         (idx : Z) (images : list Image) (final_image : Image) : result Image :=
  match images with
  | [] => Ok final_image
  | img :: rest =>
      if idx >=? l_rows L * l_cols L then Ok final_image
      else
        grid_row <- int_floordiv idx (l_cols L) ;;
        grid_col <- int_mod idx (l_cols L) ;;
        resized <- fit_cell crop_mode L img ;;
        let x := grid_col * l_cell_width L in
        let y := grid_row * l_cell_height L in
        place_images crop_mode L (idx + 1) rest (paste final_image resized (x, y))
  end.

Definition create_image_mosaic (images : list Image) (target_ratio : float)
           (crop_mode : bool) : result Image :=
  match images with
  | [] => Raise (ValueError "No images provided")
  | _ =>
      let n_images := Z.of_nat (List.length images) in
      L <- mosaic_layout n_images target_ratio ;;
      let final_width := l_cell_width L * l_cols L in
      let final_height := l_cell_height L * l_rows L in
      final_image <- new (final_width, final_height) black ;;
      place_images crop_mode L 0 images final_image
  end.

End Mosaic.


(* ===================================================================== *)
(** * Vocabulary of the statements *)
(* ===================================================================== *)

(** One of the two sizes is within one pixel of the size that the other one
    and the ratio [t] call for: the ratio is met up to the rounding of a
    size to an integer. *)
Definition within_one_pixel (w h : Z) (t : Q) : Prop :=
  (Qabs (inject_Z w - inject_Z h * t) < 1)%Q \/
  (Qabs (inject_Z h - inject_Z w / t) < 1)%Q.

(** [out] is the centred window of [src] that keeps one of the two sizes. *)
Definition centered_slice (src out : Image) : Prop :=
  let left := (width src - width out) / 2 in
  let top := (height src - height out) / 2 in
  0 <= width out <= width src /\ 0 <= height out <= height src /\
  (width out = width src \/ height out = height src) /\
  forall x y, 0 <= x < width out -> 0 <= y < height out ->
              getpixel out x y = getpixel src (x + left) (y + top).

(** [out] holds [src], pixel for pixel, centred on a black ground that
    keeps one of the two sizes. *)
Definition centered_on_black (src out : Image) : Prop :=
  let paste_x := (width out - width src) / 2 in
  let paste_y := (height out - height src) / 2 in
  width src <= width out /\ height src <= height out /\
  (width out = width src \/ height out = height src) /\
  (forall x y, 0 <= x < width src -> 0 <= y < height src ->
               getpixel out (x + paste_x) (y + paste_y) = getpixel src x y) /\
  (forall x y, inside out x y = true ->
               inside src (x - paste_x) (y - paste_y) = false ->
               getpixel out x y = black).

(** The pixel [(x, y)] of the canvas lies in the cell that the loop gives
    to the image number [idx]: column [idx % cols], row [idx // cols]. *)
Definition in_cell (L : layout) (idx x y : Z) : Prop :=
  let grid_col := idx mod l_cols L in
  let grid_row := idx / l_cols L in
  grid_col * l_cell_width L <= x < grid_col * l_cell_width L + l_cell_width L /\
  grid_row * l_cell_height L <= y < grid_row * l_cell_height L + l_cell_height L.

(* ===================================================================== *)
(** * Vocabulary of the rounding theory *)
(* ===================================================================== *)

(** Something was shifted out: the round bit or the sticky bit is set. *)
Definition inexactb (mrs : shr_record) : bool := shr_r mrs || shr_s mrs.

(** The float that holds [m * 2^e] once [m] is known to be at most
    [2^53]: zero, a finite number, or infinity when the exponent is too
    large. *)
Definition pack (m e : Z) : float :=
  if m =? 0 then S754_zero false
  else if m <? 2 ^ 53 then
    (if e <=? 971 then S754_finite false (Z.to_pos m) e else S754_infinity false)
  else
    (if e + 1 <=? 971 then S754_finite false (Z.to_pos (2 ^ 52)) (e + 1)
     else S754_infinity false).

(** [dy m e] is [m * 2^e]. *)
Definition dy (m e : Z) : Q := (inject_Z m * 2 ^ e)%Q.

(** A valid float that is zero or positive and finite. *)
Definition fin_nonneg (f : float) : bool :=
  match f with
  | S754_zero _ => true
  | S754_finite false m e => bounded prec emax m e
  | _ => false
  end.

(** [r] is a faithful rounding of the non-negative number [x]: it is
    infinity or a valid non-negative float, and no float lies strictly
    between [x] and [r]. *)
Definition faithful (x : Q) (r : float) : Prop :=
  (r = S754_infinity false \/ fin_nonneg r = true) /\
  (forall a, fin_nonneg a = true -> (F2Q a <= x)%Q ->
             r = S754_infinity false \/ (F2Q a <= F2Q r)%Q) /\
  (forall b, fin_nonneg b = true -> (x <= F2Q b)%Q ->
             fin_nonneg r = true /\ (F2Q r <= F2Q b)%Q).

(** The relative error of one rounding of a normal number, the absolute
    error of one rounding of a subnormal number, and the largest subnormal
    magnitude. *)
Definition u52 : Q := dy 1 (-52).
Definition eta : Q := dy 1 (-1074).
Definition tiny : Q := dy 1 (-1022).

(** [r] is within one rounding error of [x]. *)
Definition close (x : Q) (r : float) : Prop :=
  fin_nonneg r = true ->
  (x * (1 - u52) <= F2Q r /\ F2Q r <= x * (1 + u52))%Q \/
  (x - eta <= F2Q r /\ F2Q r <= x + eta /\ F2Q r <= tiny)%Q.

(* ===================================================================== *)
(** * Data for the examples *)
(* ===================================================================== *)

(** A machine on which Pillow has room for the rasters of up to [2^28]
    pixels, a gigabyte of them. *)
#[export] Instance gigabyte : Memory :=
  {| grants := fun w h => (w <=? INT_MAX / 4 - 1) && (w * h <=? 2 ^ 28) |}.

(** Pillow's nearest-neighbour resize as a [Resampler]. *)
#[export] Instance nearest : Resampler.
Proof.
  refine {| resize := nearest_resize |}.
  intros im [w h] out. unfold nearest_resize.
  destruct ((w <? 1) || (h <? 1)); [ discriminate | ].
  intros E. inversion E. reflexivity.
Defined.

(** A uniformly coloured image. *)
Definition plain (w h : Z) (c : color) : Image := mkImage w h (fun _ _ => c).

Definition white : color := (255, 255, 255).

(** The floats of some ratios, as [parse_aspect_ratio] returns them for
    "1:1", "16:9", "0.001:1", "5.763333333333334:1",
    "0.3333333333333333:1", "1:10000000000" and "150000000:1". *)
Definition ratio_1_1 : float := S754_finite false 4503599627370496 (-52).
Definition ratio_16_9 : float := S754_finite false 8006399337547548 (-52).
Definition ratio_1_1000 : float := S754_finite false 4611686018427388 (-62).
Definition ratio_5_76 : float := S754_finite false 6488936463102990 (-50).
Definition ratio_third : float := S754_finite false 6004799503160661 (-54).
Definition ratio_1e_10 : float := S754_finite false 7737125245533627 (-86).
Definition ratio_15e7 : float := S754_finite false 5033164800000000 (-25).

(** The grid as the documentation words it, in exact integer arithmetic:
    the columns are the ceiling of the square root, the rows the ceiling of
    the quotient. *)
Definition ceil_sqrt (n : Z) : Z :=
  let s := Z.sqrt n in if s * s =? n then s else s + 1.

Definition ceil_div (a b : Z) : Z := - (- a / b).

Definition grid_formula (n : Z) : Z * Z :=
  if n <=? 1 then (1, 1)
  else let cols := ceil_sqrt n in (ceil_div n cols, cols).

(* ===================================================================== *)
(** * The callers: the command line and the window *)
(* ===================================================================== *)

(** The rest of [img_boxer.py] ([process_image], [main]) and the methods of
    [gui.py] that hold the state of the window call the functions above and
    otherwise talk to the interpreter, the file system, Pillow's codecs and
    Qt.  Those are a parameter of the model, the class [Host] below, about
    which nothing is assumed but what is written in the class. *)

(** ** Exceptions outside the core *)

(** What a call can raise: an exception of the core, the [KeyError] of a
    dict lookup, or any other exception (of Pillow, the operating system,
    Qt, or the interpreter), of which only two things matter here: whether
    it derives from [Exception], that is whether [except Exception] catches
    it, and its [str()]. *)
Inductive failure : Type :=
| Core (e : exn)
| KeyError (key : string)
| Foreign (is_exception : bool) (text : string).

(** [isinstance(e, Exception)]. *)
Definition is_Exception (f : failure) : bool :=
  match f with
  | Core _ | KeyError _ => true
  | Foreign b _ => b
  end.

(** [SystemExit(2)], raised by [argparse] after it has reported an error. *)
Definition SystemExit_2 : failure := Foreign false "2"%string.

(** [str(e)] for the exceptions of the core: each is built from one
    message. *)
Definition str_exn (e : exn) : string :=
  match e with
  | ValueError msg | ZeroDivisionError msg | OverflowError msg
  | ArgumentTypeError msg => msg
  | MemoryError => EmptyString
  end.

Inductive outcome (A : Type) : Type :=
| Done (a : A)
| Fails (f : failure).

Arguments Done {A} a.
Arguments Fails {A} f.

Definition lift {A : Type} (r : result A) : outcome A :=
  match r with
  | Ok a => Done a
  | Raise e => Fails (Core e)
  end.

Definition obind {A B : Type} (c : outcome A) (k : A -> outcome B) : outcome B :=
  match c with
  | Done a => k a
  | Fails f => Fails f
  end.

Notation "x <~ c ;; k" := (obind c (fun x => k))
  (at level 61, c at next level, right associativity).

(** ** The host *)

(** The interpreter and the libraries, as far as the callers use them.

    - [files] is the state of the file system.
    - [Image_open] is [Image.open]: a [picture] in some [mode], or an
      error.  Pillow decodes lazily; here a picture is decoded by [load]
      (what [img.copy()] and the first access to the pixels of an RGB
      picture do) or by [convert_RGB] ([img.convert('RGB')]), and either
      can fail.
    - [Image_save] is [image.save(path, quality=q)]; it can change the
      file system and fail.
    - [glob_glob] and [os_makedirs] are [glob.glob(pattern)] and
      [os.makedirs(path, exist_ok=True)].
    - [float_of_str] is the built-in [float] on strings, which raises
      nothing but [ValueError]; [repr] is the built-in [repr] on strings.
    - [ImageQt] is the conversion of the mosaic for the preview, which can
      fail.
    - [print_raises] is what [print] raises, if anything, on a line, given
      the lines printed before: the stream may be unable to encode the
      line, or be closed. *)
Class Host : Type := {
  files : Type;
  picture : Type;
  Image_open : files -> string -> outcome picture;
  mode : picture -> string;
  load : picture -> outcome Image;
  convert_RGB : picture -> outcome Image;
  Image_save : files -> Image -> string -> Z -> files * option failure;
  glob_glob : files -> string -> list string;
  os_makedirs : files -> string -> files * option failure;
  float_of_str : string -> result float;
  float_of_str_raises :
    forall s e, float_of_str s = Raise e -> exists msg, e = ValueError msg;
  repr : string -> string;
  ImageQt : Image -> option failure;
  print_raises : list string -> string -> option failure
}.

(** [str(e)]. *)
Definition str_failure {H : Host} (f : failure) : string :=
  match f with
  | Core e => str_exn e
  | KeyError key => repr key
  | Foreign _ text => text
  end.

(** ** [pathlib] on POSIX *)

(** A path is its root ("", "/" or "//") and its components; [Path(s)]
    drops the empty components and the components ".". *)
Record Path : Type := mkPath {
  path_root : string;
  path_parts : list string
}.

Fixpoint lstrip (c : ascii) (s : string) : string :=
  match s with
  | String a rest => if Ascii.eqb a c then lstrip c rest else s
  | EmptyString => s
  end.

(** The root of a path and the rest: one slash, or two when the path
    starts with exactly two. *)
Definition splitroot (s : string) : string * string :=
  match s with
  | String c _ =>
      if Ascii.eqb c "/"%char then
        let stripped := lstrip "/"%char s in
        if (Z.of_nat (String.length s) - Z.of_nat (String.length stripped) =? 2)
        then ("//"%string, stripped) else ("/"%string, stripped)
      else (EmptyString, s)
  | EmptyString => (EmptyString, s)
  end.

Definition is_component (x : string) : bool :=
  negb (String.eqb x EmptyString) && negb (String.eqb x "."%string).

Definition Path_of (s : string) : Path :=
  let '(root, rel) := splitroot s in
  mkPath root (filter is_component (split_on "/"%char rel)).

(** [p.name]: the last component, empty when there is none. *)
Definition Path_name (p : Path) : string := last (path_parts p) EmptyString.

(** [p / key] for a string [key]. *)
Definition Path_div (p : Path) (key : string) : Path :=
  let k := Path_of key in
  if String.eqb (path_root k) EmptyString
  then mkPath (path_root p) (path_parts p ++ path_parts k)
  else k.

Fixpoint join (sep : string) (l : list string) : string :=
  match l with
  | [] => EmptyString
  | [x] => x
  | x :: rest => (x ++ sep ++ join sep rest)%string
  end.

(** [str(p)]. *)
Definition Path_str (p : Path) : string :=
  match path_root p, path_parts p with
  | EmptyString, [] => "."%string
  | root, parts => (root ++ join "/" parts)%string
  end.

(** ** The command line: [process_image] and [main] *)

Section CommandLine.

Context {H : Host} {M : Memory}.

Local Open Scope string_scope.

(** What a run of the command line can change: the files and the two
    output streams. *)
Record world : Type := mkWorld {
  disk : files;
  stdout : list string;
  stderr : list string
}.

Definition set_disk (w : world) (d : files) : world :=
  mkWorld d (stdout w) (stderr w).

(** [print(line)]: the line is written, or nothing is and the exception of
    the stream is raised. *)
Definition print (w : world) (line : string) : world * option failure :=
  match print_raises (stdout w) line with
  | None => (mkWorld (disk w) (stdout w ++ [line])%list (stderr w), None)
  | Some e => (w, Some e)
  end.

(** The path that [process_image] saves to. *)
Definition output_path (input_path output_dir : string) : Path :=
  Path_div (Path_of output_dir) ("processed_" ++ Path_name (Path_of input_path)).

(** The body of the [try] of [process_image]: the world it leaves and the
    exception it raises, if any. *)
Definition process_image_try (w : world) (input_path output_dir : string)
           (target_ratio : float) (crop_mode : bool) : world * option failure :=
  match Image_open (disk w) input_path with
  | Fails f => (w, Some f)
  | Done opened =>
      match (if negb (String.eqb (mode opened) "RGB")
             then convert_RGB opened else load opened) with
      | Fails f => (w, Some f)
      | Done img =>
          match (if crop_mode then resize_with_crop img target_ratio
                 else resize_with_padding img target_ratio) with
          | Raise e => (w, Some (Core e))
          | Ok result =>
              let out := output_path input_path output_dir in
              let '(d, saved) := Image_save (disk w) result (Path_str out) 95 in
              match saved with
              | Some f => (set_disk w d, Some f)
              | None =>
                  print (set_disk w d)
                        ("Processed: " ++ input_path ++ " -> " ++ Path_str out)
              end
          end
      end
  end.

(** [process_image]: the world it leaves and the exception that escapes it,
    if any.  What the [print] of the handler raises is not handled. *)
Definition process_image (w : world) (input_path output_dir : string)
           (target_ratio : float) (crop_mode : bool) : world * option failure :=
  match process_image_try w input_path output_dir target_ratio crop_mode with
  | (w', None) => (w', None)
  | (w', Some e) =>
      if is_Exception e
      then print w' ("Error processing " ++ input_path ++ ": " ++ str_failure e)
      else (w', Some e)
  end.

(** The options as [argparse] hands them over: [--input] and
    [--aspect-ratio] are required, [--crop] is a flag, [--output-dir] has a
    default. *)
Record cmdline : Type := mkCmdline {
  cl_input : string;
  cl_aspect_ratio : string;
  cl_crop : bool;
  cl_output_dir : option string
}.

Record args : Type := mkArgs {
  args_input : string;
  args_aspect_ratio : float;
  args_crop : bool;
  args_output_dir : string
}.

(** [parser.parse_args()] on such a command line.  [argparse] calls the
    [type] function of [--aspect-ratio] on the text of the option; it
    reports an [ArgumentTypeError] with the message of the exception, a
    [ValueError] with a message of its own, both by exiting with status 2,
    and lets every other exception through.  What the error stream raises
    while the report is written, [argparse] ignores. *)
Definition parse_args (w : world) (c : cmdline) : world * outcome args :=
  match parse_aspect_ratio float_of_str (cl_aspect_ratio c) with
  | Ok ratio =>
      (w, Done (mkArgs (cl_input c) ratio (cl_crop c)
                       (match cl_output_dir c with
                        | Some d => d
                        | None => "output"
                        end)))
  | Raise (ArgumentTypeError msg) =>
      (mkWorld (disk w) (stdout w)
               (stderr w ++ [("argument --aspect-ratio: " ++ msg)%string])%list,
       Fails SystemExit_2)
  | Raise (ValueError _) =>
      (mkWorld (disk w) (stdout w)
               (stderr w ++ [("argument --aspect-ratio: invalid parse_aspect_ratio value: "
                              ++ repr (cl_aspect_ratio c))%string])%list,
       Fails SystemExit_2)
  | Raise e => (w, Fails (Core e))
  end.

(** The loop [for input_file in input_files] of [main]. *)
Fixpoint process_files (w : world) (input_files : list string) (a : args)
  : world * option failure :=
  match input_files with
  | [] => (w, None)
  | input_file :: rest =>
      match process_image w input_file (args_output_dir a)
                          (args_aspect_ratio a) (args_crop a) with
      | (w', Some e) => (w', Some e)
      | (w', None) => process_files w' rest a
      end
  end.

Definition main (w : world) (c : cmdline) : world * option failure :=
  match parse_args w c with
  | (w1, Fails e) => (w1, Some e)
  | (w1, Done a) =>
      match os_makedirs (disk w1) (args_output_dir a) with
      | (d, Some e) => (set_disk w1 d, Some e)
      | (d, None) =>
          let w2 := set_disk w1 d in
          let input_files := glob_glob (disk w2) (args_input a) in
          match input_files with
          | [] => print w2 ("No files found matching pattern: " ++ args_input a)
          | _ => process_files w2 input_files a
          end
      end
  end.

End CommandLine.

(** ** The window: the state that [ImageBoxerGUI] keeps *)

(** An insertion-ordered [dict] with string keys, as the list of its
    items. *)
Definition dict (V : Type) : Type := list (string * V).

Fixpoint dict_contains {V : Type} (d : dict V) (k : string) : bool :=
  match d with
  | [] => false
  | (k', _) :: rest => String.eqb k' k || dict_contains rest k
  end.

(** [d[k] = v]: a known key keeps its place. *)
Fixpoint dict_setitem {V : Type} (d : dict V) (k : string) (v : V) : dict V :=
  match d with
  | [] => [(k, v)]
  | (k', v') :: rest =>
      if String.eqb k' k then (k', v) :: rest
      else (k', v') :: dict_setitem rest k v
  end.

(** [d[k]]. *)
Fixpoint dict_getitem {V : Type} (d : dict V) (k : string) : outcome V :=
  match d with
  | [] => Fails (KeyError k)
  | (k', v) :: rest => if String.eqb k' k then Done v else dict_getitem rest k
  end.

(** [dict.fromkeys(keys)] and [list(d)]. *)
Definition dict_fromkeys (keys : list string) : dict unit :=
  fold_left (fun d k => dict_setitem d k tt) keys [].

Definition dict_keys {V : Type} (d : dict V) : list string := map fst d.

Inductive dialog_kind : Type := warning | critical | information.

(** A [QMessageBox] that was shown. *)
Record dialog : Type := mkDialog {
  dialog_kind_of : dialog_kind;
  dialog_title : string;
  dialog_text : string
}.

(** A widget of the preview grid: the thumbnail of a file, or the mosaic,
    with its row and column. *)
Inductive preview_item : Type :=
| Thumbnail (file_path : string) (row col : Z)
| MosaicView (mosaic : Image) (row col : Z).

Record gui : Type := mkGui {
  selected_files : list string;
  processed_images : list Image;
  final_mosaic : option Image;
  preview_layout : list preview_item;
  drop_area_visible : bool;
  save_btn_enabled : bool;
  dialogs : list dialog
}.

(** The state that [__init__] builds. *)
Definition ImageBoxerGUI_init : gui :=
  mkGui [] [] None [] true false [].

Definition aspect_ratios : dict string :=
  [ ("16:9 (Widescreen)", "16:9");
    ("4:3 (Standard)", "4:3");
    ("1:1 (Square)", "1:1");
    ("2:1 (Ultrawide)", "2:1");
    ("3:2 (Classic Photo)", "3:2") ]%string.

Definition show (g : gui) (d : dialog) : gui :=
  mkGui (selected_files g) (processed_images g) (final_mosaic g)
        (preview_layout g) (drop_area_visible g) (save_btn_enabled g)
        (dialogs g ++ [d])%list.

(** The thumbnails of [update_preview], four to a row. *)
Fixpoint thumbnails (idx : Z) (file_paths : list string) : list preview_item :=
  match file_paths with
  | [] => []
  | file_path :: rest =>
      Thumbnail file_path (idx / 4) (idx mod 4) :: thumbnails (idx + 1) rest
  end.

Definition update_preview (g : gui) : gui :=
  mkGui (selected_files g) (processed_images g) (final_mosaic g)
        (thumbnails 0 (selected_files g))
        (drop_area_visible g) (save_btn_enabled g) (dialogs g).

Definition add_files (g : gui) (file_paths : list string) : gui :=
  let extended := selected_files g ++ file_paths in
  let selected := dict_keys (dict_fromkeys extended) in
  let g1 := update_preview
              (mkGui selected (processed_images g) (final_mosaic g)
                     (preview_layout g) (drop_area_visible g)
                     (save_btn_enabled g) (dialogs g)) in
  mkGui (selected_files g1) (processed_images g1) (final_mosaic g1)
        (preview_layout g1)
        (match selected_files g1 with [] => true | _ => false end)
        (save_btn_enabled g1) (dialogs g1).

(** [select_files], given the files chosen in the dialog. *)
Definition select_files (g : gui) (chosen : list string) : gui :=
  match chosen with
  | [] => g
  | _ => add_files g chosen
  end.

Definition clear_files (g : gui) : gui :=
  let g1 := update_preview
              (mkGui [] [] None (preview_layout g) (drop_area_visible g)
                     (save_btn_enabled g) (dialogs g)) in
  mkGui (selected_files g1) (processed_images g1) (final_mosaic g1)
        (preview_layout g1) true false (dialogs g1).

Section Window.

Context {H : Host} {R : Resampler} {M : Memory}.

Local Open Scope string_scope.

(** The loop that loads the selected files in [process_images]. *)
Fixpoint load_images (d : files) (file_paths : list string) : outcome (list Image) :=
  match file_paths with
  | [] => Done []
  | file_path :: rest =>
      opened <~ Image_open d file_path ;;
      img <~ (if negb (String.eqb (mode opened) "RGB")
              then convert_RGB opened else load opened) ;;
      images <~ load_images d rest ;;
      Done (img :: images)
  end.

(** [show_mosaic_preview]: the state it leaves and the exception it raises,
    if any.  The preview is cleared before the mosaic is converted. *)
Definition show_mosaic_preview (g : gui) : gui * option failure :=
  match final_mosaic g with
  | None => (g, None)
  | Some mosaic =>
      let cleared := mkGui (selected_files g) (processed_images g) (final_mosaic g)
                           [] (drop_area_visible g) (save_btn_enabled g) (dialogs g) in
      match ImageQt mosaic with
      | Some e => (cleared, Some e)
      | None =>
          (mkGui (selected_files g) (processed_images g) (final_mosaic g)
                 [MosaicView mosaic 0 0] (drop_area_visible g)
                 (save_btn_enabled g) (dialogs g),
           None)
      end
  end.

(** The body of the [try] of [process_images], given the text shown in the
    combo box and the state of the check box. *)
Definition process_images_try (g : gui) (d : files) (current_text : string)
           (crop_checked : bool) : gui * option failure :=
  match (ratio_text <~ dict_getitem aspect_ratios current_text ;;
         target_ratio <~ lift (parse_aspect_ratio float_of_str ratio_text) ;;
         images <~ load_images d (selected_files g) ;;
         lift (create_image_mosaic images target_ratio crop_checked)) with
  | Fails e => (g, Some e)
  | Done mosaic =>
      let g1 := mkGui (selected_files g) (processed_images g) (Some mosaic)
                      (preview_layout g) (drop_area_visible g)
                      (save_btn_enabled g) (dialogs g) in
      match show_mosaic_preview g1 with
      | (g2, Some e) => (g2, Some e)
      | (g2, None) =>
          (mkGui (selected_files g2) (processed_images g2) (final_mosaic g2)
                 (preview_layout g2) (drop_area_visible g2) true (dialogs g2),
           None)
      end
  end.

Definition process_images (g : gui) (d : files) (current_text : string)
           (crop_checked : bool) : gui * option failure :=
  match selected_files g with
  | [] => (show g (mkDialog warning "Warning" "Please select images first!"), None)
  | _ =>
      match process_images_try g d current_text crop_checked with
      | (g', None) => (g', None)
      | (g', Some e) =>
          if is_Exception e
          then (show g' (mkDialog critical "Error"
                           ("Error processing images: " ++ str_failure e)), None)
          else (g', Some e)
      end
  end.

(** [save_mosaic], given the path chosen in the dialog (empty when the
    dialog was cancelled). *)
Definition save_mosaic (g : gui) (d : files) (file_path : string)
  : gui * files * option failure :=
  match final_mosaic g with
  | None => (show g (mkDialog warning "Warning" "No mosaic to save!"), d, None)
  | Some mosaic =>
      match file_path with
      | EmptyString => (g, d, None)
      | _ =>
          match Image_save d mosaic file_path 95 with
          | (d', None) =>
              (show g (mkDialog information "Success" "Mosaic saved successfully!"),
               d', None)
          | (d', Some e) =>
              if is_Exception e
              then (show g (mkDialog critical "Error"
                              ("Error saving mosaic: " ++ str_failure e)), d', None)
              else (g, d', Some e)
          end
      end
  end.

(** What the user can do to the window, and what it does to the state. *)
Inductive action : Type :=
| SelectFiles (chosen : list string)
| DropFiles (file_paths : list string)
| ClearAll
| CreateMosaic (current_text : string) (crop_checked : bool)
| SaveMosaic (file_path : string).

Definition step (s : gui * files) (a : action) : gui * files * option failure :=
  let '(g, d) := s in
  match a with
  | SelectFiles chosen => (select_files g chosen, d, None)
  | DropFiles file_paths =>
      (match file_paths with [] => g | _ => add_files g file_paths end, d, None)
  | ClearAll => (clear_files g, d, None)
  | CreateMosaic current_text crop_checked =>
      let '(g', e) := process_images g d current_text crop_checked in (g', d, e)
  | SaveMosaic file_path => save_mosaic g d file_path
  end.

(** A run of actions, as long as no exception escapes. *)
Fixpoint run (s : gui * files) (actions : list action) : gui * files * option failure :=
  match actions with
  | [] => (s, None)
  | a :: rest =>
      match step s a with
      | (s', None) => run s' rest
      | (s', Some e) => (s', Some e)
      end
  end.

End Window.

(** ** Vocabulary of the statements about the callers *)

(** The character [c] occurs in [s]. *)
Fixpoint contains_char (c : ascii) (s : string) : bool :=
  match s with
  | EmptyString => false
  | String a rest => Ascii.eqb a c || contains_char c rest
  end.

(** Whatever Pillow raises while it opens, decodes or saves derives from
    [Exception]. *)
Definition host_raises_exceptions {H : Host} : Prop :=
  (forall d p e, Image_open d p = Fails e -> is_Exception e = true) /\
  (forall p e, load p = Fails e -> is_Exception e = true) /\
  (forall p e, convert_RGB p = Fails e -> is_Exception e = true) /\
  (forall d img p q d' e, Image_save d img p q = (d', Some e) -> is_Exception e = true).


(** The file [p] opens and decodes to the RGB raster [img]. *)
Definition opens_as {H : Host} (d : files) (p : string) (img : Image) : Prop :=
  exists opened,
    Image_open d p = Done opened /\
    (if negb (String.eqb (mode opened) "RGB")
     then convert_RGB opened else load opened) = Done img.

(** The state of the window is coherent: no file is selected twice, the
    drop area shows exactly when nothing is selected, and the save button
    is enabled only when a mosaic is held. *)
Definition window_ok (g : gui) : Prop :=
  NoDup (selected_files g) /\
  drop_area_visible g = (match selected_files g with [] => true | _ => false end) /\
  (save_btn_enabled g = true -> final_mosaic g <> None).

(** ** A host for the examples *)

(** Regular files by their path, relative and normalised, each with its
    mode (empty for a file that is no image) and its raster in RGB.  The
    directories are the ones above the files, so that a file can be saved
    under any path; opening a missing file fails; the output stream takes
    every line. *)
Fixpoint lookup_file (d : list (string * (string * Image))) (p : string)
  : option (string * Image) :=
  match d with
  | [] => None
  | (p', f) :: rest => if String.eqb p' p then Some f else lookup_file rest p
  end.

(** [fnmatch] for the wildcards [*], any run of characters, and [?], any
    one character; the sets in brackets are not understood. *)
Fixpoint fnmatch (pattern name : string) : bool :=
  match pattern with
  | EmptyString => String.eqb name EmptyString
  | String c rest =>
      if Ascii.eqb c "*"%char then
        (fix star (n : string) : bool :=
           fnmatch rest n ||
           match n with
           | EmptyString => false
           | String _ n' => star n'
           end) name
      else
        match name with
        | EmptyString => false
        | String a name' => (Ascii.eqb c "?"%char || Ascii.eqb c a) && fnmatch rest name'
        end
  end.

Definition is_hidden (name : string) : bool :=
  match name with
  | String c _ => Ascii.eqb c "."%char
  | EmptyString => false
  end.

(** One component of a pattern against one name: a name that starts with a
    dot is matched only by a component that starts with one. *)
Definition glob_component (pattern name : string) : bool :=
  (negb (is_hidden name) || is_hidden pattern) && fnmatch pattern name.

Fixpoint glob_match (pattern path : list string) : bool :=
  match pattern, path with
  | [], [] => true
  | c :: pattern', name :: path' => glob_component c name && glob_match pattern' path'
  | _, _ => false
  end.

(** The paths that lead to a file: its directories, outermost first, and
    the file itself. *)
Fixpoint prefixes (parts : list string) : list (list string) :=
  match parts with
  | [] => []
  | x :: rest => [x] :: map (cons x) (prefixes rest)
  end.

Fixpoint add_new (seen : list string) (paths : list string) : list string :=
  match paths with
  | [] => seen
  | p :: rest =>
      if existsb (String.eqb p) seen then add_new seen rest
      else add_new (seen ++ [p]) rest
  end.

(** What there is on a disk: the files and the directories above them. *)
Definition entries (d : list (string * (string * Image))) : list string :=
  add_new []
    (flat_map (fun p => map (join "/") (prefixes (split_on "/"%char p))) (map fst d)).

(** [glob.glob(pattern)] without [recursive], for a pattern that is
    relative and normalised as the paths are: the entries that match the
    pattern component by component, in the order of the disk. *)
Definition memory_glob (d : list (string * (string * Image))) (pattern : string)
  : list string :=
  filter (fun p => glob_match (split_on "/"%char pattern) (split_on "/"%char p))
         (entries d).

(** [repr] of a string without quotes or escapes. *)
Definition quoted (s : string) : string := ("'" ++ s ++ "'")%string.

#[export] Instance memory_host : Host.
Proof.
  refine {|
    files := list (string * (string * Image));
    picture := string * Image;
    Image_open := fun d p =>
      match lookup_file d p with
      | Some f =>
          if String.eqb (fst f) EmptyString
          then Fails (Foreign true ("cannot identify image file " ++ quoted p)%string)
          else Done f
      | None =>
          Fails (Foreign true
                   ("[Errno 2] No such file or directory: " ++ quoted p)%string)
      end;
    mode := fst;
    load := fun f => Done (snd f);
    convert_RGB := fun f => Done (snd f);
    Image_save := fun d img p _ => ((p, ("RGB"%string, img)) :: d, None);
    glob_glob := memory_glob;
    os_makedirs := fun d _ => (d, None);
    float_of_str := decimal_float;
    repr := quoted;
    ImageQt := fun _ => None;
    print_raises := fun _ _ => None
  |}.
  abstract
    (intros s e; unfold decimal_float;
     repeat match goal with
            | |- context [ match ?x with _ => _ end ] => destruct x
            end;
     intros E; try discriminate E; inversion E; eauto).
Defined.

(** Two files under [in/]: a text file and a picture of four by three. *)
Definition example_disk : files (Host := memory_host) :=
  [ ("in/b.txt", (EmptyString, plain 1 1 white));
    ("in/a.png", ("RGB", plain 4 3 white)) ]%string.

Definition example_world : world := mkWorld example_disk [] [].

(** The window after the picture and a file that does not exist were
    selected. *)
Definition example_window : gui :=
  add_files ImageBoxerGUI_init ["in/a.png"; "missing.png"]%string.

(* ===================================================================== *)
(** * Binary64 rounding *)
(* ===================================================================== *)

Lemma fexp_eq e : fexp prec emax e = Z.max (e - 53) (-1074).
Proof. reflexivity. Qed.

Lemma digits2_pos_bounds p :
  2 ^ (Zpos (digits2_pos p) - 1) <= Zpos p < 2 ^ Zpos (digits2_pos p).
Proof.
  induction p as [p IH | p IH | ]; simpl digits2_pos.
  - rewrite Pos2Z.inj_succ.
    replace (Z.succ (Zpos (digits2_pos p)) - 1)
      with (Z.succ (Zpos (digits2_pos p) - 1)) by lia.
    rewrite !Z.pow_succ_r by lia. lia.
  - rewrite Pos2Z.inj_succ.
    replace (Z.succ (Zpos (digits2_pos p)) - 1)
      with (Z.succ (Zpos (digits2_pos p) - 1)) by lia.
    rewrite !Z.pow_succ_r by lia. lia.
  - simpl. lia.
Qed.

Lemma Zdigits2_bounds m :
  0 < m -> 2 ^ (Zdigits2 m - 1) <= m < 2 ^ Zdigits2 m.
Proof.
  destruct m as [ | p | p ]; try lia. intros _. apply digits2_pos_bounds.
Qed.

Lemma Zdigits2_nonneg m : 0 <= Zdigits2 m.
Proof. destruct m; simpl; lia. Qed.

Lemma Zdigits2_pos m : 0 < m -> 0 < Zdigits2 m.
Proof. destruct m; simpl; lia. Qed.

Lemma Zdigits2_le_of_lt m k : 0 < m -> m < 2 ^ k -> Zdigits2 m <= k.
Proof.
  intros Hm Hk. destruct (Zdigits2_bounds m Hm) as [Hlo _].
  destruct (Z_le_gt_dec (Zdigits2 m) k) as [ | Hgt ]; [ assumption | exfalso ].
  assert (0 <= k) by (destruct (Z_le_gt_dec 0 k); [ assumption | rewrite Z.pow_neg_r in Hk; lia ]).
  assert (2 ^ k <= 2 ^ (Zdigits2 m - 1)) by (apply Z.pow_le_mono_r; lia).
  lia.
Qed.

Lemma Zdigits2_gt_of_le m k : 0 <= k -> 2 ^ k <= m -> k < Zdigits2 m.
Proof.
  intros Hk Hm.
  assert (0 < m) by (pose proof (Z.pow_pos_nonneg 2 k); lia).
  destruct (Zdigits2_bounds m H) as [_ Hhi].
  destruct (Z_lt_le_dec k (Zdigits2 m)) as [ | Hle ]; [ assumption | exfalso ].
  assert (2 ^ Zdigits2 m <= 2 ^ k) by (apply Z.pow_le_mono_r; lia).
  lia.
Qed.

(** ** Right shifts with round and sticky bits *)


Lemma shr_1_spec mrs :
  0 <= shr_m mrs ->
  shr_m (shr_1 mrs) = shr_m mrs / 2 /\
  inexactb (shr_1 mrs) = inexactb mrs || Z.odd (shr_m mrs).
Proof.
  destruct mrs as [m r s]. unfold inexactb. simpl shr_m. intros Hm.
  rewrite <- Z.div2_div.
  destruct m as [ | p | p ]; [ | | lia ].
  - simpl. now rewrite orb_false_r.
  - destruct p; simpl; split; try reflexivity;
      destruct r, s; reflexivity.
Qed.

Lemma mod_pow2_split m a b :
  0 <= a -> 0 <= b ->
  (m mod 2 ^ (a + b) = 0 <-> m mod 2 ^ a = 0 /\ (m / 2 ^ a) mod 2 ^ b = 0).
Proof.
  intros Ha Hb. rewrite Z.pow_add_r by lia.
  assert (0 < 2 ^ a) by (apply Z.pow_pos_nonneg; lia).
  assert (0 < 2 ^ b) by (apply Z.pow_pos_nonneg; lia).
  rewrite Z.rem_mul_r by lia.
  pose proof (Z.mod_pos_bound m (2 ^ a) ltac:(lia)).
  pose proof (Z.mod_pos_bound (m / 2 ^ a) (2 ^ b) ltac:(lia)).
  split; [ intros; nia | intros [-> ->]; lia ].
Qed.

Lemma iter_shr_1_spec p : forall mrs,
  0 <= shr_m mrs ->
  0 <= shr_m (iter_pos shr_1 p mrs) /\
  shr_m (iter_pos shr_1 p mrs) = shr_m mrs / 2 ^ Zpos p /\
  (inexactb (iter_pos shr_1 p mrs) = false <->
   inexactb mrs = false /\ shr_m mrs mod 2 ^ Zpos p = 0).
Proof.
  assert (Hone : forall mrs, 0 <= shr_m mrs ->
     0 <= shr_m (shr_1 mrs) /\
     shr_m (shr_1 mrs) = shr_m mrs / 2 ^ 1 /\
     (inexactb (shr_1 mrs) = false <->
      inexactb mrs = false /\ shr_m mrs mod 2 ^ 1 = 0)).
  { intros mrs Hm. destruct (shr_1_spec mrs Hm) as [E1 E2].
    rewrite E1, E2. change (2 ^ 1) with 2.
    split; [ apply Z.div_pos; lia | split; [ reflexivity | ] ].
    rewrite orb_false_iff. rewrite <- Z.negb_even, negb_false_iff.
    rewrite Zmod_even. destruct (Z.even (shr_m mrs)); intuition congruence. }
  assert (Hcomp : forall a b (f g : shr_record -> shr_record),
     0 < a -> 0 < b ->
     (forall mrs, 0 <= shr_m mrs ->
        0 <= shr_m (f mrs) /\ shr_m (f mrs) = shr_m mrs / 2 ^ a /\
        (inexactb (f mrs) = false <-> inexactb mrs = false /\ shr_m mrs mod 2 ^ a = 0)) ->
     (forall mrs, 0 <= shr_m mrs ->
        0 <= shr_m (g mrs) /\ shr_m (g mrs) = shr_m mrs / 2 ^ b /\
        (inexactb (g mrs) = false <-> inexactb mrs = false /\ shr_m mrs mod 2 ^ b = 0)) ->
     forall mrs, 0 <= shr_m mrs ->
        0 <= shr_m (g (f mrs)) /\ shr_m (g (f mrs)) = shr_m mrs / 2 ^ (a + b) /\
        (inexactb (g (f mrs)) = false <->
         inexactb mrs = false /\ shr_m mrs mod 2 ^ (a + b) = 0)).
  { intros a b f g Ha Hb Hf Hg mrs Hm.
    destruct (Hf mrs Hm) as (F0 & F1 & F2).
    destruct (Hg (f mrs) F0) as (G0 & G1 & G2).
    split; [ assumption | split ].
    - rewrite G1, F1, Z.pow_add_r, Z.div_div by (try apply Z.pow_pos_nonneg; lia).
      reflexivity.
    - rewrite G2, F2, F1, (mod_pow2_split (shr_m mrs) a b) by lia. tauto. }
  induction p as [p IH | p IH | ]; intros mrs Hm; simpl iter_pos.
  - replace (Zpos p~1) with (1 + (Zpos p + Zpos p)) by lia.
    apply (Hcomp 1 (Zpos p + Zpos p) shr_1
             (fun x => iter_pos shr_1 p (iter_pos shr_1 p x)));
      [ lia | lia | exact Hone | | exact Hm ].
    apply (Hcomp (Zpos p) (Zpos p)); [ lia | lia | exact IH | exact IH ].
  - replace (Zpos p~0) with (Zpos p + Zpos p) by lia.
    apply (Hcomp (Zpos p) (Zpos p)); [ lia | lia | exact IH | exact IH | exact Hm ].
  - apply Hone; exact Hm.
Qed.

Lemma shr_spec mrs e n :
  0 <= shr_m mrs -> 0 <= n ->
  snd (shr mrs e n) = e + n /\
  shr_m (fst (shr mrs e n)) = shr_m mrs / 2 ^ n /\
  (inexactb (fst (shr mrs e n)) = false <->
   inexactb mrs = false /\ shr_m mrs mod 2 ^ n = 0).
Proof.
  intros Hm Hn. destruct n as [ | p | p ]; [ | | lia ]; simpl.
  - rewrite Z.add_0_r, Z.div_1_r, Z.mod_1_r. tauto.
  - destruct (iter_shr_1_spec p mrs Hm) as (_ & H1 & H2). tauto.
Qed.

Lemma shr_record_of_loc_m m l : shr_m (shr_record_of_loc m l) = m.
Proof. destruct l as [ | [ | | ] ]; reflexivity. Qed.

Lemma shr_record_of_loc_exact m l :
  inexactb (shr_record_of_loc m l) = false <-> l = loc_Exact.
Proof.
  destruct l as [ | [ | | ] ]; unfold inexactb; simpl; split; intros H;
    try reflexivity; discriminate H.
Qed.

Lemma round_nearest_even_cases mrs :
  let m := shr_m mrs in
  let m' := round_nearest_even m (loc_of_shr_record mrs) in
  (m' = m \/ m' = m + 1) /\ (inexactb mrs = false -> m' = m).
Proof.
  destruct mrs as [m [ | ] [ | ]]; simpl; unfold inexactb; simpl;
    try destruct (Z.even m); split; try tauto; try discriminate; auto.
Qed.

(** ** The shape of a rounded result *)


Lemma rounded_mantissa_bounds mx ex :
  0 <= mx ->
  let e1 := fexp prec emax (Zdigits2 mx + ex) in
  ex <= e1 ->
  let m1 := mx / 2 ^ (e1 - ex) in
  0 <= m1 < 2 ^ 53 /\ (e1 = -1074 \/ 2 ^ 52 <= m1) /\ -1074 <= e1.
Proof.
  intros Hmx e1 Hle m1. subst e1 m1. rewrite fexp_eq in *.
  set (d := Zdigits2 mx) in *. set (e1 := Z.max (d + ex - 53) (-1074)) in *.
  assert (Hp : 0 < 2 ^ (e1 - ex)) by (apply Z.pow_pos_nonneg; lia).
  destruct (Z.eq_dec mx 0) as [-> | Hnz].
  - rewrite Z.div_0_l by lia. simpl in d. subst d. lia.
  - assert (Hpos : 0 < mx) by lia.
    destruct (Zdigits2_bounds mx Hpos) as [Hlo Hhi]. fold d in Hlo, Hhi.
    pose proof (Zdigits2_pos mx Hpos) as Hd. fold d in Hd.
    split; [ split | split ].
    + apply Z.div_pos; lia.
    + apply Z.div_lt_upper_bound; [ lia | ].
      rewrite <- Z.pow_add_r by lia.
      assert (2 ^ d <= 2 ^ (e1 - ex + 53)) by (apply Z.pow_le_mono_r; lia). lia.
    + destruct (Z.eq_dec e1 (-1074)) as [ | Hne ]; [ now left | right ].
      assert (He : e1 = d + ex - 53) by lia.
      apply Z.div_le_lower_bound; [ lia | ].
      rewrite <- Z.pow_add_r by lia.
      replace (e1 - ex + 52) with (d - 1) by lia. lia.
    + lia.
Qed.

Lemma binary_round_aux_pack mx ex lx :
  0 <= mx ->
  let e1 := fexp prec emax (Zdigits2 mx + ex) in
  ex <= e1 ->
  let m1 := mx / 2 ^ (e1 - ex) in
  exists m2,
    (m2 = m1 \/ m2 = m1 + 1) /\
    (lx = loc_Exact -> mx mod 2 ^ (e1 - ex) = 0 -> m2 = m1) /\
    binary_round_aux prec emax false mx ex lx = pack m2 e1.
Proof.
  intros Hmx e1 Hle m1.
  destruct (rounded_mantissa_bounds mx ex Hmx Hle) as (Hm1 & Hnorm & Hemin).
  fold e1 in Hm1, Hnorm, Hemin. fold m1 in Hm1, Hnorm.
  unfold binary_round_aux, shr_fexp. fold e1.
  pose proof (shr_spec (shr_record_of_loc mx lx) ex (e1 - ex)) as S1.
  rewrite shr_record_of_loc_m in S1. specialize (S1 Hmx ltac:(lia)).
  destruct (shr (shr_record_of_loc mx lx) ex (e1 - ex)) as [mrs' e'] eqn:E1.
  simpl fst in S1; simpl snd in S1. destruct S1 as (Se & Sm & Sx).
  fold m1 in Sm. replace (ex + (e1 - ex)) with e1 in Se by lia. subst e'.
  destruct (round_nearest_even_cases mrs') as [Hc Hex]. cbv zeta in Hc, Hex.
  set (m2 := round_nearest_even (shr_m mrs') (loc_of_shr_record mrs')) in *.
  rewrite Sm in Hc, Hex.
  exists m2. split; [ exact Hc | split ].
  { intros Hl Hmod. apply Hex. apply Sx. split; [ | exact Hmod ].
    now apply shr_record_of_loc_exact. }
  assert (Hm2 : 0 <= m2 <= 2 ^ 53) by lia.
  unfold pack.
  destruct (Z.eqb_spec m2 0) as [Hz | Hnz].
  - (* the mantissa vanished *)
    rewrite Hz. simpl Zdigits2. simpl shr_record_of_loc.
    rewrite fexp_eq. unfold shr.
    destruct (Z.max (0 + e1 - 53) (-1074) - e1) eqn:En; try reflexivity. lia.
  - destruct (Z.ltb_spec m2 (2 ^ 53)) as [Hlt | Hge].
    + (* no carry into a 54th bit: the second shift does nothing *)
      assert (Hd : Zdigits2 m2 <= 53) by (apply Zdigits2_le_of_lt; lia).
      rewrite fexp_eq. unfold shr.
      destruct (Z.max (Zdigits2 m2 + e1 - 53) (-1074) - e1) eqn:En; try lia;
        simpl shr_record_of_loc; simpl shr_m;
        destruct m2 as [ | q | q ]; try lia; reflexivity.
    + (* the carry: one more shift *)
      assert (E : m2 = 2 ^ 53) by lia. rewrite E.
      change (Zdigits2 (2 ^ 53)) with 54. rewrite fexp_eq.
      replace (Z.max (54 + e1 - 53) (-1074) - e1) with 1 by lia.
      reflexivity.
Qed.

(** ** Dyadic numbers as rationals *)


Lemma pow2_pos e : (0 < 2 ^ e)%Q.
Proof. apply Qpower_0_lt. reflexivity. Qed.

Lemma two_neq_0 : ~ (2 == 0)%Q.
Proof. intro H. discriminate H. Qed.

Lemma dy_shift m e k : 0 <= k -> (dy (m * 2 ^ k) e == dy m (e + k))%Q.
Proof.
  intros Hk. unfold dy.
  rewrite inject_Z_mult, Zpower_Qpower by assumption.
  rewrite Qpower_plus by exact two_neq_0.
  change (inject_Z 2) with 2%Q. ring.
Qed.

Lemma dy_le m m' e : (dy m e <= dy m' e)%Q <-> m <= m'.
Proof. unfold dy. rewrite Qmult_le_r by apply pow2_pos. now rewrite <- Zle_Qle. Qed.

Lemma dy_lt m m' e : (dy m e < dy m' e)%Q <-> m < m'.
Proof. unfold dy. rewrite Qmult_lt_r by apply pow2_pos. now rewrite <- Zlt_Qlt. Qed.

Lemma dy_le_hi m e m' e' :
  e <= e' -> ((dy m e <= dy m' e')%Q <-> m <= m' * 2 ^ (e' - e)).
Proof.
  intros H. rewrite <- (dy_le m (m' * 2 ^ (e' - e)) e).
  rewrite (dy_shift m' e (e' - e)) by lia.
  replace (e + (e' - e)) with e' by lia. reflexivity.
Qed.

Lemma dy_lt_hi m e m' e' :
  e <= e' -> ((dy m e < dy m' e')%Q <-> m < m' * 2 ^ (e' - e)).
Proof.
  intros H. rewrite <- (dy_lt m (m' * 2 ^ (e' - e)) e).
  rewrite (dy_shift m' e (e' - e)) by lia.
  replace (e + (e' - e)) with e' by lia. reflexivity.
Qed.

Lemma dy_le_lo m e m' e' :
  e' <= e -> ((dy m e <= dy m' e')%Q <-> m * 2 ^ (e - e') <= m').
Proof.
  intros H. rewrite <- (dy_le (m * 2 ^ (e - e')) m' e').
  rewrite (dy_shift m e' (e - e')) by lia.
  replace (e' + (e - e')) with e by lia. reflexivity.
Qed.

Lemma dy_lt_lo m e m' e' :
  e' <= e -> ((dy m e < dy m' e')%Q <-> m * 2 ^ (e - e') < m').
Proof.
  intros H. rewrite <- (dy_lt (m * 2 ^ (e - e')) m' e').
  rewrite (dy_shift m e' (e - e')) by lia.
  replace (e' + (e - e')) with e by lia. reflexivity.
Qed.

Lemma dy_0 e : (dy 0 e == 0)%Q.
Proof. unfold dy. ring. Qed.

Lemma dy_nonneg m e : 0 <= m -> (0 <= dy m e)%Q.
Proof. intros H. rewrite <- (dy_0 e). now apply dy_le. Qed.

Lemma dy_int m : (dy m 0 == inject_Z m)%Q.
Proof. unfold dy. simpl. ring. Qed.

(** ** Finite, valid, non-negative floats *)


Lemma F2Q_finite m e : F2Q (S754_finite false m e) = dy (Zpos m) e.
Proof. reflexivity. Qed.

Lemma bounded_inv m e :
  bounded prec emax m e = true ->
  -1074 <= e <= 971 /\ Zpos m < 2 ^ 53 /\ (e = -1074 \/ 2 ^ 52 <= Zpos m).
Proof.
  unfold bounded, canonical_mantissa. rewrite andb_true_iff, Z.eqb_eq, Z.leb_le.
  rewrite fexp_eq. change (emax - prec) with 971. intros [Hc He].
  pose proof (digits2_pos_bounds m) as [Hlo Hhi].
  set (d := Zpos (digits2_pos m)) in *.
  assert (Hd : d <= 53) by lia.
  assert (2 ^ d <= 2 ^ 53) by (apply Z.pow_le_mono_r; lia).
  split; [ lia | split; [ lia | ] ].
  destruct (Z.eq_dec e (-1074)); [ now left | right ].
  assert (d = 53) by lia. subst d. rewrite H0 in Hlo. exact Hlo.
Qed.

Lemma bounded_intro m e :
  -1074 <= e <= 971 -> Zpos m < 2 ^ 53 -> (e = -1074 \/ 2 ^ 52 <= Zpos m) ->
  bounded prec emax m e = true.
Proof.
  intros He Hm Hn. unfold bounded, canonical_mantissa.
  rewrite andb_true_iff, Z.eqb_eq, Z.leb_le, fexp_eq.
  change (emax - prec) with 971. split; [ | lia ].
  assert (Hd : Zpos (digits2_pos m) <= 53)
    by (apply (Zdigits2_le_of_lt (Zpos m)); lia).
  destruct Hn as [-> | Hn]; [ lia | ].
  assert (52 < Zpos (digits2_pos m))
    by (apply (Zdigits2_gt_of_le (Zpos m)); lia).
  lia.
Qed.

Lemma fin_nonneg_F2Q f : fin_nonneg f = true -> (0 <= F2Q f)%Q.
Proof.
  destruct f as [ s | s | | [ | ] m e ]; simpl fin_nonneg; try discriminate;
    intros _; try apply Qle_refl.
  rewrite F2Q_finite. apply dy_nonneg. lia.
Qed.

(** ** What [pack] holds *)

Lemma pack_cases m e :
  0 <= m <= 2 ^ 53 -> -1074 <= e -> (e = -1074 \/ 2 ^ 52 <= m) ->
  (pack m e = S754_infinity false /\ 0 < m /\
   971 < e + (if m <? 2 ^ 53 then 0 else 1)) \/
  (fin_nonneg (pack m e) = true /\ (F2Q (pack m e) == dy m e)%Q /\
   (0 < m -> e + (if m <? 2 ^ 53 then 0 else 1) <= 971)).
Proof.
  intros Hm He Hn. unfold pack.
  destruct (Z.eqb_spec m 0) as [-> | Hnz].
  { right. simpl. split; [ reflexivity | split; [ now rewrite dy_0 | lia ] ]. }
  destruct (Z.ltb_spec m (2 ^ 53)) as [Hlt | Hge].
  - destruct (Z.leb_spec e 971) as [Hle | Hgt]; [ right | left; split; [ reflexivity | lia ] ].
    assert (Hp : Zpos (Z.to_pos m) = m) by (apply Z2Pos.id; lia).
    split; [ | split; [ | lia ] ].
    + simpl. apply bounded_intro; rewrite ?Hp; lia.
    + rewrite F2Q_finite, Hp. reflexivity.
  - assert (E : m = 2 ^ 53) by lia.
    destruct (Z.leb_spec (e + 1) 971) as [Hle | Hgt]; [ right | left; split; [ reflexivity | lia ] ].
    split; [ | split; [ | lia ] ].
    + simpl. apply bounded_intro; simpl; lia.
    + rewrite F2Q_finite. subst m.
      change (Zpos (Z.to_pos (2 ^ 52))) with (2 ^ 52).
      change (2 ^ 53) with (2 ^ 52 * 2 ^ 1). rewrite dy_shift by lia. reflexivity.
Qed.

(** ** Rounding is faithful: it never crosses a float *)

Section Faithful.

Variables (mx ex : Z) (lx : location).
Hypothesis Hmx : 0 <= mx.
Hypothesis Hshift : ex <= fexp prec emax (Zdigits2 mx + ex).

Let r := binary_round_aux prec emax false mx ex lx.

Lemma round_shape : r = S754_infinity false \/ fin_nonneg r = true.
Proof.
  destruct (binary_round_aux_pack mx ex lx Hmx Hshift) as (m2 & Hc & _ & Hr).
  destruct (rounded_mantissa_bounds mx ex Hmx Hshift) as (Hm1 & Hn & He).
  fold r in Hr. rewrite Hr.
  assert (Hm2 : 0 <= m2 <= 2 ^ 53) by lia.
  assert (Hn2 : fexp prec emax (Zdigits2 mx + ex) = -1074 \/ 2 ^ 52 <= m2) by lia.
  destruct (pack_cases m2 _ Hm2 He Hn2) as [(H & _) | (H & _)];
    [ now left | now right ].
Qed.

Let e1 := fexp prec emax (Zdigits2 mx + ex).
Let m1 := mx / 2 ^ (e1 - ex).

Lemma floor_interval :
  m1 * 2 ^ (e1 - ex) <= mx /\ mx + 1 <= (m1 + 1) * 2 ^ (e1 - ex) /\
  (mx mod 2 ^ (e1 - ex) = 0 <-> mx = m1 * 2 ^ (e1 - ex)).
Proof.
  assert (Hpow : 0 < 2 ^ (e1 - ex)) by (apply Z.pow_pos_nonneg; unfold e1; lia).
  pose proof (Z.div_mod mx (2 ^ (e1 - ex)) ltac:(lia)) as Hd.
  pose proof (Z.mod_pos_bound mx (2 ^ (e1 - ex)) Hpow). fold m1 in Hd.
  split; [ nia | split; [ nia | split; intros; nia ] ].
Qed.

(** A float below the upper end of the interval that holds the exact
    value is not above the rounded value. *)
Lemma round_lower a :
  fin_nonneg a = true ->
  (F2Q a < dy (mx + 1) ex)%Q ->
  r = S754_infinity false \/ (fin_nonneg r = true /\ (F2Q a <= F2Q r)%Q).
Proof.
  intros Ha Hlt.
  destruct (binary_round_aux_pack mx ex lx Hmx Hshift) as (m2 & Hc & _ & Hr).
  destruct (rounded_mantissa_bounds mx ex Hmx Hshift) as (Hm1 & Hn & He).
  destruct floor_interval as (Hlo & Hup & _).
  fold r in Hr. rewrite Hr. fold e1 in Hr, Hm1, Hn, He |- *. fold m1 in Hm1, Hn.
  change (m2 = m1 \/ m2 = m1 + 1) in Hc.
  assert (Hm2 : 0 <= m2 <= 2 ^ 53) by lia.
  assert (Hn2 : e1 = -1074 \/ 2 ^ 52 <= m2) by lia.
  destruct (pack_cases m2 e1 Hm2 He Hn2) as [(H & _) | (Hf & Hv & _)];
    [ now left | right; split; [ exact Hf | ] ].
  rewrite Hv.
  apply Qle_trans with (dy m1 e1); [ | apply dy_le; lia ].
  assert (Hlt1 : (F2Q a < dy (m1 + 1) e1)%Q).
  { eapply Qlt_le_trans; [ exact Hlt | ]. apply dy_le_hi; [ exact Hshift | exact Hup ]. }
  destruct a as [ s | s | | [ | ] ma ea ]; simpl in Ha; try discriminate.
  { simpl. apply dy_nonneg; lia. }
  rewrite F2Q_finite in *.
  destruct (bounded_inv ma ea Ha) as (Hea & Hma & Hna).
  destruct (Z_le_gt_dec e1 ea) as [Hge | Hlt2].
  - apply dy_lt_lo in Hlt1; [ | exact Hge ]. apply dy_le_lo; [ exact Hge | lia ].
  - apply dy_le_hi; [ lia | ].
    assert (2 ^ 1 <= 2 ^ (e1 - ea)) by (apply Z.pow_le_mono_r; lia).
    change (2 ^ 1) with 2 in *. nia.
Qed.

(** A float above the exact value is not below the rounded value, which
    is then finite. *)
Lemma round_upper b :
  fin_nonneg b = true ->
  (dy mx ex < F2Q b)%Q \/ (lx = loc_Exact /\ (dy mx ex <= F2Q b)%Q) ->
  fin_nonneg r = true /\ (F2Q r <= F2Q b)%Q.
Proof.
  intros Hb Hle.
  destruct (binary_round_aux_pack mx ex lx Hmx Hshift) as (m2 & Hc & Hex & Hr).
  destruct (rounded_mantissa_bounds mx ex Hmx Hshift) as (Hm1 & Hn & He).
  destruct floor_interval as (Hlo & Hup & Hmod).
  fold r in Hr. rewrite Hr. fold e1 in Hr, Hm1, Hn, He |- *. fold m1 in Hm1, Hn.
  change (m2 = m1 \/ m2 = m1 + 1) in Hc.
  change (lx = loc_Exact -> mx mod 2 ^ (e1 - ex) = 0 -> m2 = m1) in Hex.
  assert (Hpow : 0 < 2 ^ (e1 - ex)) by (apply Z.pow_pos_nonneg; lia).
  destruct b as [ s | s | | [ | ] mb eb ]; simpl in Hb; try discriminate.
  { (* nothing but zero is below zero *)
    simpl F2Q in *.
    assert (Hz : mx = 0).
    { destruct Hle as [Hle | [_ Hle]].
      - exfalso. pose proof (dy_nonneg mx ex Hmx). lra.
      - rewrite <- (dy_0 ex) in Hle. apply dy_le in Hle. lia. }
    assert (m2 = 0).
    { destruct Hle as [Hle | [Hl _]].
      - exfalso. pose proof (dy_nonneg mx ex Hmx). lra.
      - rewrite Hex; [ | exact Hl | apply Hmod; nia ]. nia. }
    subst m2. simpl. split; [ reflexivity | apply Qle_refl ]. }
  rewrite F2Q_finite in *.
  destruct (bounded_inv mb eb Hb) as (Heb & Hmb & Hnb).
  destruct (Z_le_gt_dec e1 eb) as [Hge | Hlt2].
  - (* [b] is a multiple of the unit of the result *)
    set (K := Zpos mb * 2 ^ (eb - e1)).
    assert (HK : 2 ^ (eb - ex) = 2 ^ (eb - e1) * 2 ^ (e1 - ex)).
    { rewrite <- Z.pow_add_r by lia. f_equal. lia. }
    assert (Hm2K : m2 <= K).
    { destruct Hle as [Hle | [Hl Hle]].
      - apply dy_lt_hi in Hle; [ | lia ]. rewrite HK in Hle. fold K in Hle. nia.
      - apply dy_le_hi in Hle; [ | lia ]. rewrite HK in Hle.
        destruct (Z.eq_dec (mx mod 2 ^ (e1 - ex)) 0) as [Hm0 | Hm0].
        + rewrite (Hex Hl Hm0). fold K in Hle. nia.
        + assert (mx <> K * 2 ^ (e1 - ex)).
          { intros E. apply Hm0. rewrite E. apply Z.mod_mul. lia. }
          fold K in Hle. nia. }
    assert (Hpk : 0 < 2 ^ (eb - e1)) by (apply Z.pow_pos_nonneg; lia).
    assert (Hm2 : 0 <= m2 <= 2 ^ 53) by lia.
    assert (Hn2 : e1 = -1074 \/ 2 ^ 52 <= m2) by lia.
    destruct (pack_cases m2 e1 Hm2 He Hn2) as [(_ & Hpos & Hbig) | (Hf & Hv & _)].
    + exfalso. destruct (Z.ltb_spec m2 (2 ^ 53)); [ lia | ].
      assert (eb <> e1).
      { intros E. unfold K in Hm2K. rewrite E, Z.sub_diag in Hm2K.
        change (2 ^ 0) with 1 in Hm2K. lia. }
      lia.
    + split; [ exact Hf | ]. rewrite Hv. apply dy_le_hi; [ exact Hge | exact Hm2K ].
  - (* a float with a smaller unit is below the whole interval *)
    exfalso.
    assert (H1 : (dy (Zpos mb) eb < dy m1 e1)%Q).
    { apply dy_lt_hi; [ lia | ].
      assert (2 ^ 1 <= 2 ^ (e1 - eb)) by (apply Z.pow_le_mono_r; lia).
      change (2 ^ 1) with 2 in *. nia. }
    assert (H2 : (dy m1 e1 <= dy mx ex)%Q) by (apply dy_le_lo; [ exact Hshift | exact Hlo ]).
    destruct Hle as [Hle | [_ Hle]]; lra.
Qed.

End Faithful.

Lemma dy_mul a e b e' : (dy a e * dy b e' == dy (a * b) (e + e'))%Q.
Proof.
  unfold dy. rewrite inject_Z_mult, Qpower_plus by exact two_neq_0. ring.
Qed.

Lemma dy_pos m e : 0 < m -> (0 < dy m e)%Q.
Proof. intros H. rewrite <- (dy_0 e). now apply dy_lt. Qed.

(** ** Floats that hold a given dyadic number *)

Lemma representable M e :
  0 < M < 2 ^ 53 -> -1074 <= e -> Zdigits2 M + e <= 1024 ->
  exists f, fin_nonneg f = true /\ (F2Q f == dy M e)%Q.
Proof.
  intros HM He Hd.
  destruct (Zdigits2_bounds M ltac:(lia)) as [Hlo Hhi].
  pose proof (Zdigits2_pos M ltac:(lia)) as Hdp.
  set (d := Zdigits2 M) in *.
  assert (Hd53 : d <= 53) by (apply Zdigits2_le_of_lt; lia).
  set (e' := Z.max (d + e - 53) (-1074)).
  assert (Hp : 0 < 2 ^ (e - e')) by (apply Z.pow_pos_nonneg; lia).
  set (M' := M * 2 ^ (e - e')).
  assert (HM' : 0 < M') by (unfold M'; nia).
  exists (S754_finite false (Z.to_pos M') e').
  assert (Hid : Zpos (Z.to_pos M') = M') by (apply Z2Pos.id; lia).
  split.
  - simpl. apply bounded_intro; rewrite ?Hid.
    + lia.
    + unfold M'.
      assert (2 ^ d * 2 ^ (e - e') <= 2 ^ 53).
      { rewrite <- Z.pow_add_r by lia. apply Z.pow_le_mono_r; lia. }
      nia.
    + destruct (Z.eq_dec e' (-1074)); [ now left | right ].
      assert (E : e - e' = 53 - d) by lia. unfold M'. rewrite E.
      assert (2 ^ 52 = 2 ^ (d - 1) * 2 ^ (53 - d)).
      { rewrite <- Z.pow_add_r by lia. f_equal. lia. }
      assert (0 < 2 ^ (53 - d)) by (apply Z.pow_pos_nonneg; lia).
      nia.
  - rewrite F2Q_finite, Hid. unfold M'. rewrite dy_shift by lia.
    replace (e' + (e - e')) with e by lia. reflexivity.
Qed.

Lemma representable_int k :
  0 <= k < 2 ^ 53 -> exists f, fin_nonneg f = true /\ (F2Q f == inject_Z k)%Q.
Proof.
  intros Hk. destruct (Z.eq_dec k 0) as [-> | Hnz].
  - exists (S754_zero false). split; reflexivity.
  - destruct (representable k 0) as (f & Hf & Hv); try lia.
    + assert (Zdigits2 k <= 53) by (apply Zdigits2_le_of_lt; lia). lia.
    + exists f. split; [ exact Hf | ]. rewrite Hv. apply dy_int.
Qed.

(** ** Conversion of an integer *)

Lemma pos_iter_xO m d : Zpos (Pos.iter xO m d) = Zpos m * 2 ^ Zpos d.
Proof.
  revert m. induction d as [ d IH | d IH | ]; intros m; simpl Pos.iter.
  - rewrite Pos2Z.inj_xO, !IH.
    replace (Zpos d~1) with (Zpos d + Zpos d + 1) by lia.
    rewrite !Z.pow_add_r by lia. change (2 ^ 1) with 2. ring.
  - rewrite !IH. replace (Zpos d~0) with (Zpos d + Zpos d) by lia.
    rewrite Z.pow_add_r by lia. ring.
  - rewrite Pos2Z.inj_xO. change (2 ^ 1) with 2. ring.
Qed.

Lemma Zdigits2_shift m k :
  0 < m -> 0 <= k -> Zdigits2 (m * 2 ^ k) = Zdigits2 m + k.
Proof.
  intros Hm Hk.
  destruct (Zdigits2_bounds m Hm) as [Hlo Hhi].
  pose proof (Zdigits2_pos m Hm) as Hd.
  assert (Hp : 0 < 2 ^ k) by (apply Z.pow_pos_nonneg; lia).
  assert (H1 : Zdigits2 (m * 2 ^ k) <= Zdigits2 m + k).
  { apply Zdigits2_le_of_lt; [ nia | ]. rewrite Z.pow_add_r by lia. nia. }
  assert (H2 : Zdigits2 m - 1 + k < Zdigits2 (m * 2 ^ k)).
  { apply Zdigits2_gt_of_le; [ lia | ]. rewrite Z.pow_add_r by lia. nia. }
  lia.
Qed.

Lemma shl_align_spec mx ex ex' :
  let '(mz, ez) := shl_align mx ex ex' in
  ez = Z.min ex ex' /\ Zpos mz = Zpos mx * 2 ^ (ex - ez).
Proof.
  unfold shl_align. destruct (ex' - ex) as [ | d | d ] eqn:E.
  - split; [ lia | ]. rewrite Z.sub_diag. simpl. lia.
  - split; [ lia | ]. rewrite Z.sub_diag. simpl. lia.
  - split; [ lia | ]. rewrite pos_iter_xO. f_equal. f_equal. lia.
Qed.

Lemma float_of_int_exact k :
  0 <= k < 2 ^ 53 ->
  exists f, float_of_int k = Ok f /\ fin_nonneg f = true /\
            (F2Q f == inject_Z k)%Q.
Proof.
  intros Hk. unfold float_of_int.
  destruct k as [ | p | p ]; [ | | lia ].
  { exists (S754_zero false). repeat split; reflexivity. }
  simpl binary_normalize. unfold binary_round.
  pose proof (shl_align_spec p 0 (fexp prec emax (Zpos (digits2_pos p) + 0))) as Hal.
  destruct (shl_align p 0 (fexp prec emax (Zpos (digits2_pos p) + 0))) as [mz ez].
  destruct Hal as [Hez Hmz].
  assert (Hd : Zdigits2 (Zpos p) <= 53) by (apply Zdigits2_le_of_lt; lia).
  simpl Zdigits2 in Hd. rewrite fexp_eq in Hez.
  assert (Ez : ez = Zpos (digits2_pos p) - 53) by lia.
  assert (Hsh : ez <= fexp prec emax (Zdigits2 (Zpos mz) + ez)).
  { rewrite Hmz, Zdigits2_shift by lia. rewrite fexp_eq. simpl Zdigits2. lia. }
  assert (Hval : (dy (Zpos mz) ez == inject_Z (Zpos p))%Q).
  { rewrite Hmz, dy_shift by lia. replace (ez + (0 - ez)) with 0 by lia. apply dy_int. }
  destruct (representable_int (Zpos p) Hk) as (f0 & Hf0 & Hv0).
  destruct (round_upper (Zpos mz) ez loc_Exact ltac:(lia) Hsh f0 Hf0) as [Hfin Hup].
  { right. split; [ reflexivity | ]. rewrite Hval, Hv0. apply Qle_refl. }
  destruct (round_lower (Zpos mz) ez loc_Exact ltac:(lia) Hsh f0 Hf0) as [Hinf | [_ Hlo]].
  { rewrite Hv0, <- Hval. apply dy_lt. lia. }
  { rewrite Hinf in Hfin. discriminate Hfin. }
  set (r := binary_round_aux prec emax false (Zpos mz) ez loc_Exact) in *.
  exists r. split; [ | split; [ exact Hfin | ] ].
  - destruct r; try reflexivity; discriminate Hfin.
  - rewrite Hv0 in Hup, Hlo. apply Qle_antisym; assumption.
Qed.

(** ** Comparison *)

Lemma fin_nonneg_lt a b :
  fin_nonneg a = true -> fin_nonneg b = true ->
  SFltb a b = true -> (F2Q a < F2Q b)%Q.
Proof.
  intros Ha Hb. unfold SFltb, SFcompare.
  destruct a as [ sa | sa | | [ | ] ma ea ]; simpl in Ha; try discriminate Ha;
  destruct b as [ sb | sb | | [ | ] mb eb ]; simpl in Hb; try discriminate Hb;
    intros H; try discriminate H.
  - rewrite F2Q_finite. simpl F2Q. apply dy_pos. lia.
  - rewrite !F2Q_finite.
    destruct (bounded_inv ma ea Ha) as (Hea & Hma & Hna).
    destruct (bounded_inv mb eb Hb) as (Heb & Hmb & Hnb).
    destruct (Z.compare_spec ea eb) as [E | E | E]; try discriminate H.
    + subst eb. rewrite Pos.compare_cont_spec in H. simpl in H.
      destruct (Pos.compare_spec ma mb); try discriminate H.
      apply dy_lt. lia.
    + apply dy_lt_hi; [ lia | ].
      assert (2 ^ 1 <= 2 ^ (eb - ea)) by (apply Z.pow_le_mono_r; lia).
      change (2 ^ 1) with 2 in *. nia.
Qed.

Lemma fin_nonneg_not_lt a b :
  fin_nonneg a = true -> fin_nonneg b = true ->
  SFltb a b = false -> (F2Q b <= F2Q a)%Q.
Proof.
  intros Ha Hb. unfold SFltb, SFcompare.
  destruct a as [ sa | sa | | [ | ] ma ea ]; simpl in Ha; try discriminate Ha;
  destruct b as [ sb | sb | | [ | ] mb eb ]; simpl in Hb; try discriminate Hb;
    intros H; try discriminate H.
  - apply Qle_refl.
  - rewrite F2Q_finite. simpl F2Q. apply dy_nonneg. lia.
  - rewrite !F2Q_finite.
    destruct (bounded_inv ma ea Ha) as (Hea & Hma & Hna).
    destruct (bounded_inv mb eb Hb) as (Heb & Hmb & Hnb).
    destruct (Z.compare_spec ea eb) as [E | E | E]; try discriminate H.
    + subst eb. rewrite Pos.compare_cont_spec in H. simpl in H.
      destruct (Pos.compare_spec ma mb); try discriminate H;
        apply dy_le; lia.
    + apply Qlt_le_weak. apply dy_lt_hi; [ lia | ].
      assert (2 ^ 1 <= 2 ^ (ea - eb)) by (apply Z.pow_le_mono_r; lia).
      change (2 ^ 1) with 2 in *. nia.
Qed.

(** ** Truncation and ceiling *)

Lemma int_of_float_spec f :
  fin_nonneg f = true ->
  exists t, int_of_float f = Ok t /\ 0 <= t /\
            (inject_Z t <= F2Q f)%Q /\ (F2Q f < inject_Z (t + 1))%Q.
Proof.
  destruct f as [ s | s | | [ | ] m e ]; simpl fin_nonneg; try discriminate; intros Hb.
  - exists 0. simpl. repeat split; try lia; try apply Qle_refl; reflexivity.
  - exists (Z.shiftl (Zpos m) e). simpl int_of_float. rewrite F2Q_finite.
    split; [ reflexivity | ].
    destruct (Z_le_gt_dec 0 e) as [He | He].
    + rewrite Z.shiftl_mul_pow2 by lia.
      assert (0 < 2 ^ e) by (apply Z.pow_pos_nonneg; lia).
      split; [ nia | ]. rewrite <- !dy_int. split.
      * apply dy_le_hi; [ lia | ]. rewrite Z.sub_0_r. lia.
      * apply dy_lt_lo; [ lia | ]. rewrite Z.sub_0_r. lia.
    + rewrite Z.shiftl_div_pow2 by lia.
      assert (Hp : 0 < 2 ^ (- e)) by (apply Z.pow_pos_nonneg; lia).
      pose proof (Z.div_mod (Zpos m) (2 ^ (- e)) ltac:(lia)).
      pose proof (Z.mod_pos_bound (Zpos m) (2 ^ (- e)) Hp).
      assert (0 <= Zpos m / 2 ^ (- e)) by (apply Z.div_pos; lia).
      split; [ lia | ]. rewrite <- !dy_int. split.
      * apply dy_le_lo; [ lia | ]. replace (0 - e) with (- e) by lia. nia.
      * apply dy_lt_hi; [ lia | ]. replace (0 - e) with (- e) by lia. nia.
Qed.

Lemma math_ceil_spec f :
  fin_nonneg f = true ->
  exists c, math_ceil f = Ok c /\ 0 <= c /\
            ((inject_Z (c - 1) < F2Q f)%Q \/ c = 0) /\ (F2Q f <= inject_Z c)%Q.
Proof.
  destruct f as [ s | s | | [ | ] m e ]; simpl fin_nonneg; try discriminate; intros Hb.
  - exists 0. simpl. split; [ reflexivity | split; [ lia | split; [ now right | apply Qle_refl ] ] ].
  - exists (- Z.shiftl (- Zpos m) e). simpl math_ceil. rewrite F2Q_finite.
    split; [ reflexivity | ].
    destruct (Z_le_gt_dec 0 e) as [He | He].
    + rewrite Z.shiftl_mul_pow2 by lia.
      assert (0 < 2 ^ e) by (apply Z.pow_pos_nonneg; lia).
      split; [ nia | ]. rewrite <- !dy_int. split.
      * left. apply dy_lt_hi; [ lia | ]. rewrite Z.sub_0_r. lia.
      * apply dy_le_lo; [ lia | ]. rewrite Z.sub_0_r. lia.
    + rewrite Z.shiftl_div_pow2 by lia.
      assert (Hp : 0 < 2 ^ (- e)) by (apply Z.pow_pos_nonneg; lia).
      pose proof (Z.div_mod (- Zpos m) (2 ^ (- e)) ltac:(lia)).
      pose proof (Z.mod_pos_bound (- Zpos m) (2 ^ (- e)) Hp).
      assert (- Zpos m / 2 ^ (- e) <= 0).
      { destruct (Z_le_gt_dec (- Zpos m / 2 ^ (- e)) 0); [ assumption | nia ]. }
      split; [ lia | ]. rewrite <- !dy_int. split.
      * left. apply dy_lt_lo; [ lia | ]. replace (0 - e) with (- e) by lia. nia.
      * apply dy_le_hi; [ lia | ]. replace (0 - e) with (- e) by lia. nia.
Qed.

(** ** Faithful results *)


Lemma round_faithful mx ex lx x :
  0 <= mx ->
  ex <= fexp prec emax (Zdigits2 mx + ex) ->
  (dy mx ex <= x)%Q -> (x < dy (mx + 1) ex)%Q ->
  (lx = loc_Exact -> (x == dy mx ex)%Q) ->
  (lx <> loc_Exact -> (dy mx ex < x)%Q) ->
  faithful x (binary_round_aux prec emax false mx ex lx).
Proof.
  intros Hmx Hsh Hlo Hhi Hex Hin. split; [ | split ].
  - apply round_shape; assumption.
  - intros a Ha Hle.
    destruct (round_lower mx ex lx Hmx Hsh a Ha) as [ | [_ H] ]; [ lra | now left | now right ].
  - intros b Hb Hle. apply round_upper; try assumption.
    destruct lx as [ | c ].
    + right. split; [ reflexivity | ]. rewrite <- Hex by reflexivity. exact Hle.
    + left. eapply Qlt_le_trans; [ apply Hin; discriminate | exact Hle ].
Qed.

Lemma faithful_zero s : faithful 0 (S754_zero s).
Proof.
  split; [ now right | split ].
  - intros a _ H. now right.
  - intros b _ H. split; [ reflexivity | exact H ].
Qed.

Lemma faithful_ext x y r : (x == y)%Q -> faithful x r -> faithful y r.
Proof.
  intros E (H1 & H2 & H3). split; [ exact H1 | split ].
  - intros a Ha Hle. apply H2; [ exact Ha | now rewrite E ].
  - intros b Hb Hle. apply H3; [ exact Hb | now rewrite E ].
Qed.

(** ** Multiplication *)

Lemma mul_faithful f1 f2 :
  fin_nonneg f1 = true -> fin_nonneg f2 = true ->
  faithful (F2Q f1 * F2Q f2) (float_mul f1 f2).
Proof.
  intros H1 H2. unfold float_mul.
  destruct f1 as [ s1 | s1 | | [ | ] m1 e1 ]; simpl in H1; try discriminate H1;
  destruct f2 as [ s2 | s2 | | [ | ] m2 e2 ]; simpl in H2; try discriminate H2;
    simpl SFmul.
  - apply (faithful_ext 0); [ simpl; ring | apply faithful_zero ].
  - apply (faithful_ext 0); [ simpl F2Q; ring | apply faithful_zero ].
  - apply (faithful_ext 0); [ simpl F2Q; ring | apply faithful_zero ].
  - rewrite !F2Q_finite.
    destruct (bounded_inv m1 e1 H1) as (He1 & Hm1 & Hn1).
    destruct (bounded_inv m2 e2 H2) as (He2 & Hm2 & Hn2).
    assert (Hv : (dy (Zpos m1) e1 * dy (Zpos m2) e2 == dy (Zpos (m1 * m2)) (e1 + e2))%Q).
    { rewrite dy_mul, Pos2Z.inj_mul. reflexivity. }
    apply round_faithful.
    + lia.
    + rewrite fexp_eq.
      assert (53 <= Zdigits2 (Zpos (m1 * m2)) \/ e1 + e2 <= -1074) as [ | ]; [ | lia | lia ].
      destruct Hn1 as [ -> | Hn1 ]; [ destruct Hn2 as [ -> | Hn2 ]; [ right; lia | left ] | left ].
      * assert (52 < Zdigits2 (Zpos (m1 * m2)))
          by (apply Zdigits2_gt_of_le; [ lia | rewrite Pos2Z.inj_mul; nia ]). lia.
      * assert (52 < Zdigits2 (Zpos (m1 * m2)))
          by (apply Zdigits2_gt_of_le; [ lia | rewrite Pos2Z.inj_mul; nia ]). lia.
    + rewrite Hv. apply Qle_refl.
    + rewrite Hv. apply dy_lt. lia.
    + intros _. exact Hv.
    + intros H. now elim H.
Qed.

(** ** Division *)

Lemma new_location_exact n k : new_location n k = loc_Exact <-> k = 0.
Proof.
  unfold new_location, new_location_even, new_location_odd.
  destruct (Z.even n); destruct (Z.eqb_spec k 0); split; intros H;
    try reflexivity; try assumption; try discriminate H; try contradiction.
Qed.

Lemma div_core_spec m1 e1 m2 e2 :
  0 < m1 -> 0 < m2 ->
  exists q e' l rem,
    SFdiv_core_binary prec emax m1 e1 m2 e2 = (q, e', l) /\
    0 <= q /\ e' + e2 <= e1 /\
    m1 * 2 ^ (e1 - (e' + e2)) = q * m2 + rem /\ 0 <= rem < m2 /\
    (l = loc_Exact <-> rem = 0) /\
    e' <= fexp prec emax (Zdigits2 q + e').
Proof.
  intros H1 H2. unfold SFdiv_core_binary.
  set (d1 := Zdigits2 m1). set (d2 := Zdigits2 m2).
  set (M := d1 + e1 - (d2 + e2)).
  set (e' := Z.min (fexp prec emax M) (e1 - e2)).
  set (s := e1 - e2 - e').
  assert (Hs : 0 <= s) by (unfold s, e'; lia).
  set (m' := match s with Zpos _ => Z.shiftl m1 s | Z0 => m1 | Zneg _ => 0 end).
  assert (Hm' : m' = m1 * 2 ^ s).
  { unfold m'. destruct s as [ | p | p ] eqn:E; [ | | lia ].
    - simpl. lia.
    - now rewrite Z.shiftl_mul_pow2 by lia. }
  pose proof (Z_div_mod m' m2 ltac:(lia)) as Hdm.
  destruct (Z.div_eucl m' m2) as [q rem].
  destruct Hdm as [Hq Hr].
  exists q, e', (new_location m2 rem), rem.
  assert (Hp : 0 < 2 ^ s) by (apply Z.pow_pos_nonneg; lia).
  assert (Hq0 : 0 <= q) by nia.
  split; [ reflexivity | ].
  split; [ exact Hq0 | ].
  split; [ unfold s in Hs; lia | ].
  split; [ replace (e1 - (e' + e2)) with s by (unfold s; lia); lia | ].
  split; [ lia | ].
  split; [ apply new_location_exact | ].
  (* the quotient has enough digits for a single rounding *)
  destruct (Zdigits2_bounds m1 H1) as [L1 U1]. fold d1 in L1, U1.
  destruct (Zdigits2_bounds m2 H2) as [L2 U2]. fold d2 in L2, U2.
  pose proof (Zdigits2_pos m1 H1) as P1. fold d1 in P1.
  pose proof (Zdigits2_pos m2 H2) as P2. fold d2 in P2.
  assert (Hfe : e' <= fexp prec emax M) by (unfold e'; lia).
  rewrite fexp_eq in Hfe |- *.
  destruct (Z.eq_dec q 0) as [-> | Hqnz].
  - simpl Zdigits2.
    assert (Hlt : 2 ^ (d1 - 1 + s) < 2 ^ d2).
    { rewrite Z.pow_add_r by lia. nia. }
    apply Z.pow_lt_mono_r_iff in Hlt; [ | lia | lia ].
    unfold s, M in *. lia.
  - assert (Hdq : d1 + s - d2 <= Zdigits2 q).
    { destruct (Z_le_gt_dec (d1 + s - d2) 1) as [ | Hk ].
      - pose proof (Zdigits2_pos q ltac:(lia)). lia.
      - assert (d1 + s - d2 - 1 < Zdigits2 q); [ | lia ].
        apply Zdigits2_gt_of_le; [ lia | ].
        assert (E : 2 ^ (d1 - 1 + s) = 2 ^ (d1 + s - d2 - 1) * 2 ^ d2).
        { rewrite <- Z.pow_add_r by lia. f_equal. lia. }
        assert (2 ^ (d1 - 1 + s) <= m1 * 2 ^ s).
        { rewrite Z.pow_add_r by lia. nia. }
        assert (0 < 2 ^ (d1 + s - d2 - 1)) by (apply Z.pow_pos_nonneg; lia).
        nia. }
    unfold s, M in *. lia.
Qed.

Lemma div_faithful m1 e1 m2 e2 :
  faithful (dy (Zpos m1) e1 / dy (Zpos m2) e2)
           (SFdiv prec emax (S754_finite false m1 e1) (S754_finite false m2 e2)).
Proof.
  simpl SFdiv.
  destruct (div_core_spec (Zpos m1) e1 (Zpos m2) e2) as
    (q & e' & l & rem & Hc & Hq & He & Heq & Hrem & Hl & Hsh); try lia.
  rewrite Hc.
  set (D := dy (Zpos m2) e2).
  assert (HD : (0 < D)%Q) by (apply dy_pos; lia).
  assert (Hqd : forall k, (dy k e' * D == dy (k * Zpos m2) (e' + e2))%Q).
  { intros k. unfold D. apply dy_mul. }
  apply round_faithful; try assumption.
  - apply Qle_shift_div_l; [ exact HD | ]. rewrite Hqd.
    apply dy_le_hi; [ lia | ]. lia.
  - apply Qlt_shift_div_r; [ exact HD | ]. rewrite Hqd.
    apply dy_lt_lo; [ lia | ]. lia.
  - intros E. apply Hl in E.
    assert (Hx : (dy (Zpos m1) e1 == dy q e' * D)%Q).
    { rewrite Hqd. apply Qle_antisym.
      - apply dy_le_lo; [ lia | ]. lia.
      - apply dy_le_hi; [ lia | ]. lia. }
    rewrite Hx. field. intro HD0. rewrite HD0 in HD. discriminate HD.
  - intros E.
    assert (rem <> 0) by (intro; apply E; now apply Hl).
    apply Qlt_shift_div_l; [ exact HD | ]. rewrite Hqd.
    apply dy_lt_hi; [ lia | ]. lia.
Qed.

(** ** The size of the rounding error *)


Lemma dy_add a b e : (dy (a + b) e == dy a e + dy b e)%Q.
Proof. unfold dy. rewrite inject_Z_plus. ring. Qed.

Lemma u52_pos : (0 < u52)%Q.
Proof. apply dy_pos. lia. Qed.

Lemma u52_lt_1 : (u52 < 1)%Q.
Proof. reflexivity. Qed.

Lemma unit_le_u52 m e : 2 ^ 52 <= m -> (dy 1 e <= u52 * dy m e)%Q.
Proof.
  intros H. unfold u52. rewrite dy_mul.
  apply dy_le_lo; [ lia | ]. replace (e - (-52 + e)) with 52 by lia. lia.
Qed.


Lemma round_close mx ex lx x :
  0 <= mx ->
  ex <= fexp prec emax (Zdigits2 mx + ex) ->
  (dy mx ex <= x)%Q -> (x < dy (mx + 1) ex)%Q ->
  close x (binary_round_aux prec emax false mx ex lx).
Proof.
  intros Hmx Hsh Hlo Hhi Hfin.
  destruct (binary_round_aux_pack mx ex lx Hmx Hsh) as (m2 & Hc & _ & Hr).
  destruct (rounded_mantissa_bounds mx ex Hmx Hsh) as (Hm1 & Hn & He).
  destruct (floor_interval mx ex Hsh) as (Hfl & Hfu & _).
  set (e1 := fexp prec emax (Zdigits2 mx + ex)) in *.
  set (m1 := mx / 2 ^ (e1 - ex)) in *.
  rewrite Hr in Hfin |- *.
  assert (Hm2 : 0 <= m2 <= 2 ^ 53) by lia.
  assert (Hn2 : e1 = -1074 \/ 2 ^ 52 <= m2) by lia.
  destruct (pack_cases m2 e1 Hm2 He Hn2) as [(Hinf & _) | (_ & Hv & _)].
  { rewrite Hinf in Hfin. discriminate Hfin. }
  rewrite Hv.
  assert (HA : (dy m1 e1 <= dy mx ex)%Q) by (apply dy_le_lo; [ exact Hsh | exact Hfl ]).
  assert (HB : (dy (mx + 1) ex <= dy (m1 + 1) e1)%Q)
    by (apply dy_le_hi; [ exact Hsh | exact Hfu ]).
  assert (HU : (dy (m1 + 1) e1 == dy m1 e1 + dy 1 e1)%Q) by apply dy_add.
  assert (H0 : (0 <= dy m1 e1)%Q) by (apply dy_nonneg; lia).
  assert (H2lo : (dy m1 e1 <= dy m2 e1)%Q) by (apply dy_le; lia).
  assert (H2hi : (dy m2 e1 <= dy (m1 + 1) e1)%Q) by (apply dy_le; lia).
  pose proof u52_pos as Hu. pose proof u52_lt_1 as Hu1.
  destruct (Z_le_gt_dec (2 ^ 52) m1) as [Hnorm | Hsub].
  - left. pose proof (unit_le_u52 m1 e1 Hnorm) as Hunit.
    split; nra.
  - right. assert (E : e1 = -1074) by lia.
    assert (Heta : (dy 1 e1 == eta)%Q) by (rewrite E; reflexivity).
    assert (Htiny : (dy m2 e1 <= tiny)%Q).
    { unfold tiny. rewrite E. apply dy_le_hi; [ lia | ].
      replace (-1022 - -1074) with 52 by lia. lia. }
    repeat split; lra.
Qed.

Lemma close_ext x y r : (x == y)%Q -> close x r -> close y r.
Proof.
  intros E H Hfin. specialize (H Hfin). rewrite E in H. exact H.
Qed.

Lemma close_zero s : close 0 (S754_zero s).
Proof. intros _. left. simpl. split; ring_simplify; apply Qle_refl. Qed.

Lemma mul_close f1 f2 :
  fin_nonneg f1 = true -> fin_nonneg f2 = true ->
  close (F2Q f1 * F2Q f2) (float_mul f1 f2).
Proof.
  intros H1 H2. unfold float_mul.
  destruct f1 as [ s1 | s1 | | [ | ] m1 e1 ]; simpl in H1; try discriminate H1;
  destruct f2 as [ s2 | s2 | | [ | ] m2 e2 ]; simpl in H2; try discriminate H2;
    simpl SFmul.
  - apply (close_ext 0); [ simpl; ring | apply close_zero ].
  - apply (close_ext 0); [ simpl F2Q; ring | apply close_zero ].
  - apply (close_ext 0); [ simpl F2Q; ring | apply close_zero ].
  - rewrite !F2Q_finite.
    destruct (bounded_inv m1 e1 H1) as (He1 & Hm1 & Hn1).
    destruct (bounded_inv m2 e2 H2) as (He2 & Hm2 & Hn2).
    assert (Hv : (dy (Zpos m1) e1 * dy (Zpos m2) e2 == dy (Zpos (m1 * m2)) (e1 + e2))%Q).
    { rewrite dy_mul, Pos2Z.inj_mul. reflexivity. }
    apply round_close.
    + lia.
    + rewrite fexp_eq.
      assert (53 <= Zdigits2 (Zpos (m1 * m2)) \/ e1 + e2 <= -1074) as [ | ]; [ | lia | lia ].
      destruct Hn1 as [ -> | Hn1 ]; [ destruct Hn2 as [ -> | Hn2 ]; [ right; lia | left ] | left ].
      * assert (52 < Zdigits2 (Zpos (m1 * m2)))
          by (apply Zdigits2_gt_of_le; [ lia | rewrite Pos2Z.inj_mul; nia ]). lia.
      * assert (52 < Zdigits2 (Zpos (m1 * m2)))
          by (apply Zdigits2_gt_of_le; [ lia | rewrite Pos2Z.inj_mul; nia ]). lia.
    + rewrite Hv. apply Qle_refl.
    + rewrite Hv. apply dy_lt. lia.
Qed.

Lemma div_close m1 e1 m2 e2 :
  close (dy (Zpos m1) e1 / dy (Zpos m2) e2)
        (SFdiv prec emax (S754_finite false m1 e1) (S754_finite false m2 e2)).
Proof.
  simpl SFdiv.
  destruct (div_core_spec (Zpos m1) e1 (Zpos m2) e2) as
    (q & e' & l & rem & Hc & Hq & He & Heq & Hrem & Hl & Hsh); try lia.
  rewrite Hc.
  set (D := dy (Zpos m2) e2).
  assert (HD : (0 < D)%Q) by (apply dy_pos; lia).
  assert (Hqd : forall k, (dy k e' * D == dy (k * Zpos m2) (e' + e2))%Q).
  { intros k. unfold D. apply dy_mul. }
  apply round_close; try assumption.
  - apply Qle_shift_div_l; [ exact HD | ]. rewrite Hqd.
    apply dy_le_hi; [ lia | ]. lia.
  - apply Qlt_shift_div_r; [ exact HD | ]. rewrite Hqd.
    apply dy_lt_lo; [ lia | ]. lia.
Qed.

(** ** Square root *)

Lemma Qsquare_lt_inv a b : (0 <= a)%Q -> (0 <= b)%Q -> (a * a < b * b)%Q -> (a < b)%Q.
Proof.
  intros Ha Hb H. apply Qnot_le_lt. intros Hle.
  assert ((b * b <= a * a)%Q) by nra. lra.
Qed.

Lemma Qsquare_le_inv a b : (0 <= a)%Q -> (0 <= b)%Q -> (a * a <= b * b)%Q -> (a <= b)%Q.
Proof.
  intros Ha Hb H. apply Qnot_lt_le. intros Hlt.
  assert ((b * b < a * a)%Q) by nra. lra.
Qed.

Lemma sqrt_core_spec m e :
  0 < m ->
  exists q e' l rem,
    SFsqrt_core_binary prec emax m e = (q, e', l) /\
    0 < q /\ 2 * e' <= e /\
    m * 2 ^ (e - 2 * e') = q * q + rem /\ 0 <= rem <= 2 * q /\
    (l = loc_Exact <-> rem = 0) /\
    e' <= fexp prec emax (Zdigits2 q + e').
Proof.
  intros Hm. unfold SFsqrt_core_binary.
  set (d := Zdigits2 m).
  rewrite !Z.div2_div.
  set (e' := Z.min (fexp prec emax ((d + e + 1) / 2)) (e / 2)).
  set (s := e - 2 * e').
  assert (Hs : 0 <= s) by (unfold s, e'; Z.div_mod_to_equations; lia).
  set (m' := match s with Zpos _ => Z.shiftl m s | Z0 => m | Zneg _ => 0 end).
  assert (Hm' : m' = m * 2 ^ s).
  { unfold m'. destruct s as [ | p | p ] eqn:E; [ | | lia ].
    - simpl. lia.
    - now rewrite Z.shiftl_mul_pow2 by lia. }
  assert (Hp : 0 < 2 ^ s) by (apply Z.pow_pos_nonneg; lia).
  pose proof (Z.sqrtrem_spec m' ltac:(nia)) as Hsq.
  destruct (Z.sqrtrem m') as [q rem]. destruct Hsq as [Hq Hr].
  exists q, e', (if rem =? 0 then loc_Exact else loc_Inexact (if rem <=? q then Lt else Gt)), rem.
  assert (Hq0 : 0 < q) by nia.
  split; [ reflexivity | ].
  split; [ exact Hq0 | ].
  split; [ unfold s in Hs; lia | ].
  split; [ fold s; lia | ].
  split; [ lia | ].
  split.
  { destruct (Z.eqb_spec rem 0); split; intros H; try reflexivity; try assumption;
      try discriminate H; contradiction. }
  destruct (Zdigits2_bounds m Hm) as [L U]. fold d in L, U.
  pose proof (Zdigits2_pos m Hm) as P. fold d in P.
  assert (Hfe : e' <= fexp prec emax ((d + e + 1) / 2)) by (unfold e'; lia).
  rewrite fexp_eq in Hfe |- *.
  set (k := (d + s - 1) / 2).
  assert (Hk : 0 <= k) by (unfold k; apply Z.div_pos; lia).
  assert (Hk2 : 2 * k <= d + s - 1) by (unfold k; Z.div_mod_to_equations; lia).
  assert (Hdq : k < Zdigits2 q).
  { apply Zdigits2_gt_of_le; [ exact Hk | ].
    assert (H2k : 2 ^ k * 2 ^ k <= 2 ^ (d - 1 + s)).
    { rewrite <- Z.pow_add_r by lia. apply Z.pow_le_mono_r; lia. }
    assert (2 ^ (d - 1 + s) <= m'). { rewrite Hm', Z.pow_add_r by lia. nia. }
    assert (0 < 2 ^ k) by (apply Z.pow_pos_nonneg; lia).
    nia. }
  assert ((d + e + 1) / 2 = k + 1 + e') by (unfold k, s; Z.div_mod_to_equations; lia).
  lia.
Qed.

Lemma sqrt_faithful m e :
  let r := SFsqrt prec emax (S754_finite false m e) in
  (r = S754_infinity false \/ fin_nonneg r = true) /\
  (forall a, fin_nonneg a = true -> (F2Q a * F2Q a <= dy (Zpos m) e)%Q ->
             r = S754_infinity false \/ (F2Q a <= F2Q r)%Q) /\
  (forall b, fin_nonneg b = true -> (dy (Zpos m) e <= F2Q b * F2Q b)%Q ->
             fin_nonneg r = true /\ (F2Q r <= F2Q b)%Q).
Proof.
  simpl SFsqrt.
  destruct (sqrt_core_spec (Zpos m) e) as
    (q & e' & l & rem & Hc & Hq & He & Heq & Hrem & Hl & Hsh); try lia.
  rewrite Hc. cbv zeta.
  assert (HX : (dy (Zpos m) e == dy (q * q + rem) (2 * e'))%Q).
  { rewrite <- Heq, dy_shift by lia. replace (2 * e' + (e - 2 * e')) with e by lia.
    reflexivity. }
  assert (Hsq : forall k, (dy k e' * dy k e' == dy (k * k) (2 * e'))%Q).
  { intros k. rewrite dy_mul. replace (e' + e') with (2 * e') by lia. reflexivity. }
  split; [ | split ].
  - apply round_shape; lia.
  - intros a Ha Hle.
    destruct (round_lower q e' l ltac:(lia) Hsh a Ha) as [ | [_ H] ];
      [ | now left | now right ].
    apply Qsquare_lt_inv.
    + now apply fin_nonneg_F2Q.
    + apply dy_nonneg. lia.
    + eapply Qle_lt_trans; [ exact Hle | ]. rewrite HX, Hsq. apply dy_lt. nia.
  - intros b Hb Hle. apply round_upper; try assumption; try lia.
    destruct (Z.eq_dec rem 0) as [E | E].
    + right. split; [ now apply Hl | ].
      apply Qsquare_le_inv.
      * apply dy_nonneg. lia.
      * now apply fin_nonneg_F2Q.
      * rewrite Hsq. rewrite HX in Hle. rewrite E, Z.add_0_r in Hle. exact Hle.
    + left. apply Qsquare_lt_inv.
      * apply dy_nonneg. lia.
      * now apply fin_nonneg_F2Q.
      * eapply Qlt_le_trans; [ | exact Hle ]. rewrite HX, Hsq. apply dy_lt. lia.
Qed.

Lemma inject_Z_ge1 b : 1 <= b -> (1 <= inject_Z b)%Q.
Proof. intros H. change 1%Q with (inject_Z 1). now rewrite <- Zle_Qle. Qed.

Lemma inject_Z_pos b : 0 < b -> (0 < inject_Z b)%Q.
Proof. intros H. change 0%Q with (inject_Z 0). now rewrite <- Zlt_Qlt. Qed.

Lemma inject_Z_nonneg b : 0 <= b -> (0 <= inject_Z b)%Q.
Proof. intros H. change 0%Q with (inject_Z 0). now rewrite <- Zle_Qle. Qed.

(** ** Integer true division *)

Lemma int_truediv_cases a b :
  0 < a -> 0 < b ->
  (exists q, int_truediv a b = Ok q /\ fin_nonneg q = true /\
             faithful (inject_Z a / inject_Z b) q) \/
  (exists msg, int_truediv a b = Raise (OverflowError msg) /\
     forall f, fin_nonneg f = true -> (F2Q f < inject_Z a / inject_Z b)%Q).
Proof.
  intros Ha Hb. unfold int_truediv.
  destruct (Z.eqb_spec b 0); [ lia | ]. destruct (Z.eqb_spec a 0); [ lia | ].
  destruct a as [ | pa | pa ]; try lia. destruct b as [ | pb | pb ]; try lia.
  simpl exact_int.
  pose proof (div_faithful pa 0 pb 0) as Hf.
  assert (E : (dy (Zpos pa) 0 / dy (Zpos pb) 0 == inject_Z (Zpos pa) / inject_Z (Zpos pb))%Q)
    by (now rewrite !dy_int).
  apply (faithful_ext _ _ _ E) in Hf.
  set (q := SFdiv prec emax (S754_finite false pa 0) (S754_finite false pb 0)) in *.
  destruct Hf as (Hs & Hlo & Hup).
  destruct Hs as [Hinf | Hfin].
  - right. rewrite Hinf. eexists. split; [ reflexivity | ].
    intros f Hf. apply Qnot_le_lt. intros Hle.
    destruct (Hup f Hf Hle) as [Hfin _]. rewrite Hinf in Hfin. discriminate Hfin.
  - left. exists q. split; [ | split; [ exact Hfin | ] ].
    + destruct q; try reflexivity; discriminate Hfin.
    + split; [ now right | split; assumption ].
Qed.

Lemma int_truediv_ok a b :
  0 < a < 2 ^ 53 -> 0 < b ->
  exists q, int_truediv a b = Ok q /\ fin_nonneg q = true /\
            faithful (inject_Z a / inject_Z b) q.
Proof.
  intros Ha Hb.
  destruct (int_truediv_cases a b) as [ H | (msg & _ & Hbig) ]; try lia; [ exact H | ].
  exfalso.
  destruct (representable_int a ltac:(lia)) as (f & Hf & Hv).
  specialize (Hbig f Hf). rewrite Hv in Hbig.
  assert (Hb' : (1 <= inject_Z b)%Q) by (apply inject_Z_ge1; lia).
  assert (Ha' : (0 < inject_Z a)%Q) by (apply inject_Z_pos; lia).
  assert ((inject_Z a / inject_Z b <= inject_Z a)%Q).
  { apply Qle_shift_div_r; [ lra | nra ]. }
  lra.
Qed.

(** ** The grid covers the images *)

Lemma math_sqrt_spec n :
  1 <= n < 2 ^ 53 ->
  exists r, math_sqrt n = Ok r /\ fin_nonneg r = true /\
            (1 <= F2Q r)%Q /\ (F2Q r <= inject_Z n)%Q.
Proof.
  intros Hn. unfold math_sqrt.
  destruct (float_of_int_exact n ltac:(lia)) as (f & Hf & Hfn & Hv).
  rewrite Hf. simpl bind.
  assert (Hn1 : (1 <= inject_Z n)%Q) by (apply inject_Z_ge1; lia).
  destruct f as [ s | s | | [ | ] m e ]; simpl in Hfn; try discriminate Hfn.
  { simpl in Hv. lra. }
  rewrite F2Q_finite in Hv.
  destruct (sqrt_faithful m e) as (_ & Hlo & Hup).
  set (r := SFsqrt prec emax (S754_finite false m e)) in *.
  destruct (Hup (S754_finite false m e) Hfn) as [Hfin Hle].
  { rewrite F2Q_finite, Hv. nra. }
  rewrite F2Q_finite, Hv in Hle.
  destruct (representable_int 1 ltac:(lia)) as (one & H1 & Hv1).
  destruct (Hlo one H1) as [Hinf | Hge].
  { rewrite Hv1, Hv. change (inject_Z 1) with 1%Q. lra. }
  { rewrite Hinf in Hfin. discriminate Hfin. }
  rewrite Hv1 in Hge. change (inject_Z 1) with 1%Q in Hge.
  exists r. split; [ | repeat split; assumption ].
  destruct r; try reflexivity; discriminate Hfin.
Qed.

Lemma calculate_grid_size_spec n :
  2 <= n < 2 ^ 52 ->
  exists rows cols, calculate_grid_size n = Ok (rows, cols) /\
                    1 <= rows <= n /\ 1 <= cols <= n /\ n <= rows * cols.
Proof.
  intros Hn. unfold calculate_grid_size.
  destruct (Z.leb_spec n 1); [ lia | ].
  destruct (math_sqrt_spec n ltac:(lia)) as (root & Hroot & Hrf & Hr1 & Hrn).
  rewrite Hroot. simpl bind.
  destruct (math_ceil_spec root Hrf) as (cols & Hc & Hc0 & Hclo & Hchi).
  rewrite Hc. simpl bind.
  assert (Hcols : 1 <= cols <= n).
  { split.
    - apply (proj2 (Z.le_succ_l 0 cols)). rewrite Zlt_Qlt.
      change (inject_Z 0) with 0%Q. lra.
    - destruct Hclo as [Hclo | ->]; [ | lia ].
      assert (cols - 1 < n); [ rewrite Zlt_Qlt; lra | lia ]. }
  destruct (int_truediv_ok n cols ltac:(lia) ltac:(lia)) as (quot & Hq & Hqf & Hfa).
  rewrite Hq. simpl bind.
  destruct (math_ceil_spec quot Hqf) as (rows & Hr & Hr0 & Hrlo & Hrhi).
  rewrite Hr. simpl bind.
  exists rows, cols. split; [ reflexivity | ].
  destruct Hfa as (_ & Hlo & Hup).
  assert (Hcq : (0 < inject_Z cols)%Q) by (apply inject_Z_pos; lia).
  assert (Hnq : (0 < inject_Z n)%Q) by (apply inject_Z_pos; lia).
  (* the quotient is at most n *)
  assert (Hqn : (F2Q quot <= inject_Z n)%Q).
  { destruct (representable_int n ltac:(lia)) as (fn & Hfn & Hvn).
    destruct (Hup fn Hfn) as [_ H']; [ | now rewrite <- Hvn ].
    rewrite Hvn. apply Qle_shift_div_r; [ exact Hcq | ].
    assert ((1 <= inject_Z cols)%Q) by (apply inject_Z_ge1; lia). nra. }
  (* no float, hence no integer, separates the quotient from its ceiling *)
  assert (Hcover : n <= rows * cols).
  { destruct (Z_le_gt_dec n (rows * cols)) as [ | Hgt ]; [ assumption | exfalso ].
    set (j := Zdigits2 cols).
    destruct (Zdigits2_bounds cols ltac:(lia)) as [Hjlo Hjhi]. fold j in Hjlo, Hjhi.
    pose proof (Zdigits2_pos cols ltac:(lia)) as Hjpos. fold j in Hjpos.
    assert (Hj52 : j <= 52) by (apply Zdigits2_le_of_lt; [ lia | ];
      apply Z.lt_le_trans with (2 ^ 52); lia).
    assert (H2j : 2 ^ j = 2 * 2 ^ (j - 1)).
    { replace j with (Z.succ (j - 1)) at 1 by lia. apply Z.pow_succ_r. lia. }
    set (M := rows * 2 ^ j + 1).
    assert (HM : 0 < M < 2 ^ 53) by (unfold M; nia).
    destruct (representable M (- j)) as (fa & Hfa & Hva); try lia.
    { assert (Zdigits2 M <= 53) by (apply Zdigits2_le_of_lt; lia). lia. }
    destruct (Hlo fa Hfa) as [Hinf | Hge].
    { rewrite Hva. apply Qle_shift_div_l; [ exact Hcq | ].
      rewrite <- (dy_int cols), <- (dy_int n), dy_mul.
      apply dy_le_hi; [ lia | ]. replace (0 - (- j + 0)) with j by lia.
      unfold M. nia. }
    { rewrite Hinf in Hqf. discriminate Hqf. }
    rewrite Hva in Hge.
    assert (Hlt : (inject_Z rows < dy M (- j))%Q).
    { rewrite <- (dy_int rows). apply dy_lt_lo; [ lia | ].
      replace (0 - - j) with j by lia. unfold M. lia. }
    lra. }
  assert (Hrows : rows <= n).
  { destruct Hrlo as [Hrlo | ->]; [ | lia ].
    assert (rows - 1 < n); [ rewrite Zlt_Qlt; lra | lia ]. }
  split; [ nia | split; [ lia | exact Hcover ] ].
Qed.

Lemma calculate_grid_size_total n :
  0 <= n < 2 ^ 52 ->
  exists rows cols, calculate_grid_size n = Ok (rows, cols) /\
                    1 <= rows /\ 1 <= cols /\ n <= rows * cols /\
                    rows < 2 ^ 52 /\ cols < 2 ^ 52.
Proof.
  intros Hn. destruct (Z_le_gt_dec n 1) as [Hle | Hgt].
  - exists 1, 1. unfold calculate_grid_size.
    destruct (Z.leb_spec n 1); [ | lia ]. repeat split; lia.
  - destruct (calculate_grid_size_spec n ltac:(lia)) as (rows & cols & H & Hr & Hc & Hcov).
    exists rows, cols. repeat split; try assumption; lia.
Qed.

(** ** Truncating a faithfully rounded number *)

Lemma trunc_faithful x r :
  faithful x r -> (0 <= x)%Q -> fin_nonneg r = true ->
  exists t, int_of_float r = Ok t /\ 0 <= t /\
    (forall k, 0 <= k < 2 ^ 53 -> (x <= inject_Z k)%Q -> t <= k) /\
    (forall k, 0 <= k < 2 ^ 53 -> (inject_Z k <= x)%Q -> k <= t) /\
    ((x < inject_Z (2 ^ 53 - 1))%Q -> (Qabs (inject_Z t - x) < 1)%Q).
Proof.
  intros (Hs & Hlo & Hup) Hx Hfin.
  destruct (int_of_float_spec r Hfin) as (t & Ht & Ht0 & Htlo & Hthi).
  exists t. split; [ exact Ht | split; [ exact Ht0 | ] ].
  assert (Hupper : forall k, 0 <= k < 2 ^ 53 -> (x <= inject_Z k)%Q -> t <= k).
  { intros k Hk Hle.
    destruct (representable_int k Hk) as (fk & Hfk & Hvk).
    destruct (Hup fk Hfk) as [_ H]; [ now rewrite Hvk | ].
    rewrite Hvk in H. rewrite Zle_Qle. lra. }
  assert (Hlower : forall k, 0 <= k < 2 ^ 53 -> (inject_Z k <= x)%Q -> k <= t).
  { intros k Hk Hle.
    destruct (representable_int k Hk) as (fk & Hfk & Hvk).
    destruct (Hlo fk Hfk) as [Hinf | H]; [ now rewrite Hvk | | ].
    { rewrite Hinf in Hfin. discriminate Hfin. }
    rewrite Hvk in H.
    assert (k < t + 1); [ rewrite Zlt_Qlt; lra | lia ]. }
  split; [ exact Hupper | split; [ exact Hlower | ] ].
  intros Hbig.
  set (k := Qfloor x).
  pose proof (Qfloor_le x) as Hk1. pose proof (Qlt_floor x) as Hk2. fold k in Hk1, Hk2.
  assert (Hk0 : 0 <= k).
  { assert (-1 < k); [ | lia ]. rewrite Zlt_Qlt.
    replace (k + 1) with (k - -1) in Hk2 by lia.
    unfold Z.sub in Hk2. rewrite inject_Z_plus, inject_Z_opp in Hk2. lra. }
  assert (Hkb : k + 1 < 2 ^ 53).
  { assert (k < 2 ^ 53 - 1); [ rewrite Zlt_Qlt; lra | lia ]. }
  rewrite inject_Z_plus in Hk2. change (inject_Z 1) with 1%Q in Hk2.
  assert (H1 : k <= t) by (apply Hlower; [ lia | exact Hk1 ]).
  assert (H2 : t <= k + 1).
  { apply Hupper; [ lia | ]. rewrite inject_Z_plus. change (inject_Z 1) with 1%Q. lra. }
  apply Qabs_Qlt_condition.
  destruct (Z.eq_dec t k) as [E | E].
  - rewrite E. split; lra.
  - assert (Et : t = k + 1) by lia.
    assert (Hne : ~ (x <= inject_Z k)%Q).
    { intros Hle. specialize (Hupper k ltac:(lia) Hle). lia. }
    rewrite Et, inject_Z_plus. change (inject_Z 1) with 1%Q. split; lra.
Qed.

(** ** The ratio test of the two resizers *)

(** What the comparison of the rounded current ratio with the target says
    about the exact current ratio. *)
Lemma ratio_test w h tr :
  0 < w < 2 ^ 53 -> 0 < h ->
  fin_nonneg tr = true ->
  exists cr, int_truediv w h = Ok cr /\ fin_nonneg cr = true /\
    close (inject_Z w / inject_Z h) cr /\
    (float_gt cr tr = true -> (F2Q tr * inject_Z h <= inject_Z w)%Q) /\
    (float_lt cr tr = true -> (inject_Z w <= F2Q tr * inject_Z h)%Q) /\
    (float_gt cr tr = false -> float_lt cr tr = false -> (F2Q cr == F2Q tr)%Q).
Proof.
  intros Hw Hh Htr.
  destruct (int_truediv_ok w h Hw Hh) as (cr & Hcr & Hcf & Hfa).
  exists cr. split; [ exact Hcr | split; [ exact Hcf | ] ].
  assert (Hhq : (0 < inject_Z h)%Q) by (apply inject_Z_pos; lia).
  destruct Hfa as (_ & Hlo & Hup).
  split; [ | split; [ | split ] ].
  - (* closeness, from the division itself *)
    revert Hcr. unfold int_truediv.
    destruct (Z.eqb_spec h 0); [ lia | ]. destruct (Z.eqb_spec w 0); [ lia | ].
    destruct w as [ | pw | pw ]; try lia. destruct h as [ | ph | ph ]; try lia.
    simpl exact_int. pose proof (div_close pw 0 ph 0) as Hc.
    assert (E : (dy (Zpos pw) 0 / dy (Zpos ph) 0
                 == inject_Z (Zpos pw) / inject_Z (Zpos ph))%Q)
      by (now rewrite !dy_int).
    apply (close_ext _ _ _ E) in Hc.
    destruct (SFdiv prec emax (S754_finite false pw 0) (S754_finite false ph 0));
      intros E'; inversion E'; subst; exact Hc.
  - unfold float_gt. intros Hgt.
    pose proof (fin_nonneg_lt tr cr Htr Hcf Hgt) as Hlt.
    apply Qnot_lt_le. intros Hc.
    destruct (Hup tr Htr) as [_ H]; [ | lra ].
    apply Qle_shift_div_r; [ exact Hhq | lra ].
  - unfold float_lt. intros Hlt'.
    pose proof (fin_nonneg_lt cr tr Hcf Htr Hlt') as Hlt.
    apply Qnot_lt_le. intros Hc.
    destruct (Hlo tr Htr) as [Hinf | H]; [ | | lra ].
    + apply Qle_shift_div_l; [ exact Hhq | lra ].
    + rewrite Hinf in Hcf. discriminate Hcf.
  - unfold float_gt, float_lt. intros H1 H2.
    pose proof (fin_nonneg_not_lt tr cr Htr Hcf H1).
    pose proof (fin_nonneg_not_lt cr tr Hcf Htr H2).
    apply Qle_antisym; assumption.
Qed.

(** [height * target_ratio], rounded. *)
Lemma int_mul_float_spec h tr :
  0 <= h < 2 ^ 53 -> fin_nonneg tr = true ->
  exists s, int_mul_float h tr = Ok s /\
            faithful (inject_Z h * F2Q tr) s /\ close (inject_Z h * F2Q tr) s.
Proof.
  intros Hh Htr. unfold int_mul_float.
  destruct (float_of_int_exact h Hh) as (hf & Hhf & Hfin & Hv).
  rewrite Hhf. simpl bind. eexists. split; [ reflexivity | ].
  split.
  - apply (faithful_ext (F2Q hf * F2Q tr)); [ now rewrite Hv | now apply mul_faithful ].
  - apply (close_ext (F2Q hf * F2Q tr)); [ now rewrite Hv | now apply mul_close ].
Qed.

Lemma float_mul_int_spec tr h :
  0 <= h < 2 ^ 53 -> fin_nonneg tr = true ->
  exists s, float_mul_int tr h = Ok s /\
            faithful (F2Q tr * inject_Z h) s /\ close (F2Q tr * inject_Z h) s.
Proof.
  intros Hh Htr. unfold float_mul_int.
  destruct (float_of_int_exact h Hh) as (hf & Hhf & Hfin & Hv).
  rewrite Hhf. simpl bind. eexists. split; [ reflexivity | ].
  split.
  - apply (faithful_ext (F2Q tr * F2Q hf)); [ now rewrite Hv | now apply mul_faithful ].
  - apply (close_ext (F2Q tr * F2Q hf)); [ now rewrite Hv | now apply mul_close ].
Qed.

(** [width / target_ratio], rounded. *)
Lemma int_div_float_spec w tr :
  0 < w < 2 ^ 53 -> fin_nonneg tr = true -> pos_finite tr = true ->
  exists s, int_div_float w tr = Ok s /\
            faithful (inject_Z w / F2Q tr) s /\ close (inject_Z w / F2Q tr) s.
Proof.
  intros Hw Htr Hpos. unfold int_div_float.
  destruct (float_of_int_exact w ltac:(lia)) as (wf & Hwf & Hfin & Hv).
  rewrite Hwf. simpl bind.
  destruct tr as [ | | | [ | ] mt et ]; try discriminate Hpos.
  unfold float_truediv. simpl float_is_zero.
  destruct wf as [ s | s | | [ | ] mw ew ]; simpl in Hfin; try discriminate Hfin.
  { exfalso. simpl in Hv. pose proof (inject_Z_pos w ltac:(lia)). lra. }
  eexists. split; [ reflexivity | ]. rewrite F2Q_finite in Hv |- *.
  split.
  - apply (faithful_ext (dy (Zpos mw) ew / dy (Zpos mt) et)); [ now rewrite Hv | ].
    apply div_faithful.
  - apply (close_ext (dy (Zpos mw) ew / dy (Zpos mt) et)); [ now rewrite Hv | ].
    apply div_close.
Qed.

(** A float divided by a positive integer. *)
Lemma float_div_int_spec f c :
  0 < c < 2 ^ 53 -> fin_nonneg f = true ->
  exists s, float_div_int f c = Ok s /\
            faithful (F2Q f / inject_Z c) s /\ close (F2Q f / inject_Z c) s.
Proof.
  intros Hc Hf. unfold float_div_int.
  destruct (float_of_int_exact c ltac:(lia)) as (cf & Hcf & Hfin & Hv).
  rewrite Hcf. simpl bind.
  pose proof (inject_Z_pos c ltac:(lia)) as Hcq.
  destruct cf as [ s | s | | [ | ] mc ec ]; simpl in Hfin; try discriminate Hfin.
  { exfalso. simpl in Hv. lra. }
  unfold float_truediv. simpl float_is_zero. rewrite F2Q_finite in Hv.
  destruct f as [ s | s | | [ | ] mf ef ]; simpl in Hf; try discriminate Hf.
  - eexists. split; [ reflexivity | ]. simpl SFdiv. simpl F2Q.
    split.
    + apply (faithful_ext 0); [ | apply faithful_zero ].
      field. intro E. rewrite E in Hcq. discriminate Hcq.
    + apply (close_ext 0); [ | apply close_zero ].
      field. intro E. rewrite E in Hcq. discriminate Hcq.
  - eexists. split; [ reflexivity | ]. rewrite F2Q_finite.
    split.
    + apply (faithful_ext (dy (Zpos mf) ef / dy (Zpos mc) ec)); [ now rewrite Hv | ].
      apply div_faithful.
    + apply (close_ext (dy (Zpos mf) ef / dy (Zpos mc) ec)); [ now rewrite Hv | ].
      apply div_close.
Qed.

(** ** Target ratios *)

Lemma pos_finite_fin_nonneg tr :
  valid tr = true -> pos_finite tr = true -> fin_nonneg tr = true /\ (0 < F2Q tr)%Q.
Proof.
  destruct tr as [ | | | [ | ] m e ]; try discriminate. intros Hv _.
  split; [ exact Hv | ]. rewrite F2Q_finite. apply dy_pos. lia.
Qed.

Lemma INT_MAX_lt : INT_MAX < 2 ^ 53 - 1.
Proof. reflexivity. Qed.

(** When the rounded current ratio equals the target, the exact one is
    within a rounding error of it, which is less than a pixel. *)
Lemma equal_ratio_within_one_pixel w h cr t :
  0 < w <= INT_MAX -> 0 < h <= INT_MAX ->
  fin_nonneg cr = true ->
  close (inject_Z w / inject_Z h) cr ->
  (F2Q cr == t)%Q ->
  (Qabs (inject_Z w - inject_Z h * t) < 1)%Q.
Proof.
  intros Hw Hh Hfin Hclose Heq.
  pose proof INT_MAX_lt as Hmax.
  assert (Hhq : (0 < inject_Z h)%Q) by (apply inject_Z_pos; lia).
  assert (Hwq : (1 <= inject_Z w)%Q) by (apply inject_Z_ge1; lia).
  assert (Hwb : (inject_Z w <= inject_Z INT_MAX)%Q) by (rewrite <- Zle_Qle; lia).
  assert (Hhb : (inject_Z h <= inject_Z INT_MAX)%Q) by (rewrite <- Zle_Qle; lia).
  set (x := (inject_Z w / inject_Z h)%Q) in *.
  assert (Hx : (x * inject_Z h == inject_Z w)%Q).
  { unfold x. field. intro E. rewrite E in Hhq. discriminate Hhq. }
  assert (Hu : (u52 * inject_Z INT_MAX < 1)%Q) by reflexivity.
  pose proof u52_pos as Hu0.
  apply Qabs_Qlt_condition. rewrite <- Heq.
  destruct (Hclose Hfin) as [[Hlo Hhi] | (Hlo & _ & Htiny)].
  - assert (H1 : (x * (1 - u52) * inject_Z h <= F2Q cr * inject_Z h)%Q)
      by (apply Qmult_le_compat_r; lra).
    assert (H2 : (F2Q cr * inject_Z h <= x * (1 + u52) * inject_Z h)%Q)
      by (apply Qmult_le_compat_r; lra).
    assert (Hd : (u52 * inject_Z w < 1)%Q) by nra.
    split; nra.
  - exfalso.
    assert (Hbig : (eta + tiny < 1 / inject_Z INT_MAX)%Q) by reflexivity.
    assert (Hxl : (1 / inject_Z INT_MAX <= x)%Q).
    { apply Qle_shift_div_r; [ reflexivity | ].
      assert ((x * inject_Z h <= x * inject_Z INT_MAX)%Q).
      { apply Qmult_le_l; [ | exact Hhb ]. unfold x. apply Qlt_shift_div_l; lra. }
      lra. }
    lra.
Qed.

(** ** [resize_with_crop] *)

Lemma bind_ok {A B : Type} (a : A) (k : A -> result B) : bind (Ok a) k = k a.
Proof. reflexivity. Qed.

Lemma resize_with_crop_eq img tr :
  resize_with_crop img tr =
  (current_ratio <- int_truediv (width img) (height img) ;;
   if float_gt current_ratio tr then
     scaled <- int_mul_float (height img) tr ;;
     new_width <- int_of_float scaled ;;
     crop img ((width img - new_width) / 2, 0,
               (width img - new_width) / 2 + new_width, height img)
   else if float_lt current_ratio tr then
     scaled <- int_div_float (width img) tr ;;
     new_height <- int_of_float scaled ;;
     crop img (0, (height img - new_height) / 2, width img,
               (height img - new_height) / 2 + new_height)
   else Ok img).
Proof. reflexivity. Qed.

Lemma crop_ok im x0 y0 x1 y1 :
  x0 <= x1 -> y0 <= y1 ->
  crop im (x0, y0, x1, y1) =
  Ok (mkImage (x1 - x0) (y1 - y0)
        (fun x y => if inside im (x + x0) (y + y0)
                    then getpixel im (x + x0) (y + y0) else black)).
Proof.
  intros Hx Hy. unfold crop.
  destruct (Z.ltb_spec x1 x0); [ lia | ]. destruct (Z.ltb_spec y1 y0); [ lia | ].
  reflexivity.
Qed.

Lemma inside_true im x y :
  0 <= x < width im -> 0 <= y < height im -> inside im x y = true.
Proof.
  intros Hx Hy. unfold inside.
  destruct (Z.leb_spec 0 x); [ | lia ]. destruct (Z.ltb_spec x (width im)); [ | lia ].
  destruct (Z.leb_spec 0 y); [ | lia ]. destruct (Z.ltb_spec y (height im)); [ | lia ].
  reflexivity.
Qed.

Lemma resize_with_crop_spec img tr :
  0 < width img <= INT_MAX -> 0 < height img <= INT_MAX ->
  valid tr = true -> pos_finite tr = true ->
  exists out cr,
    resize_with_crop img tr = Ok out /\
    int_truediv (width img) (height img) = Ok cr /\
    centered_slice img out /\
    (if float_gt cr tr then
       (s <- int_mul_float (height img) tr ;; int_of_float s) = Ok (width out) /\
       height out = height img
     else if float_lt cr tr then
       (s <- int_div_float (width img) tr ;; int_of_float s) = Ok (height out) /\
       width out = width img
     else out = img) /\
    within_one_pixel (width out) (height out) (F2Q tr).
Proof.
  intros Hw Hh Hv Hp.
  destruct (pos_finite_fin_nonneg tr Hv Hp) as [Htr Ht0].
  pose proof INT_MAX_lt as Hmax.
  rewrite resize_with_crop_eq.
  set (w := width img) in *. set (h := height img) in *.
  destruct (ratio_test w h tr ltac:(lia) ltac:(lia) Htr)
    as (cr & Hcr & Hcf & Hclose & Hgt & Hlt & Heq).
  assert (Hhq : (0 < inject_Z h)%Q) by (apply inject_Z_pos; lia).
  assert (Hwq : (0 < inject_Z w)%Q) by (apply inject_Z_pos; lia).
  rewrite Hcr, bind_ok.
  destruct (float_gt cr tr) eqn:Egt.
  - (* too wide: the width is cut *)
    specialize (Hgt eq_refl).
    destruct (int_mul_float_spec h tr ltac:(lia) Htr) as (s & Hs & Hfa & _).
    assert (Hx0 : (0 <= inject_Z h * F2Q tr)%Q) by nra.
    assert (Hfs : fin_nonneg s = true).
    { destruct (representable_int w ltac:(lia)) as (fw & Hfw & Hvw).
      destruct Hfa as (_ & _ & Hup). apply (Hup fw Hfw). rewrite Hvw. lra. }
    destruct (trunc_faithful _ s Hfa Hx0 Hfs) as (nw & Hnw & Hnw0 & Hup & _ & Habs).
    assert (Hnww : nw <= w) by (apply Hup; [ lia | lra ]).
    assert (Hl0 : 0 <= (w - nw) / 2) by (apply Z.div_pos; lia).
    assert (Hl1 : (w - nw) / 2 + nw <= w) by (Z.div_mod_to_equations; lia).
    rewrite Hs, bind_ok, Hnw, bind_ok, crop_ok by lia.
    eexists. exists cr. split; [ reflexivity | split; [ reflexivity | ] ].
    rewrite Egt. simpl width. simpl height.
    replace ((w - nw) / 2 + nw - (w - nw) / 2) with nw by lia.
    replace (h - 0) with h by lia.
    split; [ | split ].
    + unfold centered_slice. simpl width. simpl height. simpl getpixel.
      fold w h. replace ((w - nw) / 2 + nw - (w - nw) / 2) with nw by lia.
      replace (h - 0) with h by lia. rewrite Z.sub_diag. change (0 / 2) with 0.
      split; [ lia | split; [ lia | split; [ now right | ] ] ].
      intros x y Hx Hy. rewrite inside_true; fold w h; try lia. reflexivity.
    + split; [ exact Hnw | reflexivity ].
    + left. apply Habs. apply Qle_lt_trans with (inject_Z w); [ lra | ].
      rewrite <- Zlt_Qlt. lia.
  - destruct (float_lt cr tr) eqn:Elt.
    + (* too tall: the height is cut *)
      specialize (Hlt eq_refl).
      destruct (int_div_float_spec w tr ltac:(lia) Htr Hp) as (s & Hs & Hfa & _).
      assert (Hxh : (inject_Z w / F2Q tr <= inject_Z h)%Q).
      { apply Qle_shift_div_r; [ exact Ht0 | lra ]. }
      assert (Hx0 : (0 <= inject_Z w / F2Q tr)%Q).
      { apply Qle_shift_div_l; [ exact Ht0 | lra ]. }
      assert (Hfs : fin_nonneg s = true).
      { destruct (representable_int h ltac:(lia)) as (fh & Hfh & Hvh).
        destruct Hfa as (_ & _ & Hup). apply (Hup fh Hfh). rewrite Hvh. exact Hxh. }
      destruct (trunc_faithful _ s Hfa Hx0 Hfs) as (nh & Hnh & Hnh0 & Hup & _ & Habs).
      assert (Hnhh : nh <= h) by (apply Hup; [ lia | exact Hxh ]).
      assert (Hl0 : 0 <= (h - nh) / 2) by (apply Z.div_pos; lia).
      assert (Hl1 : (h - nh) / 2 + nh <= h) by (Z.div_mod_to_equations; lia).
      rewrite Hs, bind_ok, Hnh, bind_ok, crop_ok by lia.
      eexists. exists cr. split; [ reflexivity | split; [ reflexivity | ] ].
      rewrite Egt, Elt. simpl width. simpl height.
      replace ((h - nh) / 2 + nh - (h - nh) / 2) with nh by lia.
      replace (w - 0) with w by lia.
      split; [ | split ].
      * unfold centered_slice. simpl width. simpl height. simpl getpixel.
        fold w h. replace ((h - nh) / 2 + nh - (h - nh) / 2) with nh by lia.
        replace (w - 0) with w by lia. rewrite Z.sub_diag. change (0 / 2) with 0.
        split; [ lia | split; [ lia | split; [ now left | ] ] ].
        intros x y Hx Hy. rewrite inside_true; fold w h; try lia. reflexivity.
      * split; [ exact Hnh | reflexivity ].
      * right. apply Habs. apply Qle_lt_trans with (inject_Z h); [ exact Hxh | ].
        rewrite <- Zlt_Qlt. lia.
    + (* the ratios compare equal: nothing is cut *)
      exists img, cr. split; [ reflexivity | split; [ reflexivity | ] ].
      rewrite Egt, Elt.
      split; [ | split; [ reflexivity | ] ].
      * unfold centered_slice. fold w h. rewrite !Z.sub_diag. change (0 / 2) with 0.
        split; [ lia | split; [ lia | split; [ now left | ] ] ].
        intros x y _ _. now rewrite !Z.add_0_r.
      * left. fold w h.
        apply (equal_ratio_within_one_pixel w h cr); try assumption.
        apply Heq; reflexivity.
Qed.

(** ** [resize_with_padding] *)

Lemma resize_with_padding_eq {M : Memory} img tr :
  resize_with_padding img tr =
  (current_ratio <- int_truediv (width img) (height img) ;;
   if float_gt current_ratio tr then
     scaled <- int_div_float (width img) tr ;;
     new_height <- int_of_float scaled ;;
     new_image <- new (width img, new_height) black ;;
     Ok (paste new_image img (0, (new_height - height img) / 2))
   else if float_lt current_ratio tr then
     scaled <- int_mul_float (height img) tr ;;
     new_width <- int_of_float scaled ;;
     new_image <- new (new_width, height img) black ;;
     Ok (paste new_image img ((new_width - width img) / 2, 0))
   else Ok img).
Proof. reflexivity. Qed.

Lemma new_inv {M : Memory} w h c im :
  new (w, h) c = Ok im ->
  0 <= w <= INT_MAX /\ 0 <= h <= INT_MAX /\ im = mkImage w h (fun _ _ => c).
Proof.
  unfold new.
  destruct (Z.ltb_spec w 0); destruct (Z.ltb_spec h 0); simpl; try discriminate.
  destruct (Z.ltb_spec INT_MAX w); destruct (Z.ltb_spec INT_MAX h); simpl;
    try discriminate.
  destruct ((w =? 0) || grants w h); [ | discriminate ].
  intros E. inversion E. repeat split; lia.
Qed.

Lemma int_of_float_ok_fin s n :
  int_of_float s = Ok n ->
  (s = S754_infinity false \/ fin_nonneg s = true) -> fin_nonneg s = true.
Proof.
  intros H [-> | Hf]; [ discriminate H | exact Hf ].
Qed.

Lemma resize_with_padding_spec {M : Memory} img tr out :
  0 < width img <= INT_MAX -> 0 < height img <= INT_MAX ->
  valid tr = true -> pos_finite tr = true ->
  resize_with_padding img tr = Ok out ->
  exists cr,
    int_truediv (width img) (height img) = Ok cr /\
    centered_on_black img out /\
    (if float_gt cr tr then
       (s <- int_div_float (width img) tr ;; int_of_float s) = Ok (height out) /\
       width out = width img
     else if float_lt cr tr then
       (s <- int_mul_float (height img) tr ;; int_of_float s) = Ok (width out) /\
       height out = height img
     else out = img) /\
    within_one_pixel (width out) (height out) (F2Q tr).
Proof.
  intros Hw Hh Hv Hp.
  destruct (pos_finite_fin_nonneg tr Hv Hp) as [Htr Ht0].
  pose proof INT_MAX_lt as Hmax.
  rewrite resize_with_padding_eq.
  set (w := width img) in *. set (h := height img) in *.
  destruct (ratio_test w h tr ltac:(lia) ltac:(lia) Htr)
    as (cr & Hcr & Hcf & Hclose & Hgt & Hlt & Heq).
  assert (Hhq : (0 < inject_Z h)%Q) by (apply inject_Z_pos; lia).
  assert (Hwq : (0 < inject_Z w)%Q) by (apply inject_Z_pos; lia).
  rewrite Hcr, bind_ok.
  destruct (float_gt cr tr) eqn:Egt.
  - (* too wide: rows of black above and below *)
    intros Hrun. exists cr. split; [ reflexivity | ]. rewrite Egt.
    specialize (Hgt eq_refl).
    destruct (int_div_float_spec w tr ltac:(lia) Htr Hp) as (s & Hs & Hfa & _).
    rewrite Hs in Hrun. rewrite bind_ok in Hrun. rewrite Hs, bind_ok.
    destruct (int_of_float s) as [nh | e] eqn:Hnh; [ | discriminate Hrun ].
    rewrite bind_ok in Hrun.
    destruct (new (w, nh) black) as [canvas | e] eqn:Hnew; [ | discriminate Hrun ].
    rewrite bind_ok in Hrun. inversion Hrun as [Hout]. clear Hrun.
    destruct (new_inv _ _ _ _ Hnew) as (_ & Hnhb & ->).
    assert (Hx0 : (0 <= inject_Z w / F2Q tr)%Q).
    { apply Qle_shift_div_l; [ exact Ht0 | lra ]. }
    assert (Hfs : fin_nonneg s = true).
    { apply (int_of_float_ok_fin s nh Hnh). apply Hfa. }
    destruct (trunc_faithful _ s Hfa Hx0 Hfs) as (nh' & Hnh' & _ & _ & Hlow & Habs).
    rewrite Hnh in Hnh'. inversion Hnh'. subst nh'. clear Hnh'.
    assert (Hhn : h <= nh).
    { apply Hlow; [ lia | ]. apply Qle_shift_div_l; [ exact Ht0 | lra ]. }
    simpl width. simpl height.
    split; [ | split; [ split; reflexivity | ] ].
    + unfold centered_on_black. simpl width. simpl height. fold w h.
      rewrite Z.sub_diag. change (0 / 2) with 0.
      split; [ lia | split; [ lia | split; [ now left | split ] ] ].
      * intros x y Hx Hy. simpl getpixel.
        replace (x + 0 - 0) with x by lia.
        replace (y + (nh - h) / 2 - (nh - h) / 2) with y by lia.
        rewrite inside_true; fold w h; try lia. reflexivity.
      * intros x y _ Hout'. simpl getpixel. simpl in Hout'. rewrite Hout'. reflexivity.
    + right. apply Habs.
      destruct (Qlt_le_dec (inject_Z w / F2Q tr) (inject_Z (2 ^ 53 - 1))) as [ | Hbig ];
        [ assumption | exfalso ].
      specialize (Hlow (2 ^ 53 - 1) ltac:(lia) Hbig). lia.
  - destruct (float_lt cr tr) eqn:Elt.
    + (* too tall: columns of black left and right *)
      intros Hrun. exists cr. split; [ reflexivity | ]. rewrite Egt, Elt.
      specialize (Hlt eq_refl).
      destruct (int_mul_float_spec h tr ltac:(lia) Htr) as (s & Hs & Hfa & _).
      rewrite Hs in Hrun. rewrite bind_ok in Hrun. rewrite Hs, bind_ok.
      destruct (int_of_float s) as [nw | e] eqn:Hnw; [ | discriminate Hrun ].
      rewrite bind_ok in Hrun.
      destruct (new (nw, h) black) as [canvas | e] eqn:Hnew; [ | discriminate Hrun ].
      rewrite bind_ok in Hrun. inversion Hrun as [Hout]. clear Hrun.
      destruct (new_inv _ _ _ _ Hnew) as (Hnwb & _ & ->).
      assert (Hx0 : (0 <= inject_Z h * F2Q tr)%Q) by nra.
      assert (Hfs : fin_nonneg s = true).
      { apply (int_of_float_ok_fin s nw Hnw). apply Hfa. }
      destruct (trunc_faithful _ s Hfa Hx0 Hfs) as (nw' & Hnw' & _ & _ & Hlow & Habs).
      rewrite Hnw in Hnw'. inversion Hnw'. subst nw'. clear Hnw'.
      assert (Hwn : w <= nw) by (apply Hlow; [ lia | lra ]).
      simpl width. simpl height.
      split; [ | split; [ split; reflexivity | ] ].
      * unfold centered_on_black. simpl width. simpl height. fold w h.
        rewrite Z.sub_diag. change (0 / 2) with 0.
        split; [ lia | split; [ lia | split; [ now right | split ] ] ].
        -- intros x y Hx Hy. simpl getpixel.
           replace (y + 0 - 0) with y by lia.
           replace (x + (nw - w) / 2 - (nw - w) / 2) with x by lia.
           rewrite inside_true; fold w h; try lia. reflexivity.
        -- intros x y _ Hout'. simpl getpixel. simpl in Hout'. rewrite Hout'. reflexivity.
      * left. apply Habs.
        destruct (Qlt_le_dec (inject_Z h * F2Q tr) (inject_Z (2 ^ 53 - 1))) as [ | Hbig ];
          [ assumption | exfalso ].
        specialize (Hlow (2 ^ 53 - 1) ltac:(lia) Hbig). lia.
    + (* the ratios compare equal: nothing is added *)
      intros Hrun. exists cr. split; [ reflexivity | ]. rewrite Egt, Elt.
      inversion Hrun. subst out.
      split; [ | split; [ reflexivity | ] ].
      * unfold centered_on_black. fold w h. rewrite !Z.sub_diag. change (0 / 2) with 0.
        split; [ lia | split; [ lia | split; [ now left | split ] ] ].
        -- intros x y _ _. now rewrite !Z.add_0_r.
        -- intros x y Hin Hout'. rewrite !Z.sub_0_r in Hout'. congruence.
      * left. fold w h.
        apply (equal_ratio_within_one_pixel w h cr); try assumption.
        apply Heq; reflexivity.
Qed.

(** ** Padding raises nothing but [MemoryError] when the padded image fits *)

(** A raster whose sizes fit a C integer is allocated, unless the
    allocator refuses it. *)
Lemma new_cases {M : Memory} w h c :
  0 <= w <= INT_MAX -> 0 <= h <= INT_MAX ->
  new (w, h) c =
  if (w =? 0) || grants w h then Ok (mkImage w h (fun _ _ => c)) else Raise MemoryError.
Proof.
  intros Hw Hh. unfold new.
  destruct (Z.ltb_spec w 0); [ lia | ]. destruct (Z.ltb_spec h 0); [ lia | ].
  destruct (Z.ltb_spec INT_MAX w); [ lia | ].
  destruct (Z.ltb_spec INT_MAX h); [ lia | ]. reflexivity.
Qed.

Lemma new_ok {M : Memory} w h c :
  0 <= w <= INT_MAX -> 0 <= h <= INT_MAX ->
  (w =? 0) || grants w h = true ->
  new (w, h) c = Ok (mkImage w h (fun _ _ => c)).
Proof.
  intros Hw Hh Hg. rewrite new_cases by assumption. now rewrite Hg.
Qed.

(** The truncation of a faithful rounding of [x] exists and is at most [k]
    when [x] is at most the integer [k]. *)
Lemma trunc_below x s k :
  faithful x s -> (0 <= x)%Q -> 0 <= k < 2 ^ 53 -> (x <= inject_Z k)%Q ->
  exists t, int_of_float s = Ok t /\ 0 <= t <= k.
Proof.
  intros Hfa Hx Hk Hle.
  destruct (representable_int k Hk) as (b & Hb & Hvb).
  destruct Hfa as (Hshape & Hlo & Hup).
  destruct (Hup b Hb) as [Hfs _]; [ now rewrite Hvb | ].
  destruct (trunc_faithful x s (conj Hshape (conj Hlo Hup)) Hx Hfs)
    as (t & Ht & Ht0 & Hsmall & _).
  exists t. split; [ exact Ht | ]. split; [ exact Ht0 | ]. now apply Hsmall.
Qed.

Lemma resize_with_padding_returns {M : Memory} img tr :
  0 < width img <= INT_MAX -> 0 < height img <= INT_MAX ->
  valid tr = true -> pos_finite tr = true ->
  (inject_Z (width img) / F2Q tr <= inject_Z INT_MAX)%Q ->
  (inject_Z (height img) * F2Q tr <= inject_Z INT_MAX)%Q ->
  (exists out, resize_with_padding img tr = Ok out) \/
  resize_with_padding img tr = Raise MemoryError.
Proof.
  intros Hw Hh Hv Hp Hfit1 Hfit2.
  destruct (pos_finite_fin_nonneg tr Hv Hp) as [Htr Ht0].
  pose proof INT_MAX_lt as Hmax.
  assert (Hmax0 : 0 <= INT_MAX) by (unfold INT_MAX; lia).
  rewrite resize_with_padding_eq.
  set (w := width img) in *. set (h := height img) in *.
  destruct (ratio_test w h tr ltac:(lia) ltac:(lia) Htr) as (cr & Hcr & _).
  assert (Hhq : (0 < inject_Z h)%Q) by (apply inject_Z_pos; lia).
  assert (Hwq : (0 < inject_Z w)%Q) by (apply inject_Z_pos; lia).
  rewrite Hcr, bind_ok.
  destruct (float_gt cr tr).
  - destruct (int_div_float_spec w tr ltac:(lia) Htr Hp) as (s & Hs & Hfa & _).
    rewrite Hs, bind_ok.
    assert (Hx0 : (0 <= inject_Z w / F2Q tr)%Q).
    { apply Qle_shift_div_l; [ exact Ht0 | lra ]. }
    destruct (trunc_below _ s INT_MAX Hfa Hx0 ltac:(lia) Hfit1) as (nh & Hnh & Hb).
    rewrite Hnh, bind_ok, new_cases by lia.
    destruct ((w =? 0) || grants w nh); [ left; eexists | right ]; reflexivity.
  - destruct (float_lt cr tr).
    + destruct (int_mul_float_spec h tr ltac:(lia) Htr) as (s & Hs & Hfa & _).
      rewrite Hs, bind_ok.
      assert (Hx0 : (0 <= inject_Z h * F2Q tr)%Q) by nra.
      destruct (trunc_below _ s INT_MAX Hfa Hx0 ltac:(lia) Hfit2) as (nw & Hnw & Hb).
      rewrite Hnw, bind_ok, new_cases by lia.
      destruct ((nw =? 0) || grants nw h); [ left; eexists | right ]; reflexivity.
    + left. eexists. reflexivity.
Qed.

(** ** What padding can raise *)

(** With sizes that are not negative, [Image.new] raises nothing but the
    error of a size that does not fit a C integer and the error of the
    allocator. *)
Lemma new_raises {M : Memory} w h c e :
  0 <= w -> 0 <= h -> new (w, h) c = Raise e ->
  (exists msg, e = OverflowError msg) \/ e = MemoryError.
Proof.
  intros Hw Hh. unfold new.
  destruct (Z.ltb_spec w 0); [ lia | ]. destruct (Z.ltb_spec h 0); [ lia | ].
  simpl orb.
  destruct ((INT_MAX <? w) || (INT_MAX <? h)).
  - intros E. inversion E. left. eexists. reflexivity.
  - destruct ((w =? 0) || grants w h); intros E; inversion E. now right.
Qed.

Lemma int_of_float_faithful_cases x s :
  faithful x s -> (0 <= x)%Q ->
  (exists t, int_of_float s = Ok t /\ 0 <= t) \/
  (exists msg, int_of_float s = Raise (OverflowError msg)).
Proof.
  intros Hfa Hx.
  destruct Hfa as ([-> | Hfs] & Hlo & Hup).
  - right. eexists. reflexivity.
  - destruct (trunc_faithful x s (conj (or_intror Hfs) (conj Hlo Hup)) Hx Hfs)
      as (t & Ht & Ht0 & _).
    left. exists t. now split.
Qed.

Lemma resize_with_padding_raises {M : Memory} img tr e :
  0 < width img <= INT_MAX -> 0 < height img <= INT_MAX ->
  valid tr = true -> pos_finite tr = true ->
  resize_with_padding img tr = Raise e ->
  (exists msg, e = OverflowError msg) \/ e = MemoryError.
Proof.
  intros Hw Hh Hv Hp.
  destruct (pos_finite_fin_nonneg tr Hv Hp) as [Htr Ht0].
  pose proof INT_MAX_lt as Hmax.
  rewrite resize_with_padding_eq.
  set (w := width img) in *. set (h := height img) in *.
  destruct (ratio_test w h tr ltac:(lia) ltac:(lia) Htr) as (cr & Hcr & _).
  assert (Hhq : (0 < inject_Z h)%Q) by (apply inject_Z_pos; lia).
  assert (Hwq : (0 < inject_Z w)%Q) by (apply inject_Z_pos; lia).
  rewrite Hcr, bind_ok.
  destruct (float_gt cr tr).
  - destruct (int_div_float_spec w tr ltac:(lia) Htr Hp) as (s & Hs & Hfa & _).
    rewrite Hs, bind_ok.
    assert (Hx0 : (0 <= inject_Z w / F2Q tr)%Q).
    { apply Qle_shift_div_l; [ exact Ht0 | lra ]. }
    destruct (int_of_float_faithful_cases _ s Hfa Hx0) as [(nh & Hnh & Hnh0) | (msg & Hnh)];
      rewrite Hnh.
    + rewrite bind_ok.
      destruct (new (w, nh) black) as [canvas | e'] eqn:Hnew.
      * rewrite bind_ok. discriminate.
      * intros E. inversion E. subst e'.
        apply (new_raises w nh black e); [ lia | exact Hnh0 | exact Hnew ].
    + intros E. inversion E. left. eexists. reflexivity.
  - destruct (float_lt cr tr).
    + destruct (int_mul_float_spec h tr ltac:(lia) Htr) as (s & Hs & Hfa & _).
      rewrite Hs, bind_ok.
      assert (Hx0 : (0 <= inject_Z h * F2Q tr)%Q) by nra.
      destruct (int_of_float_faithful_cases _ s Hfa Hx0) as [(nw & Hnw & Hnw0) | (msg & Hnw)];
        rewrite Hnw.
      * rewrite bind_ok.
        destruct (new (nw, h) black) as [canvas | e'] eqn:Hnew.
        -- rewrite bind_ok. discriminate.
        -- intros E. inversion E. subst e'.
           apply (new_raises nw h black e); [ exact Hnw0 | lia | exact Hnew ].
      * intros E. inversion E. left. eexists. reflexivity.
    + discriminate.
Qed.

(** ** The layout *)

Lemma bind_inv {A B : Type} (c : result A) (k : A -> result B) b :
  bind c k = Ok b -> exists a, c = Ok a /\ k a = Ok b.
Proof. destruct c as [a | e]; simpl; [ eauto | discriminate ]. Qed.

Lemma mosaic_layout_inv n tr L :
  mosaic_layout n tr = Ok L ->
  exists scaled w,
    calculate_grid_size n = Ok (l_rows L, l_cols L) /\
    float_mul_int tr (l_rows L) = Ok scaled /\
    float_div_int scaled (l_cols L) = Ok (l_cell_ratio L) /\
    int_mul_float BASE_HEIGHT (l_cell_ratio L) = Ok w /\
    int_of_float w = Ok (l_cell_width L) /\
    l_cell_height L = BASE_HEIGHT.
Proof.
  unfold mosaic_layout. intros H.
  apply bind_inv in H as ([rows cols] & Hg & H).
  apply bind_inv in H as (scaled & Hs & H).
  apply bind_inv in H as (cr & Hc & H).
  apply bind_inv in H as (w & Hw & H).
  apply bind_inv in H as (cw & Hcw & H).
  inversion H. subst L. simpl. exists scaled, w. repeat split; assumption.
Qed.

(** ** The loop keeps the canvas size *)

Section MosaicFacts.

Context {R : Resampler} {M : Memory}.

Lemma place_images_size crop_mode L images : forall idx canvas out,
  place_images crop_mode L idx images canvas = Ok out -> size out = size canvas.
Proof.
  induction images as [ | img rest IH ]; intros idx canvas out; simpl.
  - intros E. inversion E. reflexivity.
  - destruct (idx >=? l_rows L * l_cols L).
    + intros E. inversion E. reflexivity.
    + intros H.
      apply bind_inv in H as (grid_row & _ & H).
      apply bind_inv in H as (grid_col & _ & H).
      apply bind_inv in H as (resized & _ & H).
      apply IH in H. rewrite H. reflexivity.
Qed.

Lemma create_image_mosaic_inv images tr crop_mode canvas :
  create_image_mosaic images tr crop_mode = Ok canvas ->
  exists L blank,
    images <> [] /\
    mosaic_layout (Z.of_nat (List.length images)) tr = Ok L /\
    new (l_cell_width L * l_cols L, l_cell_height L * l_rows L) black = Ok blank /\
    place_images crop_mode L 0 images blank = Ok canvas.
Proof.
  unfold create_image_mosaic. destruct images as [ | img rest ]; [ discriminate | ].
  intros H.
  apply bind_inv in H as (L & HL & H).
  apply bind_inv in H as (blank & Hb & H).
  exists L, blank. repeat split; try assumption. discriminate.
Qed.

Lemma create_image_mosaic_size images tr crop_mode canvas :
  create_image_mosaic images tr crop_mode = Ok canvas ->
  exists L,
    mosaic_layout (Z.of_nat (List.length images)) tr = Ok L /\
    size canvas = (l_cell_width L * l_cols L, BASE_HEIGHT * l_rows L) /\
    0 <= l_cell_width L * l_cols L <= INT_MAX /\
    0 <= BASE_HEIGHT * l_rows L <= INT_MAX.
Proof.
  intros H. apply create_image_mosaic_inv in H as (L & blank & _ & HL & Hb & Hp).
  exists L. split; [ exact HL | ].
  destruct (mosaic_layout_inv _ _ _ HL) as (_ & _ & _ & _ & _ & _ & _ & Hh).
  rewrite Hh in Hb.
  apply place_images_size in Hp. rewrite Hp.
  destruct (new_inv _ _ _ _ Hb) as (Hw & Hh' & ->). split; [ reflexivity | now split ].
Qed.

(** ** The loop stops at the first image that fails *)

Lemma place_images_raises crop_mode L : forall images idx canvas i img e,
  l_cols L <> 0 ->
  idx + Z.of_nat (List.length images) <= l_rows L * l_cols L ->
  nth_error images i = Some img ->
  fit_cell crop_mode L img = Raise e ->
  (forall j img', (j < i)%nat -> nth_error images j = Some img' ->
                  is_ok (fit_cell crop_mode L img') = true) ->
  place_images crop_mode L idx images canvas = Raise e.
Proof.
  induction images as [ | hd rest IH ]; intros idx canvas i img e Hc Hn Hi He Hbefore.
  - destruct i; discriminate Hi.
  - simpl List.length in Hn. rewrite Nat2Z.inj_succ in Hn. simpl place_images.
    destruct (Z.geb_spec idx (l_rows L * l_cols L)); [ lia | ].
    unfold int_floordiv, int_mod. destruct (Z.eqb_spec (l_cols L) 0); [ contradiction | ].
    rewrite !bind_ok.
    destruct i as [ | i ].
    + simpl in Hi. inversion Hi. subst hd. rewrite He. reflexivity.
    + simpl in Hi.
      pose proof (Hbefore 0%nat hd (Nat.lt_0_succ i) eq_refl) as Hhd.
      destruct (fit_cell crop_mode L hd) as [resized | e']; [ | discriminate Hhd ].
      rewrite bind_ok.
      apply (IH (idx + 1) _ i img e); try assumption; try lia.
      intros j img' Hj Hnth. apply (Hbefore (S j) img'); [ lia | exact Hnth ].
Qed.

End MosaicFacts.

(** ** The rounding error of the cell width *)

Lemma close_linear x r :
  close x r -> fin_nonneg r = true -> (0 <= x)%Q ->
  (x * (1 - u52) - eta <= F2Q r /\ F2Q r <= x * (1 + u52) + eta)%Q.
Proof.
  intros Hc Hf Hx. pose proof u52_pos. assert (Heta : (0 < eta)%Q) by reflexivity.
  destruct (Hc Hf) as [[H1 H2] | (H1 & H2 & _)]; split; nra.
Qed.

Lemma float_div_int_inf c b :
  0 < c < 2 ^ 53 ->
  float_div_int (S754_infinity false) c = Ok b -> b = S754_infinity false.
Proof.
  intros Hc. unfold float_div_int.
  destruct (float_of_int_exact c ltac:(lia)) as (cf & Hcf & Hfin & Hv).
  rewrite Hcf, bind_ok. unfold float_truediv.
  pose proof (inject_Z_pos c ltac:(lia)) as Hcq.
  destruct cf as [ s | s | | [ | ] mc ec ]; simpl in Hfin; try discriminate Hfin.
  - exfalso. simpl in Hv. lra.
  - simpl. intros E. now inversion E.
Qed.

Lemma int_mul_float_inf h w :
  0 < h < 2 ^ 53 ->
  int_mul_float h (S754_infinity false) = Ok w -> w = S754_infinity false.
Proof.
  intros Hh. unfold int_mul_float.
  destruct (float_of_int_exact h ltac:(lia)) as (hf & Hhf & Hfin & Hv).
  rewrite Hhf, bind_ok.
  pose proof (inject_Z_pos h ltac:(lia)) as Hhq.
  destruct hf as [ s | s | | [ | ] mh eh ]; simpl in Hfin; try discriminate Hfin.
  - exfalso. simpl in Hv. lra.
  - simpl. intros E. now inversion E.
Qed.

Lemma eta_small : (0 < eta)%Q /\ (1000 * eta <= 1 # 4)%Q /\ (1000 * eta <= 2 * u52)%Q.
Proof.
  split; [ reflexivity | split; vm_compute; discriminate ].
Qed.

(** Three roundings in a row and a truncation, as inequalities between
    rationals. *)
Lemma three_roundings (t Rq Cq A B Wf X cwq e : Q) :
  let u := (1 # 4503599627370496)%Q in
  (0 < e)%Q -> (1000 * e <= 1 # 4)%Q -> (1000 * e <= 2 * u)%Q ->
  (0 < t)%Q -> (1 <= Rq)%Q -> (1 <= Cq)%Q ->
  (X * Cq == 300 * t * Rq)%Q ->
  (t * Rq * (1 - u) - e <= A)%Q -> (A <= t * Rq * (1 + u) + e)%Q ->
  (A / Cq * (1 - u) - e <= B)%Q -> (B <= A / Cq * (1 + u) + e)%Q ->
  (300 * B * (1 - u) - e <= Wf)%Q -> (Wf <= 300 * B * (1 + u) + e)%Q ->
  (cwq <= Wf)%Q -> (Wf < cwq + 1)%Q -> (0 <= cwq)%Q ->
  ((cwq < 1)%Q -> (cwq == 0)%Q) ->
  (- (1 + X * (8 * u)) <= cwq - X /\ cwq - X <= 1 + X * (8 * u))%Q.
Proof.
  intros u He0 He1 He2 Ht HR HC HX HA1 HA2 HB1 HB2 HW1 HW2 Hlo Hhi Hcw0 Hint.
  subst u.
  remember (A / Cq)%Q as Y eqn:EY in *.
  assert (HY : (Y * Cq == A)%Q) by (rewrite EY; field; intro E; lra).
  clear EY.
  assert (HX0 : (0 < X)%Q).
  { apply Qmult_lt_r with Cq; [ lra | ]. rewrite HX. nra. }
  assert (HeC : (e <= e * Cq)%Q) by nra.
  assert (HYhi : (Y <= X * (1 # 300) * (1 + (1 # 4503599627370496)) + e)%Q).
  { apply Qmult_lt_0_le_reg_r with Cq; [ lra | ]. rewrite HY.
    setoid_replace ((X * (1 # 300) * (1 + (1 # 4503599627370496)) + e) * Cq)%Q
      with ((X * Cq) * (1 # 300) * (1 + (1 # 4503599627370496)) + e * Cq)%Q by field.
    rewrite HX.
    setoid_replace (300 * t * Rq * (1 # 300) * (1 + (1 # 4503599627370496)))%Q
      with (t * Rq * (1 + (1 # 4503599627370496)))%Q by field.
    lra. }
  assert (HYlo : (X * (1 # 300) * (1 - (1 # 4503599627370496)) - e <= Y)%Q).
  { apply Qmult_lt_0_le_reg_r with Cq; [ lra | ]. rewrite HY.
    setoid_replace ((X * (1 # 300) * (1 - (1 # 4503599627370496)) - e) * Cq)%Q
      with ((X * Cq) * (1 # 300) * (1 - (1 # 4503599627370496)) - e * Cq)%Q by field.
    rewrite HX.
    setoid_replace (300 * t * Rq * (1 # 300) * (1 - (1 # 4503599627370496)))%Q
      with (t * Rq * (1 - (1 # 4503599627370496)))%Q by field.
    lra. }
  destruct (Qlt_le_dec X (1 # 2)) as [Hsmall | Hlarge].
  - assert (Hw1 : (Wf < 1)%Q) by lra.
    assert (Hz : (cwq == 0)%Q) by (apply Hint; lra).
    rewrite Hz. split; lra.
  - split; lra.
Qed.

(** The cell width is the exact width [300 * t * rows / cols] up to the
    truncation (less than one pixel) and three float roundings. *)
Lemma cell_width_error tr rows cols scaled cr w cw :
  fin_nonneg tr = true -> (0 < F2Q tr)%Q ->
  1 <= rows < 2 ^ 53 -> 1 <= cols < 2 ^ 53 ->
  float_mul_int tr rows = Ok scaled ->
  float_div_int scaled cols = Ok cr ->
  int_mul_float BASE_HEIGHT cr = Ok w ->
  int_of_float w = Ok cw ->
  let X := (300 * F2Q tr * inject_Z rows / inject_Z cols)%Q in
  0 <= cw /\ (Qabs (inject_Z cw - X) <= 1 + X * (8 * u52))%Q.
Proof.
  intros Htr Ht Hr Hc Hs Hcr Hw Hcw X.
  assert (Hrq : (1 <= inject_Z rows)%Q) by (apply inject_Z_ge1; lia).
  assert (Hcq : (1 <= inject_Z cols)%Q) by (apply inject_Z_ge1; lia).
  (* each intermediate result is finite, since the last one is *)
  destruct (float_mul_int_spec tr rows ltac:(lia) Htr) as (a & Ha & Hfa & Hca).
  rewrite Hs in Ha. inversion Ha. subst a. clear Ha.
  assert (Hsf : fin_nonneg scaled = true).
  { destruct Hfa as ([-> | Hf] & _); [ exfalso | exact Hf ].
    apply float_div_int_inf in Hcr; [ | lia ]. subst cr.
    apply int_mul_float_inf in Hw; [ | unfold BASE_HEIGHT; lia ]. subst w.
    discriminate Hcw. }
  destruct (float_div_int_spec scaled cols ltac:(lia) Hsf) as (b & Hb & Hfb & Hcb).
  rewrite Hcr in Hb. inversion Hb. subst b. clear Hb.
  assert (Hcf : fin_nonneg cr = true).
  { destruct Hfb as ([-> | Hf] & _); [ exfalso | exact Hf ].
    apply int_mul_float_inf in Hw; [ | unfold BASE_HEIGHT; lia ]. subst w.
    discriminate Hcw. }
  destruct (int_mul_float_spec BASE_HEIGHT cr ltac:(unfold BASE_HEIGHT; lia) Hcf)
    as (c & Hc' & Hfc & Hcc).
  rewrite Hw in Hc'. inversion Hc'. subst c. clear Hc'.
  assert (Hwf : fin_nonneg w = true).
  { destruct Hfc as ([-> | Hf] & _); [ discriminate Hcw | exact Hf ]. }
  destruct (int_of_float_spec w Hwf) as (cw' & Hcw' & Hcw0 & Hlo & Hhi).
  rewrite Hcw in Hcw'. inversion Hcw'. subst cw'. clear Hcw'.
  split; [ exact Hcw0 | ].
  rewrite inject_Z_plus in Hhi. change (inject_Z 1) with 1%Q in Hhi.
  pose proof (fin_nonneg_F2Q scaled Hsf) as HA0.
  pose proof (fin_nonneg_F2Q cr Hcf) as HB0.
  assert (HX1 : (0 <= F2Q tr * inject_Z rows)%Q) by nra.
  destruct (close_linear _ _ Hca Hsf HX1) as [HA1 HA2].
  assert (HY0 : (0 <= F2Q scaled / inject_Z cols)%Q).
  { apply Qle_shift_div_l; lra. }
  destruct (close_linear _ _ Hcb Hcf HY0) as [HB1 HB2].
  assert (H300 : (0 <= inject_Z BASE_HEIGHT * F2Q cr)%Q).
  { change (inject_Z BASE_HEIGHT) with 300%Q. lra. }
  destruct (close_linear _ _ Hcc Hwf H300) as [HW1 HW2].
  change (inject_Z BASE_HEIGHT) with 300%Q in HW1, HW2.
  destruct eta_small as (He0 & He1 & He2).
  change u52 with (1 # 4503599627370496)%Q in *.
  apply Qabs_Qle_condition.
  apply (three_roundings (F2Q tr) (inject_Z rows) (inject_Z cols)
           (F2Q scaled) (F2Q cr) (F2Q w) X (inject_Z cw) eta); try assumption.
  - unfold X. field. intro E. lra.
  - apply inject_Z_nonneg. exact Hcw0.
  - intros Hlt. assert (cw < 1); [ rewrite Zlt_Qlt; exact Hlt | ].
    assert (cw = 0) by lia. subst cw. reflexivity.
Qed.

(* ===================================================================== *)
(** * The documented properties *)
(* ===================================================================== *)

(** A run that computes to a value has one. *)
Lemma is_ok_inv {A : Type} (r : result A) : is_ok r = true -> exists a, r = Ok a.
Proof. destruct r as [a | e]; [ eauto | discriminate ]. Qed.

(** ** C2: the grid of 1, 4, 5 and 10 images *)

(** C2, counterexample: for ten images the pair, ordered (rows, cols), is
    (3, 4): four columns and three rows, not (4, 3). *)
Lemma grid_of_ten_is_3_by_4 :
  calculate_grid_size 10 = Ok (3, 4) /\ calculate_grid_size 10 <> Ok (4, 3).
Proof. split; [ vm_compute; reflexivity | vm_compute; discriminate ]. Qed.

(** C2, amended: the grids of 1, 4, 5 and 10 images are (1,1), (2,2), (2,3)
    and (3,4), pairs ordered (rows, cols), and they are the values of the
    formula cols = ceil(sqrt n), rows = ceil(n / cols). *)
Theorem grid_values :
  calculate_grid_size 1 = Ok (1, 1) /\
  calculate_grid_size 4 = Ok (2, 2) /\
  calculate_grid_size 5 = Ok (2, 3) /\
  calculate_grid_size 10 = Ok (3, 4) /\
  Forall (fun n => calculate_grid_size n = Ok (grid_formula n)) [1; 4; 5; 10].
Proof.
  repeat split; try (vm_compute; reflexivity).
  repeat constructor; vm_compute; reflexivity.
Qed.

(** ** C6: the grid has room for every image *)

(** C6, counterexample: for [2^54 + 1] images the float square root and the
    float quotient both round down, and the grid is one cell short. *)
Lemma grid_too_small_beyond_float_precision :
  exists rows cols,
    calculate_grid_size (2 ^ 54 + 1) = Ok (rows, cols) /\
    rows * cols < 2 ^ 54 + 1.
Proof. exists (2 ^ 27), (2 ^ 27). split; vm_compute; reflexivity. Qed.

(** C6, amended: for every count [0 <= n < 2^52] the grid is a pair of
    positive integers with [rows * cols >= n]. *)
Theorem grid_covers_count n :
  0 <= n < 2 ^ 52 ->
  exists rows cols,
    calculate_grid_size n = Ok (rows, cols) /\
    0 < rows /\ 0 < cols /\ n <= rows * cols.
Proof.
  intros Hn.
  destruct (calculate_grid_size_total n Hn) as (rows & cols & H & Hr & Hc & Hcov & _).
  exists rows, cols. repeat split; try assumption; lia.
Qed.

Lemma grid_covers_count_example :
  exists rows cols,
    calculate_grid_size 7 = Ok (rows, cols) /\
    0 < rows /\ 0 < cols /\ 7 <= rows * cols.
Proof. apply (grid_covers_count 7). split; [ discriminate | reflexivity ]. Defined.

(** ** C3: a ratio with a zero height *)

(** C3: when the text splits in two numbers and the second one is zero,
    the division raises [ZeroDivisionError], which the [except ValueError]
    clause does not catch: the caller does not get the [ArgumentTypeError]
    that malformed text gets. *)
Theorem zero_height_raises_zero_division
        (float_of_string : string -> result float) s ws hs w h :
  split_on ":"%char s = [ws; hs] ->
  float_of_string ws = Ok w ->
  float_of_string hs = Ok h ->
  float_is_zero h = true ->
  parse_aspect_ratio float_of_string s =
  Raise (ZeroDivisionError "float division by zero").
Proof.
  intros Hsplit Hw Hh Hz. unfold parse_aspect_ratio, unpack_two_floats.
  rewrite Hsplit, Hw, bind_ok, Hh, bind_ok. simpl bind.
  unfold float_truediv. rewrite Hz. reflexivity.
Qed.

Lemma zero_height_raises_zero_division_example :
  parse_aspect_ratio decimal_float "4:0" =
    Raise (ZeroDivisionError "float division by zero") /\
  parse_aspect_ratio decimal_float "abc:9" =
    Raise (ArgumentTypeError "Aspect ratio must be in format W:H (e.g., 16:9)") /\
  parse_aspect_ratio decimal_float "16:9" = Ok ratio_16_9.
Proof.
  split; [ | split; vm_compute; reflexivity ].
  apply (zero_height_raises_zero_division decimal_float "4:0" "4" "0"
           (S754_finite false 4503599627370496 (-50)) (S754_zero false));
    reflexivity.
Defined.

(** ** C4: cropping *)

(** C4: for an image with positive sizes and a positive finite ratio,
    [resize_with_crop] returns an image that is nowhere larger than the
    source, that is the centred window of the source keeping the full other
    size, whose cut size is [int(height * ratio)] or [int(width / ratio)]
    (the source itself when the rounded ratios compare equal), and whose
    sizes meet the ratio up to the rounding of one size to an integer. *)
Theorem crop_never_grows_and_meets_ratio img tr :
  0 < width img <= INT_MAX -> 0 < height img <= INT_MAX ->
  valid tr = true -> pos_finite tr = true ->
  exists out cr,
    resize_with_crop img tr = Ok out /\
    width out <= width img /\ height out <= height img /\
    int_truediv (width img) (height img) = Ok cr /\
    centered_slice img out /\
    (if float_gt cr tr then
       (s <- int_mul_float (height img) tr ;; int_of_float s) = Ok (width out) /\
       height out = height img
     else if float_lt cr tr then
       (s <- int_div_float (width img) tr ;; int_of_float s) = Ok (height out) /\
       width out = width img
     else out = img) /\
    within_one_pixel (width out) (height out) (F2Q tr).
Proof.
  intros Hw Hh Hv Hp.
  destruct (resize_with_crop_spec img tr Hw Hh Hv Hp) as (out & cr & H1 & H2 & H3 & H4 & H5).
  exists out, cr. pose proof H3 as (Hwd & Hht & _).
  split; [ exact H1 | split; [ lia | split; [ lia | split; [ exact H2 | ] ] ] ].
  split; [ exact H3 | split; [ exact H4 | exact H5 ] ].
Qed.

Lemma crop_never_grows_and_meets_ratio_example :
  exists out cr,
    resize_with_crop (plain 4 3 white) ratio_1_1 = Ok out /\
    width out <= 4 /\ height out <= 3 /\
    int_truediv 4 3 = Ok cr /\
    centered_slice (plain 4 3 white) out /\
    (if float_gt cr ratio_1_1 then
       (s <- int_mul_float 3 ratio_1_1 ;; int_of_float s) = Ok (width out) /\
       height out = 3
     else if float_lt cr ratio_1_1 then
       (s <- int_div_float 4 ratio_1_1 ;; int_of_float s) = Ok (height out) /\
       width out = 4
     else out = plain 4 3 white) /\
    within_one_pixel (width out) (height out) (F2Q ratio_1_1).
Proof.
  apply (crop_never_grows_and_meets_ratio (plain 4 3 white) ratio_1_1);
    first [ reflexivity | split; [ reflexivity | discriminate ] ].
Defined.

(** ** C5: padding *)

(** The image of four by three and the ratio of "1:10000000000": the padded
    height [int(4 / 1e-10)] is 40000000000, which is no size of an image.
    The image of three by four and the ratio of "150000000:1": the padded
    width [int(4 * 1.5e8)] is 600000000, which fits a C integer, but Pillow,
    here with room for a gigabyte, has no line that long. *)
Lemma padding_raises_on_extreme_ratio :
  0 < width (plain 4 3 white) /\ 0 < height (plain 4 3 white) /\
  float_pos ratio_1e_10 = true /\
  parse_aspect_ratio decimal_float "1:10000000000" = Ok ratio_1e_10 /\
  (s <- int_div_float 4 ratio_1e_10 ;; int_of_float s) = Ok 40000000000 /\
  resize_with_padding (plain 4 3 white) ratio_1e_10 =
  Raise (OverflowError "Python int too large to convert to C int") /\
  float_pos ratio_15e7 = true /\
  parse_aspect_ratio decimal_float "150000000:1" = Ok ratio_15e7 /\
  (s <- int_mul_float 4 ratio_15e7 ;; int_of_float s) = Ok 600000000 /\
  resize_with_padding (M := gigabyte) (plain 3 4 white) ratio_15e7 = Raise MemoryError.
Proof.
  repeat split; vm_compute; reflexivity.
Qed.

(** C5: for an image with positive sizes and a positive finite ratio,
    whatever room the allocator has, the image that [resize_with_padding]
    returns is nowhere smaller than the source, holds every pixel of the
    source unchanged, centred on a black ground that keeps the full other
    size, has the added size [int(width / ratio)] or [int(height * ratio)],
    and meets the ratio up to the rounding of one size to an integer.  The
    function does not return for every such input: it raises
    [OverflowError] or [MemoryError], and only [MemoryError], the refusal
    of the allocator, when the padded sizes fit a C integer. *)
Theorem pad_never_shrinks_and_keeps_pixels {M : Memory} img tr :
  0 < width img <= INT_MAX -> 0 < height img <= INT_MAX ->
  valid tr = true -> pos_finite tr = true ->
  (forall out,
     resize_with_padding img tr = Ok out ->
     width img <= width out /\ height img <= height out /\
     centered_on_black img out /\
     (exists cr,
        int_truediv (width img) (height img) = Ok cr /\
        if float_gt cr tr then
          (s <- int_div_float (width img) tr ;; int_of_float s) = Ok (height out) /\
          width out = width img
        else if float_lt cr tr then
          (s <- int_mul_float (height img) tr ;; int_of_float s) = Ok (width out) /\
          height out = height img
        else out = img) /\
     within_one_pixel (width out) (height out) (F2Q tr)) /\
  (forall e,
     resize_with_padding img tr = Raise e ->
     (exists msg, e = OverflowError msg) \/ e = MemoryError) /\
  ((inject_Z (width img) / F2Q tr <= inject_Z INT_MAX)%Q ->
   (inject_Z (height img) * F2Q tr <= inject_Z INT_MAX)%Q ->
   (exists out, resize_with_padding img tr = Ok out) \/
   resize_with_padding img tr = Raise MemoryError).
Proof.
  intros Hw Hh Hv Hp. split; [ | split ].
  - intros out Hrun.
    destruct (resize_with_padding_spec img tr out Hw Hh Hv Hp Hrun)
      as (cr & H1 & H2 & H3 & H4).
    pose proof H2 as (Hwd & Hht & _).
    split; [ exact Hwd | split; [ exact Hht | split; [ exact H2 | ] ] ].
    split; [ exists cr; split; assumption | exact H4 ].
  - intros e. now apply resize_with_padding_raises.
  - intros Hfit1 Hfit2. now apply resize_with_padding_returns.
Qed.

Lemma pad_never_shrinks_and_keeps_pixels_example :
  exists out,
    resize_with_padding (plain 4 3 white) ratio_1_1 = Ok out /\
    size out = (4, 4) /\
    centered_on_black (plain 4 3 white) out /\
    within_one_pixel (width out) (height out) (F2Q ratio_1_1).
Proof.
  destruct (is_ok_inv (resize_with_padding (plain 4 3 white) ratio_1_1))
    as (out & Hrun); [ vm_compute; reflexivity | ].
  destruct (pad_never_shrinks_and_keeps_pixels (plain 4 3 white) ratio_1_1)
    as (Hprops & _ & _);
    try first [ reflexivity | split; [ reflexivity | discriminate ] ].
  exists out. split; [ exact Hrun | ].
  destruct (Hprops out Hrun) as (_ & _ & Hc & _ & Hr).
  split; [ | split; assumption ].
  vm_compute in Hrun. inversion Hrun. reflexivity.
Defined.

(** ** C8: no images *)

(** C8: on an empty list [create_image_mosaic] raises the [ValueError] "No
    images provided", whatever the ratio, the policy and the resampler, and
    so returns no canvas. *)
Theorem empty_input_raises {R : Resampler} {M : Memory}
        (tr : float) (crop_mode : bool) :
  create_image_mosaic [] tr crop_mode = Raise (ValueError "No images provided").
Proof. reflexivity. Qed.

(** ** C1: the size of the canvas *)

(** C1, counterexample: with two images and the ratio 16:9 the float
    [300 * cell_ratio] is 266.66..., which [round] takes to 267, but the
    cell width is 266 and the canvas 532 wide. *)
Lemma cell_width_is_truncated_not_rounded :
  exists canvas L w,
    create_image_mosaic [plain 4 3 white; plain 2 5 white] ratio_16_9 false = Ok canvas /\
    mosaic_layout 2 ratio_16_9 = Ok L /\
    int_mul_float BASE_HEIGHT (l_cell_ratio L) = Ok w /\
    round_half_even w = Ok 267 /\
    size canvas = (266 * l_cols L, 300 * l_rows L) /\
    size canvas <> (267 * l_cols L, 300 * l_rows L).
Proof.
  destruct (is_ok_inv
              (create_image_mosaic [plain 4 3 white; plain 2 5 white] ratio_16_9 false))
    as (canvas & Hrun); [ vm_compute; reflexivity | ].
  destruct (create_image_mosaic_size _ _ _ _ Hrun) as (L & HL & Hsize & _).
  exists canvas, L. vm_compute in HL. inversion HL. subst L. clear HL.
  eexists. split; [ exact Hrun | split; [ vm_compute; reflexivity | ] ].
  split; [ vm_compute; reflexivity | split; [ vm_compute; reflexivity | ] ].
  rewrite Hsize. split; [ reflexivity | discriminate ].
Qed.

(** C1, amended: when [create_image_mosaic] returns a canvas, the list is
    not empty, [cell_ratio] is the float [(target_ratio * rows) / cols] for
    the grid of the images, the cell height is 300, the cell width is
    [int(cell_height * cell_ratio)] (truncated, not rounded), and the canvas
    measures exactly [(cell_width * cols, cell_height * rows)]. *)
Theorem mosaic_canvas_dimensions {R : Resampler} {M : Memory}
        images tr crop_mode canvas :
  create_image_mosaic images tr crop_mode = Ok canvas ->
  exists rows cols scaled cell_ratio w cell_width,
    images <> [] /\
    calculate_grid_size (Z.of_nat (List.length images)) = Ok (rows, cols) /\
    float_mul_int tr rows = Ok scaled /\
    float_div_int scaled cols = Ok cell_ratio /\
    BASE_HEIGHT = 300 /\
    int_mul_float BASE_HEIGHT cell_ratio = Ok w /\
    int_of_float w = Ok cell_width /\
    size canvas = (cell_width * cols, BASE_HEIGHT * rows).
Proof.
  intros Hrun.
  destruct (create_image_mosaic_inv _ _ _ _ Hrun) as (_ & _ & Hne & _).
  destruct (create_image_mosaic_size _ _ _ _ Hrun) as (L & HL & Hsize & _).
  destruct (mosaic_layout_inv _ _ _ HL) as (scaled & w & Hg & Hs & Hc & Hw & Hcw & _).
  exists (l_rows L), (l_cols L), scaled, (l_cell_ratio L), w, (l_cell_width L).
  repeat split; assumption.
Qed.

Lemma mosaic_canvas_dimensions_example :
  exists canvas,
    create_image_mosaic [plain 4 3 white; plain 2 5 white] ratio_16_9 true = Ok canvas /\
    size canvas = (532, 300).
Proof.
  destruct (is_ok_inv
              (create_image_mosaic [plain 4 3 white; plain 2 5 white] ratio_16_9 true))
    as (canvas & Hrun); [ vm_compute; reflexivity | ].
  exists canvas. split; [ exact Hrun | ].
  destruct (mosaic_canvas_dimensions _ _ _ _ Hrun)
    as (rows & cols & scaled & cr & w & cw & _ & Hg & Hs & Hc & _ & Hw & Hcw & Hsize).
  vm_compute in Hg. inversion Hg. subst rows cols.
  vm_compute in Hs. inversion Hs. subst scaled.
  vm_compute in Hc. inversion Hc. subst cr.
  vm_compute in Hw. inversion Hw. subst w.
  vm_compute in Hcw. inversion Hcw. subst cw.
  exact Hsize.
Defined.

(** ** C7: an image that cannot be fitted *)

(** C7, counterexample: an image of height 0 makes the ratio test divide by
    zero.  Whether it comes first or second, the mosaic fails with the very
    same bare [ZeroDivisionError]: the exception is not wrapped and no
    function of it tells the position of the image. *)
Lemma failure_carries_no_position :
  exists L e,
    mosaic_layout 2 ratio_1_1 = Ok L /\
    fit_cell false L (plain 1 0 white) = Raise e /\
    is_ok (fit_cell false L (plain 1 1 white)) = true /\
    create_image_mosaic [plain 1 0 white; plain 1 1 white] ratio_1_1 false = Raise e /\
    create_image_mosaic [plain 1 1 white; plain 1 0 white] ratio_1_1 false = Raise e /\
    e = ZeroDivisionError "division by zero" /\
    ~ (exists position_of : exn -> nat,
         position_of e = 0%nat /\ position_of e = 1%nat).
Proof.
  destruct (is_ok_inv (mosaic_layout 2 ratio_1_1)) as (L & HL);
    [ vm_compute; reflexivity | ].
  exists L, (ZeroDivisionError "division by zero").
  split; [ exact HL | ]. vm_compute in HL. inversion HL. subst L. clear HL.
  repeat split; try (vm_compute; reflexivity).
  intros (f & H0 & H1). congruence.
Qed.

(** C7, amended: once the layout is computed and the canvas allocated, the
    first image whose reconciliation or resize raises makes
    [create_image_mosaic] raise that same exception, unchanged: no canvas is
    returned, so no mosaic that lacks the image. *)
Theorem mosaic_aborts_on_first_failure {R : Resampler} {M : Memory}
        images tr crop_mode L blank i img e :
  Z.of_nat (List.length images) < 2 ^ 52 ->
  mosaic_layout (Z.of_nat (List.length images)) tr = Ok L ->
  new (l_cell_width L * l_cols L, l_cell_height L * l_rows L) black = Ok blank ->
  nth_error images i = Some img ->
  fit_cell crop_mode L img = Raise e ->
  (forall j img', (j < i)%nat -> nth_error images j = Some img' ->
                  is_ok (fit_cell crop_mode L img') = true) ->
  create_image_mosaic images tr crop_mode = Raise e.
Proof.
  intros Hn HL Hblank Hi He Hbefore.
  unfold create_image_mosaic.
  destruct images as [ | hd rest ] eqn:Eim; [ destruct i; discriminate Hi | ].
  rewrite <- Eim in *. rewrite HL, bind_ok, Hblank, bind_ok.
  destruct (mosaic_layout_inv _ _ _ HL) as (_ & _ & Hg & _).
  destruct (calculate_grid_size_total (Z.of_nat (List.length images)) ltac:(lia))
    as (rows & cols & Hg' & Hr & Hc & Hcov & _).
  rewrite Hg in Hg'. inversion Hg' as [[Er Ec]].
  apply (place_images_raises crop_mode L images 0 blank i img e);
    try assumption; lia.
Qed.

Lemma mosaic_aborts_on_first_failure_example :
  create_image_mosaic [plain 1 1 white; plain 1 0 white; plain 2 2 white]
    ratio_1_1 false = Raise (ZeroDivisionError "division by zero").
Proof.
  destruct (is_ok_inv (mosaic_layout 3 ratio_1_1)) as (L & HL);
    [ vm_compute; reflexivity | ].
  destruct (is_ok_inv
              (new (l_cell_width L * l_cols L, l_cell_height L * l_rows L) black))
    as (blank & Hb).
  { vm_compute in HL. inversion HL. vm_compute. reflexivity. }
  apply (mosaic_aborts_on_first_failure
           [plain 1 1 white; plain 1 0 white; plain 2 2 white]
           ratio_1_1 false L blank 1 (plain 1 0 white)).
  - reflexivity.
  - exact HL.
  - exact Hb.
  - reflexivity.
  - vm_compute in HL. inversion HL. vm_compute. reflexivity.
  - intros j img' Hj. destruct j as [ | [ | j ] ]; try lia.
    simpl. intros E. inversion E. vm_compute in HL. inversion HL.
    vm_compute. reflexivity.
Defined.

(** ** C9: the ratio of the canvas *)

(** C9, counterexample: nine images and the ratio 5.763333333333334.  The
    exact cell width is a little above 1729, the three float operations
    give a little below 1729, the truncation gives 1728: the canvas is
    5184 by 900 and its ratio misses the target by more than
    [cols / (cell_height * rows)] = 1/300. *)
Lemma canvas_ratio_misses_bound :
  exists canvas,
    create_image_mosaic (repeat (plain 1 1 white) 9) ratio_5_76 false = Ok canvas /\
    calculate_grid_size 9 = Ok (3, 3) /\
    size canvas = (5184, 900) /\
    (inject_Z 3 / inject_Z (300 * 3)
     < Qabs (inject_Z 5184 / inject_Z 900 - F2Q ratio_5_76))%Q.
Proof.
  destruct (is_ok_inv
              (create_image_mosaic (repeat (plain 1 1 white) 9) ratio_5_76 false))
    as (canvas & Hrun); [ vm_compute; reflexivity | ].
  exists canvas. split; [ exact Hrun | split; [ vm_compute; reflexivity | ] ].
  destruct (create_image_mosaic_size _ _ _ _ Hrun) as (L & HL & Hsize & _).
  vm_compute in HL. inversion HL. subst L. clear HL.
  split; [ exact Hsize | vm_compute; reflexivity ].
Qed.

(** C9, amended: for fewer than [2^52] images and a positive finite ratio
    [t], the ratio of the returned canvas differs from [t] by at most
    [cols / (cell_height * rows)], the effect of truncating the cell width,
    plus [t * 2^-49], the effect of the three float roundings before it. *)
Theorem canvas_ratio_near_target {R : Resampler} {M : Memory}
        images tr crop_mode canvas :
  Z.of_nat (List.length images) < 2 ^ 52 ->
  valid tr = true -> pos_finite tr = true ->
  create_image_mosaic images tr crop_mode = Ok canvas ->
  exists rows cols,
    calculate_grid_size (Z.of_nat (List.length images)) = Ok (rows, cols) /\
    0 < height canvas /\
    (Qabs (inject_Z (width canvas) / inject_Z (height canvas) - F2Q tr)
     <= inject_Z cols / inject_Z (BASE_HEIGHT * rows) + F2Q tr * (8 * u52))%Q.
Proof.
  intros Hn Hv Hp Hrun.
  destruct (pos_finite_fin_nonneg tr Hv Hp) as [Htr Ht0].
  destruct (create_image_mosaic_size _ _ _ _ Hrun) as (L & HL & Hsize & _).
  destruct (mosaic_layout_inv _ _ _ HL) as (scaled & w & Hg & Hs & Hc & Hw & Hcw & _).
  destruct (calculate_grid_size_total (Z.of_nat (List.length images)) ltac:(lia))
    as (rows & cols & Hg' & Hr & Hcl & _ & Hrb & Hcb).
  rewrite Hg in Hg'. inversion Hg' as [[Er Ec]].
  exists rows, cols. split; [ rewrite Hg, Er, Ec; reflexivity | ].
  rewrite Er, Ec in *. set (cw := l_cell_width L) in *.
  destruct (cell_width_error tr rows cols scaled (l_cell_ratio L) w cw)
    as [Hcw0 Herr]; try assumption; try lia.
  pose proof (f_equal fst Hsize) as Hwd. pose proof (f_equal snd Hsize) as Hht.
  cbn [fst snd size] in Hwd, Hht. rewrite Hwd, Hht.
  split; [ unfold BASE_HEIGHT; lia | ].
  assert (Hrq : (1 <= inject_Z rows)%Q) by (apply inject_Z_ge1; lia).
  assert (Hcq : (1 <= inject_Z cols)%Q) by (apply inject_Z_ge1; lia).
  rewrite !inject_Z_mult. change (inject_Z BASE_HEIGHT) with 300%Q.
  set (Rq := inject_Z rows) in *. set (Cq := inject_Z cols) in *.
  set (t := F2Q tr) in *. set (c := inject_Z cw) in *.
  remember (Cq / (300 * Rq))%Q as k eqn:Ek.
  assert (Hk0 : (0 < k)%Q).
  { rewrite Ek. apply Qlt_shift_div_l; lra. }
  remember (300 * t * Rq / Cq)%Q as X eqn:EX.
  assert (HXk : (X * k == t)%Q).
  { rewrite EX, Ek. field. split; intro E; lra. }
  assert (Hck : (c * Cq / (300 * Rq) == c * k)%Q).
  { rewrite Ek. field. intro E; lra. }
  rewrite Hck.
  apply Qabs_Qle_condition in Herr. destruct Herr as [Hlo Hhi].
  apply Qabs_Qle_condition.
  assert (H1 : ((c - X) * k <= (1 + X * (8 * u52)) * k)%Q)
    by (apply Qmult_le_compat_r; lra).
  assert (H2 : (- (1 + X * (8 * u52)) * k <= (c - X) * k)%Q)
    by (apply Qmult_le_compat_r; lra).
  assert (H3 : (X * (8 * u52) * k == t * (8 * u52))%Q).
  { rewrite <- HXk. ring. }
  split.
  - setoid_replace (c * k - t)%Q with ((c - X) * k)%Q by (rewrite <- HXk; ring).
    setoid_replace (- (k + t * (8 * u52)))%Q with (- (1 + X * (8 * u52)) * k)%Q
      by (rewrite <- HXk; ring).
    exact H2.
  - setoid_replace (c * k - t)%Q with ((c - X) * k)%Q by (rewrite <- HXk; ring).
    setoid_replace (k + t * (8 * u52))%Q with ((1 + X * (8 * u52)) * k)%Q
      by (rewrite <- HXk; ring).
    exact H1.
Qed.

Lemma canvas_ratio_near_target_example :
  exists canvas rows cols,
    create_image_mosaic (repeat (plain 1 1 white) 9) ratio_5_76 false = Ok canvas /\
    calculate_grid_size 9 = Ok (rows, cols) /\
    0 < height canvas /\
    (Qabs (inject_Z (width canvas) / inject_Z (height canvas) - F2Q ratio_5_76)
     <= inject_Z cols / inject_Z (BASE_HEIGHT * rows) + F2Q ratio_5_76 * (8 * u52))%Q.
Proof.
  destruct (is_ok_inv
              (create_image_mosaic (repeat (plain 1 1 white) 9) ratio_5_76 false))
    as (canvas & Hrun); [ vm_compute; reflexivity | ].
  destruct (canvas_ratio_near_target (repeat (plain 1 1 white) 9) ratio_5_76 false canvas)
    as (rows & cols & Hg & Hh & Hb);
    try first [ exact Hrun | reflexivity ].
  exists canvas, rows, cols. repeat split; assumption.
Defined.

(** ** C10: a cell of width zero *)

(** C10: one image and the positive ratio 0.001 give the cell ratio 0.001,
    below 1/300, and the cell width [int(300 * 0.001)] = 0.  The canvas is
    allocated 0 wide and 300 high, which takes no room, and on the machine
    of the examples, with either policy, the result of
    [create_image_mosaic] is whatever the resize of the reconciled image
    to the size (0, 300) gives: with a resampler that, as Pillow's does,
    refuses an empty size, the mosaic fails with that [ValueError], an
    error other than the one for an empty input. *)
Theorem degenerate_ratio_gives_zero_width :
  exists images tr L blank,
    images <> [] /\ float_pos tr = true /\
    mosaic_layout (Z.of_nat (List.length images)) tr = Ok L /\
    (F2Q (l_cell_ratio L) < 1 # 300)%Q /\
    l_cell_width L = 0 /\ l_cell_height L = 300 /\
    new (l_cell_width L * l_cols L, l_cell_height L * l_rows L) black = Ok blank /\
    size blank = (0, 300) /\
    (forall (R : Resampler) (crop_mode : bool),
       exists fitted,
         (if crop_mode then resize_with_crop (hd blank images) (l_cell_ratio L)
          else resize_with_padding (hd blank images) (l_cell_ratio L)) = Ok fitted /\
         create_image_mosaic images tr crop_mode =
         (resized <- resize fitted (0, 300) ;; Ok (paste blank resized (0, 0)))) /\
    (forall crop_mode : bool,
       create_image_mosaic (R := nearest) images tr crop_mode =
       Raise (ValueError "height and width must be > 0")).
Proof.
  exists [plain 1 1 white], ratio_1_1000.
  destruct (is_ok_inv (mosaic_layout 1 ratio_1_1000)) as (L & HL);
    [ vm_compute; reflexivity | ].
  exists L, (mkImage 0 300 (fun _ _ => black)).
  split; [ discriminate | split; [ reflexivity | split; [ exact HL | ] ] ].
  vm_compute in HL. inversion HL. subst L. clear HL.
  split; [ reflexivity | ].
  split; [ reflexivity | split; [ reflexivity | split; [ reflexivity | ] ] ].
  split; [ reflexivity | split ].
  - intros R [ | ].
    + eexists. split; [ vm_compute; reflexivity | reflexivity ].
    + eexists. split; [ vm_compute; reflexivity | reflexivity ].
  - intros [ | ]; vm_compute; reflexivity.
Qed.

(* ===================================================================== *)
(** * The grid and the documented formula *)
(* ===================================================================== *)

(** [math.sqrt] of a small integer is a faithful square root. *)
Lemma math_sqrt_faithful n :
  1 <= n < 2 ^ 53 ->
  exists r, math_sqrt n = Ok r /\ fin_nonneg r = true /\
    (forall a, fin_nonneg a = true -> (F2Q a * F2Q a <= inject_Z n)%Q ->
               (F2Q a <= F2Q r)%Q) /\
    (forall b, fin_nonneg b = true -> (inject_Z n <= F2Q b * F2Q b)%Q ->
               (F2Q r <= F2Q b)%Q).
Proof.
  intros Hn. unfold math_sqrt.
  destruct (float_of_int_exact n ltac:(lia)) as (f & Hf & Hfn & Hv).
  rewrite Hf. simpl bind.
  assert (Hn1 : (1 <= inject_Z n)%Q) by (apply inject_Z_ge1; lia).
  destruct f as [ s | s | | [ | ] m e ]; simpl in Hfn; try discriminate Hfn.
  { simpl in Hv. lra. }
  rewrite F2Q_finite in Hv.
  destruct (sqrt_faithful m e) as (_ & Hlo & Hup).
  set (r := SFsqrt prec emax (S754_finite false m e)) in *.
  destruct (Hup (S754_finite false m e) Hfn) as [Hfin Hle].
  { rewrite F2Q_finite, Hv. nra. }
  exists r. split; [ destruct r; try reflexivity; discriminate Hfin | ].
  split; [ exact Hfin | split ].
  - intros a Ha Hsq. destruct (Hlo a Ha) as [Hinf | Hge]; [ now rewrite Hv | | exact Hge ].
    rewrite Hinf in Hfin. discriminate Hfin.
  - intros b Hb Hsq. destruct (Hup b Hb) as [_ H]; [ now rewrite Hv | exact H ].
Qed.

(** The integer square root rounded up. *)
Lemma ceil_sqrt_spec n :
  2 <= n -> let c := ceil_sqrt n in 2 <= c /\ (c - 1) * (c - 1) < n <= c * c.
Proof.
  intros Hn. unfold ceil_sqrt.
  pose proof (Z.sqrt_spec n ltac:(lia)) as Hs. cbv zeta in Hs.
  set (s := Z.sqrt n) in *.
  assert (Hs1 : 1 <= s).
  { destruct (Z_lt_le_dec s 1); [ exfalso | assumption ].
    unfold Z.succ in Hs. nia. }
  unfold Z.succ in Hs.
  destruct (Z.eqb_spec (s * s) n) as [E | NE].
  - split; [ nia | nia ].
  - split; [ lia | ]. replace (s + 1 - 1) with s by lia. nia.
Qed.

Lemma ceil_div_spec a b :
  0 < b -> let q := ceil_div a b in (q - 1) * b < a <= q * b.
Proof.
  intros Hb. unfold ceil_div. cbv zeta.
  pose proof (Z.div_mod (- a) b ltac:(lia)) as Hd.
  pose proof (Z.mod_pos_bound (- a) b Hb) as Hm.
  nia.
Qed.

(** For up to [2^50] images the float computation of the grid gives exactly
    the ceilings of the documented formula. *)
Lemma calculate_grid_size_formula n :
  2 <= n < 2 ^ 50 ->
  calculate_grid_size n = Ok (ceil_div n (ceil_sqrt n), ceil_sqrt n).
Proof.
  intros Hn. unfold calculate_grid_size.
  destruct (Z.leb_spec n 1); [ lia | ].
  destruct (ceil_sqrt_spec n ltac:(lia)) as (Hc2 & Hclo & Hchi).
  set (c0 := ceil_sqrt n) in *.
  assert (Hc0 : c0 <= 2 ^ 25).
  { destruct (Z_le_gt_dec c0 (2 ^ 25)); [ assumption | exfalso ].
    assert (2 ^ 25 * 2 ^ 25 <= (c0 - 1) * (c0 - 1)) by nia.
    change (2 ^ 25 * 2 ^ 25) with (2 ^ 50) in *. lia. }
  destruct (math_sqrt_faithful n ltac:(lia)) as (root & Hroot & Hrf & Hlo & Hup).
  rewrite Hroot. simpl bind.
  destruct (math_ceil_spec root Hrf) as (cols & Hc & Hcn & Hcl & Hch).
  rewrite Hc. simpl bind.
  (* the root is at most c0 *)
  assert (Hr_hi : (F2Q root <= inject_Z c0)%Q).
  { destruct (representable_int c0 ltac:(lia)) as (b & Hb & Hvb).
    rewrite <- Hvb. apply Hup; [ exact Hb | ].
    rewrite Hvb, <- inject_Z_mult, <- Zle_Qle. lia. }
  (* and above c0 - 1 *)
  assert (Hr_lo : (inject_Z (c0 - 1) < F2Q root)%Q).
  { set (j := Zdigits2 c0 + 1).
    destruct (Zdigits2_bounds c0 ltac:(lia)) as [Hjlo Hjhi].
    pose proof (Zdigits2_pos c0 ltac:(lia)) as Hjpos.
    assert (Hj : Zdigits2 c0 <= 26).
    { apply Zdigits2_le_of_lt; [ lia | ].
      apply Z.le_lt_trans with (2 ^ 25); [ exact Hc0 | reflexivity ]. }
    assert (H2j : 2 ^ j = 2 * 2 ^ Zdigits2 c0).
    { unfold j. rewrite Z.pow_add_r by lia. change (2 ^ 1) with 2. lia. }
    assert (H2d : 2 ^ Zdigits2 c0 = 2 * 2 ^ (Zdigits2 c0 - 1)).
    { replace (Zdigits2 c0) with (Z.succ (Zdigits2 c0 - 1)) at 1 by lia.
      apply Z.pow_succ_r. lia. }
    set (P := 2 ^ j) in *.
    assert (HP : 2 * c0 < P <= 4 * c0) by lia.
    set (M := (c0 - 1) * P + 1).
    assert (HM : 0 < M < 2 ^ 53).
    { unfold M. split; [ nia | ].
      assert ((c0 - 1) * P + 1 <= 2 ^ 25 * (4 * 2 ^ 25)) by nia.
      change (2 ^ 25 * (4 * 2 ^ 25)) with (2 ^ 52) in *.
      assert (2 ^ 52 < 2 ^ 53) by reflexivity. lia. }
    destruct (representable M (- j)) as (a & Ha & Hva); try (unfold j; lia).
    { assert (Zdigits2 M <= 53) by (apply Zdigits2_le_of_lt; lia). unfold j. lia. }
    assert (Hale : (F2Q a <= F2Q root)%Q).
    { apply Hlo; [ exact Ha | ]. rewrite Hva, dy_mul, <- (dy_int n).
      apply dy_le_hi; [ unfold j; lia | ].
      replace (0 - (- j + - j)) with (j + j) by lia.
      rewrite Z.pow_add_r by (unfold j; lia). fold P. unfold M.
      assert (HPP : 0 <= P * P) by (apply Z.mul_nonneg_nonneg; lia).
      assert (H1 : ((c0 - 1) * (c0 - 1) + 1) * (P * P) <= n * (P * P))
        by (apply Z.mul_le_mono_nonneg_r; lia).
      assert (H2 : (2 * c0 + 1) * P <= P * P)
        by (apply Z.mul_le_mono_nonneg_r; lia).
      lia. }
    assert (Hgt : (inject_Z (c0 - 1) < F2Q a)%Q).
    { rewrite Hva, <- (dy_int (c0 - 1)). apply dy_lt_lo; [ unfold j; lia | ].
      replace (0 - - j) with j by lia. fold P. unfold M. lia. }
    lra. }
  assert (Ecols : cols = c0).
  { assert (cols - 1 < c0).
    { destruct Hcl as [Hcl | ->]; [ | lia ]. rewrite Zlt_Qlt. lra. }
    assert (c0 - 1 < cols) by (rewrite Zlt_Qlt; lra).
    lia. }
  subst cols.
  destruct (int_truediv_ok n c0 ltac:(lia) ltac:(lia)) as (quot & Hq & Hqf & Hfa).
  rewrite Hq. simpl bind.
  destruct (math_ceil_spec quot Hqf) as (rows & Hr & Hr0 & Hrlo & Hrhi).
  rewrite Hr. simpl bind.
  destruct (ceil_div_spec n c0 ltac:(lia)) as (Hdlo & Hdhi).
  set (r0 := ceil_div n c0) in *.
  assert (Hcq : (0 < inject_Z c0)%Q) by (apply inject_Z_pos; lia).
  destruct Hfa as (_ & Hflo & Hfup).
  assert (Hr0b : 0 < r0 <= n) by nia.
  (* the quotient is at most r0 *)
  assert (Hq_hi : (F2Q quot <= inject_Z r0)%Q).
  { destruct (representable_int r0 ltac:(lia)) as (b & Hb & Hvb).
    rewrite <- Hvb. apply Hfup; [ exact Hb | ].
    rewrite Hvb. apply Qle_shift_div_r; [ exact Hcq | ].
    rewrite <- inject_Z_mult, <- Zle_Qle. lia. }
  (* and above r0 - 1 *)
  assert (Hq_lo : (inject_Z (r0 - 1) < F2Q quot)%Q).
  { set (j := Zdigits2 c0).
    destruct (Zdigits2_bounds c0 ltac:(lia)) as [Hjlo Hjhi]. fold j in Hjlo, Hjhi.
    pose proof (Zdigits2_pos c0 ltac:(lia)) as Hjpos. fold j in Hjpos.
    assert (Hj : j <= 26).
    { apply Zdigits2_le_of_lt; [ lia | ].
      apply Z.le_lt_trans with (2 ^ 25); [ exact Hc0 | reflexivity ]. }
    assert (H2j : 2 ^ j = 2 * 2 ^ (j - 1)).
    { replace j with (Z.succ (j - 1)) at 1 by lia. apply Z.pow_succ_r. lia. }
    set (P := 2 ^ j) in *.
    set (M := (r0 - 1) * P + 1).
    assert (Hr0c : r0 <= c0) by nia.
    assert (HM : 0 < M < 2 ^ 53).
    { unfold M. split; [ nia | ].
      assert ((r0 - 1) * P <= (2 ^ 25 - 1) * P)
        by (apply Z.mul_le_mono_nonneg_r; lia).
      assert (2 ^ 25 * P <= 2 ^ 25 * (2 * 2 ^ 25))
        by (apply Z.mul_le_mono_nonneg_l; lia).
      assert ((r0 - 1) * P + 1 <= 2 ^ 25 * (2 * 2 ^ 25)) by lia.
      change (2 ^ 25 * (2 * 2 ^ 25)) with (2 ^ 51) in *.
      assert (2 ^ 51 < 2 ^ 53) by reflexivity. lia. }
    destruct (representable M (- j)) as (a & Ha & Hva); try lia.
    { assert (Zdigits2 M <= 53) by (apply Zdigits2_le_of_lt; lia). lia. }
    destruct (Hflo a Ha) as [Hinf | Hge].
    { rewrite Hva. apply Qle_shift_div_l; [ exact Hcq | ].
      rewrite <- (dy_int c0), <- (dy_int n), dy_mul.
      apply dy_le_hi; [ lia | ]. replace (0 - (- j + 0)) with j by lia.
      fold P. unfold M.
      assert (H1 : (r0 - 1) * c0 * P <= (n - 1) * P)
        by (apply Z.mul_le_mono_nonneg_r; lia).
      lia. }
    { rewrite Hinf in Hqf. discriminate Hqf. }
    assert (Hgt : (inject_Z (r0 - 1) < F2Q a)%Q).
    { rewrite Hva, <- (dy_int (r0 - 1)). apply dy_lt_lo; [ lia | ].
      replace (0 - - j) with j by lia. fold P. unfold M. lia. }
    lra. }
  assert (Erows : rows = r0).
  { assert (rows - 1 < r0).
    { destruct Hrlo as [Hrlo | ->]; [ | lia ]. rewrite Zlt_Qlt. lra. }
    assert (r0 - 1 < rows) by (rewrite Zlt_Qlt; lra).
    lia. }
  subst rows. reflexivity.
Qed.

(** X1: the grid is the one of the documented formula, [cols = ceil(sqrt(n))]
    and [rows = ceil(n / cols)] in exact integer arithmetic, for every
    count below [2^50]: the float square root and the float quotient never
    round across an integer there. *)
Theorem grid_matches_formula n :
  0 <= n < 2 ^ 50 -> calculate_grid_size n = Ok (grid_formula n).
Proof.
  intros Hn. unfold grid_formula.
  destruct (Z.leb_spec n 1) as [Hle | Hgt].
  - unfold calculate_grid_size. destruct (Z.leb_spec n 1); [ reflexivity | lia ].
  - apply calculate_grid_size_formula. lia.
Qed.

Lemma grid_matches_formula_example :
  calculate_grid_size 1000 = Ok (grid_formula 1000) /\ grid_formula 1000 = (32, 32).
Proof.
  split; [ apply (grid_matches_formula 1000); split; [ discriminate | reflexivity ]
         | reflexivity ].
Defined.

(** X2: the grid is as square as the count allows and has no empty row: the
    columns are the least number whose square holds the images, the rows
    the least number of rows of that length that hold them, and the rows
    are the columns or one fewer. *)
Theorem grid_is_near_square n :
  2 <= n < 2 ^ 50 ->
  exists rows cols,
    calculate_grid_size n = Ok (rows, cols) /\
    (cols - 1) * (cols - 1) < n <= cols * cols /\
    (rows - 1) * cols < n <= rows * cols /\
    cols - 1 <= rows <= cols.
Proof.
  intros Hn. exists (ceil_div n (ceil_sqrt n)), (ceil_sqrt n).
  split; [ apply calculate_grid_size_formula; exact Hn | ].
  destruct (ceil_sqrt_spec n ltac:(lia)) as (Hc2 & Hclo & Hchi).
  set (c := ceil_sqrt n) in *.
  destruct (ceil_div_spec n c ltac:(lia)) as (Hdlo & Hdhi).
  set (r := ceil_div n c) in *.
  split; [ lia | split; [ lia | ] ].
  split; nia.
Qed.

Lemma grid_is_near_square_example :
  exists rows cols,
    calculate_grid_size 5 = Ok (rows, cols) /\
    (cols - 1) * (cols - 1) < 5 <= cols * cols /\
    (rows - 1) * cols < 5 <= rows * cols /\
    cols - 1 <= rows <= cols.
Proof. apply (grid_is_near_square 5). split; [ discriminate | reflexivity ]. Defined.

(* ===================================================================== *)
(** * The pixels of the mosaic *)
(* ===================================================================== *)

(** Two cells that share a pixel are the same cell. *)
Lemma in_cell_inj L j k x y :
  0 < l_cols L -> in_cell L j x y -> in_cell L k x y -> j = k.
Proof.
  unfold in_cell. cbv zeta. intros Hc [Hjx Hjy] [Hkx Hky].
  pose proof (Z.div_mod j (l_cols L) ltac:(lia)) as Hj.
  pose proof (Z.div_mod k (l_cols L) ltac:(lia)) as Hk.
  set (a := j mod l_cols L) in *. set (b := k mod l_cols L) in *.
  set (p := j / l_cols L) in *. set (q := k / l_cols L) in *.
  clearbody a b p q.
  assert (a = b) by nia. assert (p = q) by nia. subst b q. lia.
Qed.

Lemma inside_false_outside im x y :
  ~ (0 <= x < width im /\ 0 <= y < height im) -> inside im x y = false.
Proof.
  intros H. unfold inside.
  destruct (Z.leb_spec 0 x); destruct (Z.ltb_spec x (width im));
    destruct (Z.leb_spec 0 y); destruct (Z.ltb_spec y (height im));
    try reflexivity.
  exfalso. apply H. lia.
Qed.

Section MosaicPixels.

Context {R : Resampler} {M : Memory}.

Lemma fit_cell_size crop_mode L img fitted :
  fit_cell crop_mode L img = Ok fitted ->
  width fitted = l_cell_width L /\ height fitted = l_cell_height L.
Proof.
  unfold fit_cell. intros H. apply bind_inv in H as (resized & _ & H).
  apply resize_size in H.
  pose proof (f_equal fst H) as Hw. pose proof (f_equal snd H) as Hh.
  split; assumption.
Qed.

(** The loop writes the fitted image number [idx + i] into its cell and
    leaves every pixel outside the cells of its images as it found it. *)
Lemma place_images_pixels crop_mode L : forall images idx canvas out,
  0 < l_cols L -> 0 <= idx ->
  idx + Z.of_nat (List.length images) <= l_rows L * l_cols L ->
  place_images crop_mode L idx images canvas = Ok out ->
  (forall i img, nth_error images i = Some img ->
     exists fitted,
       fit_cell crop_mode L img = Ok fitted /\
       forall x y, 0 <= x < l_cell_width L -> 0 <= y < l_cell_height L ->
         getpixel out ((idx + Z.of_nat i) mod l_cols L * l_cell_width L + x)
                      ((idx + Z.of_nat i) / l_cols L * l_cell_height L + y)
         = getpixel fitted x y) /\
  (forall x y,
     (forall j, idx <= j < idx + Z.of_nat (List.length images) -> ~ in_cell L j x y) ->
     getpixel out x y = getpixel canvas x y).
Proof.
  induction images as [ | hd rest IH ]; intros idx canvas out Hc Hidx Hn Hrun.
  - simpl in Hrun. inversion Hrun. subst out. split.
    + intros i img Hi. destruct i; discriminate Hi.
    + reflexivity.
  - simpl List.length in Hn |- *. rewrite Nat2Z.inj_succ in Hn |- *.
    simpl place_images in Hrun.
    destruct (Z.geb_spec idx (l_rows L * l_cols L)); [ lia | ].
    unfold int_floordiv, int_mod in Hrun.
    destruct (Z.eqb_spec (l_cols L) 0); [ lia | ].
    rewrite !bind_ok in Hrun.
    apply bind_inv in Hrun as (resized & Hfit & Hrest). cbv beta zeta in Hrest.
    destruct (fit_cell_size _ _ _ _ Hfit) as [Hw Hh].
    destruct (IH (idx + 1) _ out Hc ltac:(lia) ltac:(lia) Hrest) as [IH1 IH2].
    assert (Hin : forall x y,
               inside resized (x - idx mod l_cols L * l_cell_width L)
                              (y - idx / l_cols L * l_cell_height L) = true ->
               in_cell L idx x y).
    { intros x y Hins. unfold inside in Hins. rewrite Hw, Hh in Hins.
      apply andb_prop in Hins as [H' H4]. apply andb_prop in H' as [H'' H3].
      apply andb_prop in H'' as [H1 H2].
      apply Z.leb_le in H1, H3. apply Z.ltb_lt in H2, H4.
      unfold in_cell. cbv zeta. lia. }
    split.
    + intros i img Hi. destruct i as [ | i ].
      * simpl in Hi. inversion Hi. subst img. exists resized.
        split; [ exact Hfit | ]. intros x y Hx Hy.
        change (Z.of_nat 0) with 0. rewrite Z.add_0_r.
        rewrite IH2.
        -- cbn [getpixel].
           replace (idx mod l_cols L * l_cell_width L + x
                    - idx mod l_cols L * l_cell_width L) with x by lia.
           replace (idx / l_cols L * l_cell_height L + y
                    - idx / l_cols L * l_cell_height L) with y by lia.
           rewrite inside_true by lia. reflexivity.
        -- intros j Hj Hcell.
           assert (Hself : in_cell L idx
                             (idx mod l_cols L * l_cell_width L + x)
                             (idx / l_cols L * l_cell_height L + y))
             by (unfold in_cell; cbv zeta; lia).
           pose proof (in_cell_inj L j idx _ _ Hc Hcell Hself). lia.
      * simpl in Hi. destruct (IH1 i img Hi) as (fitted & Hf & Hp).
        exists fitted. split; [ exact Hf | ]. intros x y Hx Hy.
        rewrite Nat2Z.inj_succ.
        replace (idx + Z.succ (Z.of_nat i)) with (idx + 1 + Z.of_nat i) by lia.
        apply Hp; assumption.
    + intros x y Hout. rewrite IH2.
      * cbn [getpixel].
        destruct (inside resized (x - idx mod l_cols L * l_cell_width L)
                                 (y - idx / l_cols L * l_cell_height L)) eqn:E;
          [ | reflexivity ].
        exfalso. apply (Hout idx); [ lia | ]. apply Hin. exact E.
      * intros j Hj. apply Hout. lia.
Qed.

End MosaicPixels.

(** The canvas that [create_image_mosaic] returns, cell by cell. *)
Lemma create_image_mosaic_cells {R : Resampler} {M : Memory}
        images tr crop_mode canvas :
  Z.of_nat (List.length images) < 2 ^ 52 ->
  create_image_mosaic images tr crop_mode = Ok canvas ->
  exists L,
    mosaic_layout (Z.of_nat (List.length images)) tr = Ok L /\
    (forall i img, nth_error images i = Some img ->
       exists fitted,
         fit_cell crop_mode L img = Ok fitted /\
         forall x y, 0 <= x < l_cell_width L -> 0 <= y < l_cell_height L ->
           getpixel canvas (Z.of_nat i mod l_cols L * l_cell_width L + x)
                           (Z.of_nat i / l_cols L * l_cell_height L + y)
           = getpixel fitted x y) /\
    (forall x y,
       (forall i, 0 <= i < Z.of_nat (List.length images) -> ~ in_cell L i x y) ->
       getpixel canvas x y = black).
Proof.
  intros Hn Hrun.
  destruct (create_image_mosaic_inv _ _ _ _ Hrun) as (L & blank & _ & HL & Hb & Hp).
  exists L. split; [ exact HL | ].
  destruct (mosaic_layout_inv _ _ _ HL) as (_ & _ & Hg & _).
  destruct (calculate_grid_size_total (Z.of_nat (List.length images)) ltac:(lia))
    as (rows & cols & Hg' & Hr & Hc & Hcov & _).
  rewrite Hg in Hg'. inversion Hg' as [[Er Ec]].
  destruct (place_images_pixels crop_mode L images 0 blank canvas
              ltac:(lia) ltac:(lia) ltac:(lia) Hp) as [H1 H2].
  split.
  - intros i img Hi. destruct (H1 i img Hi) as (fitted & Hf & Hpix).
    exists fitted. split; [ exact Hf | exact Hpix ].
  - intros x y Hout. rewrite H2 by (intros j Hj; apply Hout; lia).
    destruct (new_inv _ _ _ _ Hb) as (_ & _ & ->). reflexivity.
Qed.

(** X3: every image is fitted and lands in its cell, in row-major order: for
    fewer than [2^52] images, when [create_image_mosaic] returns a canvas,
    each image number [i] was reconciled and resized to the cell size
    without error (none was skipped by the [break] of the loop), and the
    pixels of the cell in column [i % cols] and row [i // cols] of the
    canvas are the pixels of that resized image. *)
Theorem mosaic_pixels_row_major {R : Resampler} {M : Memory}
        images tr crop_mode canvas :
  Z.of_nat (List.length images) < 2 ^ 52 ->
  create_image_mosaic images tr crop_mode = Ok canvas ->
  exists L,
    mosaic_layout (Z.of_nat (List.length images)) tr = Ok L /\
    forall i img, nth_error images i = Some img ->
      exists fitted,
        fit_cell crop_mode L img = Ok fitted /\
        size fitted = (l_cell_width L, l_cell_height L) /\
        forall x y, 0 <= x < l_cell_width L -> 0 <= y < l_cell_height L ->
          getpixel canvas (Z.of_nat i mod l_cols L * l_cell_width L + x)
                          (Z.of_nat i / l_cols L * l_cell_height L + y)
          = getpixel fitted x y.
Proof.
  intros Hn Hrun.
  destruct (create_image_mosaic_cells images tr crop_mode canvas Hn Hrun)
    as (L & HL & Hcells & _).
  exists L. split; [ exact HL | ].
  intros i img Hi. destruct (Hcells i img Hi) as (fitted & Hf & Hpix).
  exists fitted. split; [ exact Hf | split; [ | exact Hpix ] ].
  destruct (fit_cell_size _ _ _ _ Hf) as [Hw Hh]. unfold size. now rewrite Hw, Hh.
Qed.

Lemma mosaic_pixels_row_major_example :
  exists canvas,
    create_image_mosaic [plain 4 3 white; plain 2 5 white] ratio_16_9 true = Ok canvas /\
    getpixel canvas 266 0 = white /\ getpixel canvas 531 299 = white.
Proof.
  destruct (is_ok_inv
              (create_image_mosaic [plain 4 3 white; plain 2 5 white] ratio_16_9 true))
    as (canvas & Hrun); [ vm_compute; reflexivity | ].
  exists canvas. split; [ exact Hrun | ].
  destruct (mosaic_pixels_row_major [plain 4 3 white; plain 2 5 white] ratio_16_9 true
              canvas eq_refl Hrun) as (L & HL & Hpix).
  vm_compute in HL. inversion HL. subst L. clear HL.
  destruct (Hpix 1%nat (plain 2 5 white) eq_refl) as (fitted & Hfit & _ & Hp).
  vm_compute in Hfit. inversion Hfit. subst fitted. clear Hfit.
  split.
  - apply (Hp 0 0); split; reflexivity || discriminate.
  - apply (Hp 265 299); split; reflexivity || discriminate.
Defined.

(** X4: what no image covers stays black: a pixel of the returned canvas that
    lies in the cell of no image has the colour of the ground. *)
Theorem mosaic_ground_is_black {R : Resampler} {M : Memory}
        images tr crop_mode canvas :
  Z.of_nat (List.length images) < 2 ^ 52 ->
  create_image_mosaic images tr crop_mode = Ok canvas ->
  exists L,
    mosaic_layout (Z.of_nat (List.length images)) tr = Ok L /\
    forall x y,
      (forall i, 0 <= i < Z.of_nat (List.length images) -> ~ in_cell L i x y) ->
      getpixel canvas x y = black.
Proof.
  intros Hn Hrun.
  destruct (create_image_mosaic_cells images tr crop_mode canvas Hn Hrun)
    as (L & HL & _ & Hground).
  exists L. split; [ exact HL | exact Hground ].
Qed.

Lemma mosaic_ground_is_black_example :
  exists canvas,
    create_image_mosaic (repeat (plain 1 1 white) 3) ratio_1_1 true = Ok canvas /\
    size canvas = (600, 600) /\
    getpixel canvas 10 10 = white /\ getpixel canvas 310 310 = black.
Proof.
  destruct (is_ok_inv
              (create_image_mosaic (repeat (plain 1 1 white) 3) ratio_1_1 true))
    as (canvas & Hrun); [ vm_compute; reflexivity | ].
  exists canvas. split; [ exact Hrun | ].
  destruct (mosaic_ground_is_black (repeat (plain 1 1 white) 3) ratio_1_1 true
              canvas eq_refl Hrun) as (L & HL & Hground).
  destruct (create_image_mosaic_size _ _ _ _ Hrun) as (L' & HL' & Hsize & _).
  rewrite HL in HL'. inversion HL'. subst L'. clear HL'.
  vm_compute in HL. inversion HL. subst L. clear HL.
  split; [ exact Hsize | split ].
  - vm_compute in Hrun. inversion Hrun. reflexivity.
  - apply Hground. intros i Hi. unfold in_cell. cbv zeta. simpl.
    assert (i = 0 \/ i = 1 \/ i = 2) as [-> | [-> | ->]] by (simpl in Hi; lia);
      vm_compute; intros [[H1 H2] [H3 H4]];
      first [ now apply H1 | discriminate H2 | now apply H3 | discriminate H4 ].
Defined.

(** X5: a single image fills the canvas: the grid is one cell, the canvas has
    the size of the image fitted to that cell, and holds its pixels. *)
Theorem single_image_fills_canvas {R : Resampler} {M : Memory}
        img tr crop_mode canvas :
  create_image_mosaic [img] tr crop_mode = Ok canvas ->
  exists L fitted,
    mosaic_layout 1 tr = Ok L /\ l_rows L = 1 /\ l_cols L = 1 /\
    fit_cell crop_mode L img = Ok fitted /\
    size canvas = size fitted /\
    forall x y, inside canvas x y = true -> getpixel canvas x y = getpixel fitted x y.
Proof.
  intros Hrun.
  destruct (create_image_mosaic_cells [img] tr crop_mode canvas eq_refl Hrun)
    as (L & HL & Hpix & _).
  destruct (create_image_mosaic_size _ _ _ _ Hrun) as (L' & HL' & Hsize & _).
  rewrite HL in HL'. inversion HL'. subst L'. clear HL'.
  change (Z.of_nat (List.length [img])) with 1 in HL.
  destruct (mosaic_layout_inv _ _ _ HL) as (_ & _ & Hg & _ & _ & _ & _ & Hh).
  change (calculate_grid_size 1) with (Ok (A := Z * Z) (1, 1)) in Hg.
  inversion Hg as [[Er Ec]].
  destruct (Hpix 0%nat img eq_refl) as (fitted & Hf & Hp).
  assert (Hsz : size fitted = (l_cell_width L, l_cell_height L)).
  { destruct (fit_cell_size _ _ _ _ Hf) as [Hfw Hfh]. unfold size. now rewrite Hfw, Hfh. }
  exists L, fitted.
  split; [ exact HL | split; [ now symmetry | split; [ now symmetry | ] ] ].
  split; [ exact Hf | ].
  rewrite <- Er, <- Ec in *.
  pose proof (f_equal fst Hsize) as Hcw. pose proof (f_equal snd Hsize) as Hch.
  cbn [fst snd size] in Hcw, Hch.
  split.
  - rewrite Hsize, Hsz, Hh. f_equal; lia.
  - intros x y Hin. unfold inside in Hin.
    apply andb_prop in Hin as [Hin' H4]. apply andb_prop in Hin' as [Hin'' H3].
    apply andb_prop in Hin'' as [H1 H2].
    apply Z.leb_le in H1, H3. apply Z.ltb_lt in H2, H4.
    specialize (Hp x y ltac:(lia) ltac:(lia)).
    change (Z.of_nat 0 mod 1) with 0 in Hp. change (Z.of_nat 0 / 1) with 0 in Hp.
    rewrite !Z.mul_0_l, !Z.add_0_l in Hp. exact Hp.
Qed.

Lemma single_image_fills_canvas_example :
  exists canvas,
    create_image_mosaic [plain 4 3 white] ratio_1_1 false = Ok canvas /\
    size canvas = (300, 300) /\
    getpixel canvas 150 0 = white /\ getpixel canvas 150 299 = black.
Proof.
  destruct (is_ok_inv (create_image_mosaic [plain 4 3 white] ratio_1_1 false))
    as (canvas & Hrun); [ vm_compute; reflexivity | ].
  exists canvas. split; [ exact Hrun | ].
  destruct (single_image_fills_canvas _ _ _ _ Hrun)
    as (L & fitted & HL & _ & _ & Hf & Hsize & Hpix).
  vm_compute in HL. inversion HL. subst L. clear HL.
  match type of Hf with
  | fit_cell ?c ?l ?i = _ =>
      assert (E : (f <- fit_cell c l i ;;
                   Ok (size f, getpixel f 150 0, getpixel f 150 299))
                  = Ok ((300, 300), white, black))
        by (vm_compute; reflexivity)
  end.
  rewrite Hf, bind_ok in E. injection E as Ew Eh E0 E1.
  unfold size in Hsize. rewrite Ew, Eh in Hsize.
  pose proof (f_equal fst Hsize) as Hw. pose proof (f_equal snd Hsize) as Hh.
  cbn [fst snd] in Hw, Hh.
  split; [ exact Hsize | split ].
  - rewrite Hpix; [ exact E0 | unfold inside; rewrite Hw, Hh; reflexivity ].
  - rewrite Hpix; [ exact E1 | unfold inside; rewrite Hw, Hh; reflexivity ].
Defined.

(* ===================================================================== *)
(** * The ratio parser on other inputs *)
(* ===================================================================== *)

(** The only exception of [decimal_float] is [ValueError]. *)
Lemma decimal_float_raises s e :
  decimal_float s = Raise e -> exists msg, e = ValueError msg.
Proof.
  unfold decimal_float.
  repeat match goal with
         | |- context [ match ?x with _ => _ end ] => destruct x
         end;
    intros H; try discriminate H; inversion H; eauto.
Qed.

(** X6: two numbers with a non-zero second one: the ratio is their float
    quotient, a faithful rounding of width over height when both are
    positive and finite. *)
Theorem parse_ratio_of_two_numbers
        (float_of_string : string -> result float) s ws hs w h :
  split_on ":"%char s = [ws; hs] ->
  float_of_string ws = Ok w ->
  float_of_string hs = Ok h ->
  float_is_zero h = false ->
  parse_aspect_ratio float_of_string s = Ok (SFdiv prec emax w h) /\
  (valid w = true -> pos_finite w = true ->
   valid h = true -> pos_finite h = true ->
   faithful (F2Q w / F2Q h) (SFdiv prec emax w h)).
Proof.
  intros Hsplit Hw Hh Hz. split.
  - unfold parse_aspect_ratio, unpack_two_floats.
    rewrite Hsplit, Hw, bind_ok, Hh, bind_ok. simpl bind.
    unfold float_truediv. rewrite Hz. reflexivity.
  - intros Hvw Hpw Hvh Hph.
    destruct w as [ | | | [ | ] mw ew ]; try discriminate Hpw.
    destruct h as [ | | | [ | ] mh eh ]; try discriminate Hph.
    rewrite !F2Q_finite. apply div_faithful.
Qed.

Lemma parse_ratio_of_two_numbers_example :
  parse_aspect_ratio decimal_float "16:9" = Ok ratio_16_9 /\
  faithful (16 / 9) ratio_16_9.
Proof.
  destruct (parse_ratio_of_two_numbers decimal_float "16:9" "16" "9"
              (S754_finite false 4503599627370496 (-48))
              (S754_finite false 5066549580791808 (-49)))
    as [Hrun Hval]; try reflexivity.
  split; [ exact Hrun | ].
  apply (faithful_ext (F2Q (S754_finite false 4503599627370496 (-48)) /
                       F2Q (S754_finite false 5066549580791808 (-49)))).
  - reflexivity.
  - apply Hval; reflexivity.
Defined.

(** X7: text that is not two numbers separated by one colon gets the
    [ArgumentTypeError] of the module, whatever part of it is at fault,
    since the built-in [float] raises nothing but [ValueError]. *)
Theorem parse_ratio_malformed (float_of_string : string -> result float) s :
  (forall x e, float_of_string x = Raise e -> exists msg, e = ValueError msg) ->
  (forall ws hs, split_on ":"%char s = [ws; hs] ->
                 is_ok (float_of_string ws) && is_ok (float_of_string hs) = false) ->
  parse_aspect_ratio float_of_string s =
  Raise (ArgumentTypeError "Aspect ratio must be in format W:H (e.g., 16:9)").
Proof.
  intros Hexn Hbad. unfold parse_aspect_ratio, unpack_two_floats.
  destruct (split_on ":"%char s) as [ | a [ | b [ | c rest ] ] ].
  - reflexivity.
  - destruct (float_of_string a) as [w | e] eqn:Ea; [ reflexivity | ].
    destruct (Hexn a e Ea) as (msg & ->). reflexivity.
  - specialize (Hbad a b eq_refl).
    destruct (float_of_string a) as [w | e] eqn:Ea.
    + destruct (float_of_string b) as [h | e] eqn:Eb; [ discriminate Hbad | ].
      destruct (Hexn b e Eb) as (msg & ->). reflexivity.
    + destruct (Hexn a e Ea) as (msg & ->). reflexivity.
  - destruct (float_of_string a) as [w | e] eqn:Ea.
    + destruct (float_of_string b) as [h | e] eqn:Eb.
      * destruct (float_of_string c) as [x | e] eqn:Ec; [ reflexivity | ].
        destruct (Hexn c e Ec) as (msg & ->). reflexivity.
      * destruct (Hexn b e Eb) as (msg & ->). reflexivity.
    + destruct (Hexn a e Ea) as (msg & ->). reflexivity.
Qed.

Lemma parse_ratio_malformed_example :
  parse_aspect_ratio decimal_float "abc:9" =
    Raise (ArgumentTypeError "Aspect ratio must be in format W:H (e.g., 16:9)") /\
  parse_aspect_ratio decimal_float "16-9" =
    Raise (ArgumentTypeError "Aspect ratio must be in format W:H (e.g., 16:9)") /\
  parse_aspect_ratio decimal_float "4:3:0" =
    Raise (ArgumentTypeError "Aspect ratio must be in format W:H (e.g., 16:9)").
Proof.
  split; [ | split; vm_compute; reflexivity ].
  apply (parse_ratio_malformed decimal_float "abc:9").
  - exact decimal_float_raises.
  - intros ws hs E. vm_compute in E. inversion E. reflexivity.
Defined.

(* ===================================================================== *)
(** * Padding loses nothing *)
(* ===================================================================== *)

(** X8: cropping the padded image back to the size of the source, at the
    offset where the source was pasted, gives the source again, pixel for
    pixel. *)
Theorem padding_is_lossless {M : Memory} img tr out :
  0 < width img <= INT_MAX -> 0 < height img <= INT_MAX ->
  valid tr = true -> pos_finite tr = true ->
  resize_with_padding img tr = Ok out ->
  let paste_x := (width out - width img) / 2 in
  let paste_y := (height out - height img) / 2 in
  exists back,
    crop out (paste_x, paste_y, paste_x + width img, paste_y + height img) = Ok back /\
    size back = size img /\
    forall x y, inside img x y = true -> getpixel back x y = getpixel img x y.
Proof.
  intros Hw Hh Hv Hp Hrun paste_x paste_y.
  destruct (resize_with_padding_spec img tr out Hw Hh Hv Hp Hrun)
    as (cr & _ & Hc & _).
  destruct Hc as (Hwd & Hht & _ & Hpix & _). fold paste_x paste_y in Hpix.
  rewrite crop_ok by lia. eexists. split; [ reflexivity | ].
  split; [ unfold size; simpl; f_equal; lia | ].
  intros x y Hin. unfold inside in Hin.
  apply andb_prop in Hin as [Hin' H4]. apply andb_prop in Hin' as [Hin'' H3].
  apply andb_prop in Hin'' as [H1 H2].
  apply Z.leb_le in H1, H3. apply Z.ltb_lt in H2, H4.
  cbn [getpixel].
  assert (Hpx : 0 <= paste_x /\ paste_x + width img <= width out).
  { unfold paste_x. split; [ apply Z.div_pos; lia | ].
    pose proof (Z.div_mod (width out - width img) 2 ltac:(lia)).
    pose proof (Z.mod_pos_bound (width out - width img) 2 ltac:(lia)). lia. }
  assert (Hpy : 0 <= paste_y /\ paste_y + height img <= height out).
  { unfold paste_y. split; [ apply Z.div_pos; lia | ].
    pose proof (Z.div_mod (height out - height img) 2 ltac:(lia)).
    pose proof (Z.mod_pos_bound (height out - height img) 2 ltac:(lia)). lia. }
  rewrite inside_true by lia. apply Hpix; lia.
Qed.

Lemma padding_is_lossless_example :
  exists out back,
    resize_with_padding (plain 2 5 white) ratio_16_9 = Ok out /\
    size out = (8, 5) /\
    crop out (3, 0, 5, 5) = Ok back /\
    size back = (2, 5) /\
    forall x y, inside (plain 2 5 white) x y = true -> getpixel back x y = white.
Proof.
  destruct (is_ok_inv (resize_with_padding (plain 2 5 white) ratio_16_9))
    as (out & Hrun); [ vm_compute; reflexivity | ].
  destruct (padding_is_lossless (plain 2 5 white) ratio_16_9 out)
    as (back & Hcrop & Hsize & Hpix);
    try first [ exact Hrun | reflexivity | split; [ reflexivity | discriminate ] ].
  exists out, back. split; [ exact Hrun | ].
  assert (Es : size out = (8, 5)) by (vm_compute in Hrun; inversion Hrun; reflexivity).
  pose proof (f_equal fst Es) as Ewd. pose proof (f_equal snd Es) as Eht.
  cbn [fst snd size] in Ewd, Eht.
  rewrite Ewd, Eht in Hcrop.
  split; [ exact Es | split; [ exact Hcrop | split; [ exact Hsize | exact Hpix ] ] ].
Defined.

(* ===================================================================== *)
(** * What the mosaic can raise *)
(* ===================================================================== *)

(** A layout with a cell at least one pixel wide has a positive finite
    cell ratio. *)
Lemma layout_cell_ratio_pos n tr L :
  0 <= n < 2 ^ 52 -> valid tr = true -> pos_finite tr = true ->
  mosaic_layout n tr = Ok L -> 1 <= l_cell_width L ->
  valid (l_cell_ratio L) = true /\ pos_finite (l_cell_ratio L) = true.
Proof.
  intros Hn Hv Hp HL Hcw1.
  destruct (pos_finite_fin_nonneg tr Hv Hp) as [Htr _].
  destruct (mosaic_layout_inv _ _ _ HL) as (scaled & w & Hg & Hs & Hcr & Hw & Hcw & _).
  destruct (calculate_grid_size_total n Hn)
    as (rows & cols & Hg' & Hr & Hc & _ & Hrb & Hcb).
  rewrite Hg in Hg'. inversion Hg' as [[Er Ec]]. rewrite Er, Ec in *.
  remember (l_cell_ratio L) as cr eqn:Ecr. clear Ecr.
  remember (l_cell_width L) as cw eqn:Ecw. clear Ecw.
  destruct (float_mul_int_spec tr rows ltac:(lia) Htr) as (a & Ha & Hfa & _).
  rewrite Hs in Ha. inversion Ha. subst a. clear Ha.
  assert (Hsf : fin_nonneg scaled = true).
  { destruct Hfa as ([-> | Hf] & _); [ exfalso | exact Hf ].
    apply float_div_int_inf in Hcr; [ | lia ]. subst cr.
    apply int_mul_float_inf in Hw; [ | unfold BASE_HEIGHT; lia ]. subst w.
    discriminate Hcw. }
  destruct (float_div_int_spec scaled cols ltac:(lia) Hsf) as (b & Hb & Hfb & _).
  rewrite Hcr in Hb. inversion Hb. subst b. clear Hb.
  assert (Hcf : fin_nonneg cr = true).
  { destruct Hfb as ([-> | Hf] & _); [ exfalso | exact Hf ].
    apply int_mul_float_inf in Hw; [ | unfold BASE_HEIGHT; lia ]. subst w.
    discriminate Hcw. }
  destruct cr as [ s | s | | [ | ] m e ]; simpl in Hcf; try discriminate Hcf.
  - exfalso. destruct s; vm_compute in Hw; inversion Hw; subst w;
      vm_compute in Hcw; inversion Hcw; lia.
  - split; [ exact Hcf | reflexivity ].
Qed.

Section MosaicReturns.

Context {R : Resampler} {M : Memory}.

(** The loop returns when every image can be fitted, unless the allocator
    refuses a padded image. *)
Lemma place_images_returns crop_mode L : forall images idx canvas,
  l_cols L <> 0 ->
  (forall img, In img images ->
     is_ok (fit_cell crop_mode L img) = true \/
     fit_cell crop_mode L img = Raise MemoryError) ->
  (exists out, place_images crop_mode L idx images canvas = Ok out) \/
  place_images crop_mode L idx images canvas = Raise MemoryError.
Proof.
  induction images as [ | hd rest IH ]; intros idx canvas Hc Hfit.
  - left. eexists. reflexivity.
  - simpl place_images.
    destruct (idx >=? l_rows L * l_cols L); [ left; eexists; reflexivity | ].
    unfold int_floordiv, int_mod. destruct (Z.eqb_spec (l_cols L) 0); [ contradiction | ].
    rewrite !bind_ok.
    destruct (Hfit hd (or_introl eq_refl)) as [Hhd | Hhd].
    + destruct (fit_cell crop_mode L hd) as [resized | e]; [ | discriminate Hhd ].
      rewrite bind_ok. apply IH; [ exact Hc | ].
      intros img Hin. apply Hfit. now right.
    + rewrite Hhd. right. reflexivity.
Qed.

(** One image can be fitted: cropping always returns, padding returns when
    the padded image fits and the allocator has room for it, and the resize
    is the resampler's. *)
Lemma fit_cell_returns crop_mode L img :
  valid (l_cell_ratio L) = true -> pos_finite (l_cell_ratio L) = true ->
  0 < width img <= INT_MAX -> 0 < height img <= INT_MAX ->
  (crop_mode = false ->
   (inject_Z (width img) / F2Q (l_cell_ratio L) <= inject_Z INT_MAX)%Q /\
   (inject_Z (height img) * F2Q (l_cell_ratio L) <= inject_Z INT_MAX)%Q) ->
  (forall im, (crop_mode = false -> 0 < width im /\ 0 < height im) ->
              is_ok (resize im (l_cell_width L, l_cell_height L)) = true) ->
  is_ok (fit_cell crop_mode L img) = true \/
  fit_cell crop_mode L img = Raise MemoryError.
Proof.
  intros Hv Hp Hw Hh Hfit Hres. unfold fit_cell. destruct crop_mode.
  - destruct (resize_with_crop_spec img _ Hw Hh Hv Hp) as (out & _ & -> & _).
    rewrite bind_ok. left. apply Hres. discriminate.
  - destruct (Hfit eq_refl) as [Hf1 Hf2].
    destruct (resize_with_padding_returns img _ Hw Hh Hv Hp Hf1 Hf2)
      as [(out & Hrun) | Hrun].
    + rewrite Hrun, bind_ok. left. apply Hres. intros _.
      destruct (resize_with_padding_spec img _ out Hw Hh Hv Hp Hrun) as (_ & _ & Hc & _).
      destruct Hc as (Hwd & Hht & _). lia.
    + rewrite Hrun. right. reflexivity.
Qed.

End MosaicReturns.

(** X9: the mosaic raises nothing but [MemoryError], the refusal of the
    allocator, for fewer than [2^52] images of positive sizes and a positive
    finite ratio, when the layout can be computed with a cell at least one
    pixel wide, the sizes of the canvas fit a C integer, with the padding
    policy the sizes of every padded image fit one as well, and the
    resampler accepts the images it is given (all of them with the cropping
    policy, the non-empty ones with the padding policy).  The mosaic it
    returns has the size of the layout. *)
Theorem mosaic_raises_only_memory_error {R : Resampler} {M : Memory}
        images tr crop_mode L :
  images <> [] -> Z.of_nat (List.length images) < 2 ^ 52 ->
  valid tr = true -> pos_finite tr = true ->
  mosaic_layout (Z.of_nat (List.length images)) tr = Ok L ->
  1 <= l_cell_width L ->
  l_cell_width L * l_cols L <= INT_MAX -> BASE_HEIGHT * l_rows L <= INT_MAX ->
  (forall img, In img images ->
     0 < width img <= INT_MAX /\ 0 < height img <= INT_MAX /\
     (crop_mode = false ->
      (inject_Z (width img) / F2Q (l_cell_ratio L) <= inject_Z INT_MAX)%Q /\
      (inject_Z (height img) * F2Q (l_cell_ratio L) <= inject_Z INT_MAX)%Q)) ->
  (forall im, (crop_mode = false -> 0 < width im /\ 0 < height im) ->
              is_ok (resize im (l_cell_width L, l_cell_height L)) = true) ->
  (exists canvas,
     create_image_mosaic images tr crop_mode = Ok canvas /\
     size canvas = (l_cell_width L * l_cols L, BASE_HEIGHT * l_rows L)) \/
  create_image_mosaic images tr crop_mode = Raise MemoryError.
Proof.
  intros Hne Hn Hv Hp HL Hcw Hcanw Hcanh Himgs Hres.
  destruct (layout_cell_ratio_pos (Z.of_nat (List.length images)) tr L
              ltac:(lia) Hv Hp HL Hcw) as [Hcv Hcp].
  destruct (mosaic_layout_inv _ _ _ HL) as (_ & _ & Hg & _ & _ & _ & _ & Hh).
  destruct (calculate_grid_size_total (Z.of_nat (List.length images)) ltac:(lia))
    as (rows & cols & Hg' & Hr & Hc & _).
  rewrite Hg in Hg'. inversion Hg' as [[Er Ec]].
  assert (Hrun : (exists canvas, create_image_mosaic images tr crop_mode = Ok canvas) \/
                 create_image_mosaic images tr crop_mode = Raise MemoryError).
  { unfold create_image_mosaic.
    destruct images as [ | hd rest ] eqn:Eim; [ contradiction | ].
    rewrite <- Eim in *.
    rewrite HL, bind_ok, Hh, new_cases by (unfold BASE_HEIGHT in *; nia).
    destruct ((l_cell_width L * l_cols L =? 0)
              || grants (l_cell_width L * l_cols L) (BASE_HEIGHT * l_rows L));
      [ | right; reflexivity ].
    rewrite bind_ok. apply place_images_returns; [ lia | ].
    intros img Hin. destruct (Himgs img Hin) as (Hw & Hht & Hfit).
    now apply fit_cell_returns. }
  destruct Hrun as [(canvas & Hrun) | Hrun]; [ left | right; exact Hrun ].
  exists canvas. split; [ exact Hrun | ].
  destruct (create_image_mosaic_size _ _ _ _ Hrun) as (L' & HL' & Hsize & _).
  rewrite HL in HL'. inversion HL'. subst L'. exact Hsize.
Qed.

Lemma mosaic_raises_only_memory_error_example :
  exists canvas,
    create_image_mosaic [plain 4 3 white; plain 2 5 white] ratio_16_9 false = Ok canvas /\
    size canvas = (532, 300).
Proof.
  destruct (is_ok_inv (mosaic_layout 2 ratio_16_9)) as (L & HL);
    [ vm_compute; reflexivity | ].
  pose proof HL as HL'. vm_compute in HL'. inversion HL' as [EL]. clear HL'.
  destruct (mosaic_raises_only_memory_error
              [plain 4 3 white; plain 2 5 white] ratio_16_9 false L)
    as [(canvas & Hrun & Hsize) | Hrun].
  - discriminate.
  - reflexivity.
  - reflexivity.
  - reflexivity.
  - exact HL.
  - rewrite <- EL. discriminate.
  - rewrite <- EL. discriminate.
  - rewrite <- EL. discriminate.
  - rewrite <- EL. intros img [<- | [<- | []]];
      (split; [ split; [ reflexivity | discriminate ] | ]);
      (split; [ split; [ reflexivity | discriminate ] | ]);
      intros _; split; vm_compute; discriminate.
  - rewrite <- EL. intros im _. reflexivity.
  - exists canvas. split; [ exact Hrun | ]. rewrite Hsize, <- EL. reflexivity.
  - exfalso.
    assert (E : is_ok (create_image_mosaic [plain 4 3 white; plain 2 5 white]
                         ratio_16_9 false) = true) by (vm_compute; reflexivity).
    rewrite Hrun in E. discriminate E.
Defined.

(* ===================================================================== *)
(** * The cut size and the exact product *)
(* ===================================================================== *)

(** The truncation of a faithful rounding of [x] lies between the floor
    and the ceiling of [x]. *)
Lemma trunc_between x s t :
  faithful x s -> (0 <= x)%Q -> int_of_float s = Ok t -> t < 2 ^ 53 - 1 ->
  Qfloor x <= t <= Qceiling x.
Proof.
  intros Hfa Hx Ht Hsmall.
  assert (Hfs : fin_nonneg s = true).
  { apply (int_of_float_ok_fin s t Ht). apply Hfa. }
  destruct (trunc_faithful x s Hfa Hx Hfs) as (t' & Ht' & Ht0 & Hup & Hlow & _).
  rewrite Ht in Ht'. inversion Ht'. subst t'. clear Ht'.
  assert (Hxb : (x < inject_Z (2 ^ 53 - 1))%Q).
  { destruct (Qlt_le_dec x (inject_Z (2 ^ 53 - 1))) as [ | Hbig ];
      [ assumption | exfalso ].
    specialize (Hlow (2 ^ 53 - 1) ltac:(lia) Hbig). lia. }
  pose proof (Qfloor_le x) as Hfl. pose proof (Qle_ceiling x) as Hce.
  assert (Hf0 : 0 <= Qfloor x).
  { change 0 with (Qfloor 0). now apply Qfloor_resp_le. }
  assert (Hfb : Qfloor x < 2 ^ 53).
  { assert (Qfloor x < 2 ^ 53 - 1); [ rewrite Zlt_Qlt; lra | lia ]. }
  assert (Hc0 : 0 <= Qceiling x).
  { change 0 with (Qceiling 0). now apply Qceiling_resp_le. }
  assert (Hcb : Qceiling x < 2 ^ 53).
  { assert (Qceiling x <= 2 ^ 53 - 1); [ | lia ].
    rewrite <- (Qceiling_Z (2 ^ 53 - 1)). apply Qceiling_resp_le. lra. }
  split; [ apply Hlow; [ lia | exact Hfl ] | apply Hup; [ lia | exact Hce ] ].
Qed.

(** X10: the size that [resize_with_crop] cuts, [int(height * ratio)] or
    [int(width / ratio)] in float arithmetic, lies between the floor and
    the ceiling of the exact product or quotient: the rounding of the
    float operation can carry it from just below an integer onto it. *)
Theorem crop_size_between_floor_and_ceiling img tr :
  0 < width img <= INT_MAX -> 0 < height img <= INT_MAX ->
  valid tr = true -> pos_finite tr = true ->
  exists out cr,
    resize_with_crop img tr = Ok out /\
    int_truediv (width img) (height img) = Ok cr /\
    (float_gt cr tr = true ->
     Qfloor (inject_Z (height img) * F2Q tr) <= width out
       <= Qceiling (inject_Z (height img) * F2Q tr)) /\
    (float_gt cr tr = false -> float_lt cr tr = true ->
     Qfloor (inject_Z (width img) / F2Q tr) <= height out
       <= Qceiling (inject_Z (width img) / F2Q tr)).
Proof.
  intros Hw Hh Hv Hp.
  destruct (pos_finite_fin_nonneg tr Hv Hp) as [Htr Ht0].
  pose proof INT_MAX_lt as Hmax.
  destruct (resize_with_crop_spec img tr Hw Hh Hv Hp)
    as (out & cr & Hrun & Hcr & Hslice & Hsz & _).
  exists out, cr. split; [ exact Hrun | split; [ exact Hcr | ] ].
  destruct Hslice as (Hwd & Hht & _).
  assert (Hhq : (0 < inject_Z (height img))%Q) by (apply inject_Z_pos; lia).
  assert (Hwq : (0 < inject_Z (width img))%Q) by (apply inject_Z_pos; lia).
  split.
  - intros Egt. rewrite Egt in Hsz. destruct Hsz as [Hnw _].
    destruct (int_mul_float_spec (height img) tr ltac:(lia) Htr) as (s & Hs & Hfa & _).
    rewrite Hs, bind_ok in Hnw.
    apply (trunc_between _ s); [ exact Hfa | nra | exact Hnw | lia ].
  - intros Egt Elt. rewrite Egt, Elt in Hsz. destruct Hsz as [Hnh _].
    destruct (int_div_float_spec (width img) tr ltac:(lia) Htr Hp) as (s & Hs & Hfa & _).
    rewrite Hs, bind_ok in Hnh.
    apply (trunc_between _ s); [ exact Hfa | | exact Hnh | lia ].
    apply Qle_shift_div_l; [ exact Ht0 | lra ].
Qed.

Lemma crop_size_between_floor_and_ceiling_example :
  exists out,
    resize_with_crop (plain 10 3 white) ratio_third = Ok out /\
    size out = (1, 3) /\
    Qfloor (inject_Z 3 * F2Q ratio_third) = 0 /\
    Qceiling (inject_Z 3 * F2Q ratio_third) = 1.
Proof.
  destruct (crop_size_between_floor_and_ceiling (plain 10 3 white) ratio_third)
    as (out & cr & Hrun & Hcr & Hwide & _);
    try first [ reflexivity | split; [ reflexivity | discriminate ] ].
  exists out. split; [ exact Hrun | ].
  vm_compute in Hcr. inversion Hcr. subst cr. clear Hcr.
  specialize (Hwide eq_refl).
  split; [ vm_compute in Hrun; inversion Hrun; reflexivity | ].
  split; vm_compute; reflexivity.
Defined.

(* ===================================================================== *)
(** * The name of the output file *)
(* ===================================================================== *)

Section OutputPath.

Local Open Scope string_scope.

Lemma append_inv_head (s a b : string) : s ++ a = s ++ b -> a = b.
Proof.
  induction s as [ | c s IH ]; simpl; intros E; [ exact E | ].
  inversion E. auto.
Qed.

Lemma append_assoc_string (a b c : string) : (a ++ b) ++ c = a ++ (b ++ c).
Proof. induction a as [ | x a IH ]; simpl; [ reflexivity | now rewrite IH ]. Qed.

Lemma length_append_string (a b : string) :
  String.length (a ++ b) = (String.length a + String.length b)%nat.
Proof. induction a as [ | x a IH ]; simpl; [ reflexivity | now rewrite IH ]. Qed.

Lemma split_on_no_sep sep s :
  contains_char sep s = false -> split_on sep s = [s].
Proof.
  induction s as [ | c s IH ]; simpl; [ reflexivity | ].
  intros E. apply orb_false_iff in E as [Ec Es].
  rewrite Ec, (IH Es). reflexivity.
Qed.

Lemma split_on_parts sep s :
  Forall (fun x => contains_char sep x = false) (split_on sep s).
Proof.
  induction s as [ | c s IH ]; simpl.
  - constructor; [ reflexivity | constructor ].
  - destruct (Ascii.eqb c sep) eqn:Ec.
    + constructor; [ reflexivity | exact IH ].
    + destruct (split_on sep s) as [ | hd tl ].
      * constructor; [ simpl; now rewrite Ec | constructor ].
      * inversion IH as [ | ? ? Hhd Htl ]. subst.
        constructor; [ simpl; now rewrite Ec, Hhd | exact Htl ].
Qed.

Lemma last_Forall {A : Type} (P : A -> Prop) (l : list A) (d : A) :
  Forall P l -> P d -> P (last l d).
Proof.
  induction l as [ | a l IH ]; intros Hl Hd; [ exact Hd | ].
  inversion Hl as [ | ? ? Ha Hrest ]. subst.
  destruct l as [ | b l ]; [ exact Ha | ]. apply IH; assumption.
Qed.

Lemma Forall_filter {A : Type} (P : A -> Prop) (f : A -> bool) (l : list A) :
  Forall P l -> Forall P (filter f l).
Proof.
  induction 1 as [ | a l Ha Hl IH ]; simpl; [ constructor | ].
  destruct (f a); [ constructor; assumption | exact IH ].
Qed.

(** The name of a path holds no slash. *)
Lemma Path_name_no_slash s : contains_char "/"%char (Path_name (Path_of s)) = false.
Proof.
  unfold Path_name, Path_of. destruct (splitroot s) as [root rel]. simpl.
  apply (last_Forall (fun x => contains_char "/"%char x = false));
    [ apply Forall_filter, split_on_parts | reflexivity ].
Qed.

(** A string without slash that is a component is a path of that one
    component. *)
Lemma Path_of_component x :
  contains_char "/"%char x = false -> is_component x = true ->
  Path_of x = mkPath EmptyString [x].
Proof.
  intros Hx Hc. unfold Path_of.
  assert (Hroot : splitroot x = (EmptyString, x)).
  { destruct x as [ | c x ]; [ reflexivity | ]. simpl in Hx.
    apply orb_false_iff in Hx as [Ec _]. unfold splitroot. now rewrite Ec. }
  rewrite Hroot, (split_on_no_sep _ _ Hx). simpl. now rewrite Hc.
Qed.

(** The output path is the output directory with one more component, the
    name of the input behind [processed_]. *)
Lemma output_path_parts input_path output_dir :
  output_path input_path output_dir =
  mkPath (path_root (Path_of output_dir))
         (path_parts (Path_of output_dir) ++
          [("processed_" ++ Path_name (Path_of input_path))%string])%list.
Proof.
  unfold output_path, Path_div.
  rewrite Path_of_component; [ reflexivity | | reflexivity ].
  simpl. apply Path_name_no_slash.
Qed.

Lemma join_cons sep a l :
  l <> [] -> join sep (a :: l) = a ++ sep ++ join sep l.
Proof. destruct l; [ contradiction | reflexivity ]. Qed.

Lemma join_snoc sep l :
  exists prefix, forall y, join sep (l ++ [y])%list = prefix ++ y.
Proof.
  induction l as [ | a l IH ].
  - exists EmptyString. reflexivity.
  - destruct IH as (prefix & IH). exists (a ++ sep ++ prefix). intros y.
    change ((a :: l) ++ [y])%list with (a :: (l ++ [y]))%list.
    rewrite join_cons by (destruct l; discriminate).
    rewrite IH, !append_assoc_string. reflexivity.
Qed.

Lemma Path_str_snoc root l :
  exists prefix, forall y, Path_str (mkPath root (l ++ [y])%list) = prefix ++ y.
Proof.
  destruct (join_snoc "/" l) as (prefix & Hj).
  exists (root ++ prefix). intros y. unfold Path_str. cbn [path_root path_parts].
  rewrite append_assoc_string, <- Hj.
  destruct root; [ | reflexivity ].
  destruct (l ++ [y])%list eqn:E; [ destruct l; discriminate E | reflexivity ].
Qed.

End OutputPath.

(** X11: [process_image] saves directly in the output directory, under the
    name of the input file behind [processed_]: the components of the
    output path are those of the output directory and that name, whatever
    directory the input is in, and the name of the output is never the name
    of the input. *)
Theorem output_goes_to_output_dir input_path output_dir :
  let out := output_path input_path output_dir in
  path_root out = path_root (Path_of output_dir) /\
  path_parts out =
    path_parts (Path_of output_dir) ++
    [("processed_" ++ Path_name (Path_of input_path))%string] /\
  Path_name out = ("processed_" ++ Path_name (Path_of input_path))%string /\
  Path_name out <> Path_name (Path_of input_path).
Proof.
  intros out. unfold out. rewrite output_path_parts. cbn [path_root path_parts].
  split; [ reflexivity | split; [ reflexivity | ] ].
  assert (E : Path_name
                (mkPath (path_root (Path_of output_dir))
                   (path_parts (Path_of output_dir) ++
                    [("processed_" ++ Path_name (Path_of input_path))%string]))
              = ("processed_" ++ Path_name (Path_of input_path))%string).
  { unfold Path_name. simpl. apply last_last. }
  split; [ exact E | ]. rewrite E. intros Heq.
  apply (f_equal String.length) in Heq. rewrite length_append_string in Heq.
  simpl in Heq. lia.
Qed.

(** X12: two input files are saved to the same path exactly when they have
    the same name: files of one name from different directories overwrite
    each other's output, files of different names never do. *)
Theorem outputs_collide_iff_same_name input1 input2 output_dir :
  Path_str (output_path input1 output_dir) = Path_str (output_path input2 output_dir)
  <-> Path_name (Path_of input1) = Path_name (Path_of input2).
Proof.
  rewrite !output_path_parts.
  destruct (Path_str_snoc (path_root (Path_of output_dir))
                          (path_parts (Path_of output_dir))) as (prefix & Hs).
  rewrite !Hs. split.
  - intros E. apply append_inv_head in E. now apply append_inv_head in E.
  - intros E. now rewrite E.
Qed.

(* ===================================================================== *)
(** * The command line *)
(* ===================================================================== *)

Section CommandLineFacts.

Context {H : Host} {M : Memory}.

Local Open Scope string_scope.

(** [print] writes the line or raises what the stream raises, the world
    left as it was. *)
Lemma print_cases w line :
  (print_raises (stdout w) line = None /\
   print w line = (mkWorld (disk w) (stdout w ++ [line])%list (stderr w), None)) \/
  (exists e, print_raises (stdout w) line = Some e /\ print w line = (w, Some e)).
Proof.
  unfold print. destruct (print_raises (stdout w) line) as [e | ].
  - right. exists e. now split.
  - left. now split.
Qed.


(** What the body of the [try] does: it fails before the save and leaves
    the world as it was, or it calls [save] once, with a reconciled image
    and the output path, and prints the line of success when the save
    succeeded. *)
Lemma process_image_try_cases w input_path output_dir tr crop_mode :
  (exists e, process_image_try w input_path output_dir tr crop_mode = (w, Some e)) \/
  (exists result d saved,
     Image_save (disk w) result (Path_str (output_path input_path output_dir)) 95
       = (d, saved) /\
     process_image_try w input_path output_dir tr crop_mode =
     match saved with
     | Some e => (set_disk w d, Some e)
     | None => print (set_disk w d)
                 ("Processed: " ++ input_path ++ " -> "
                  ++ Path_str (output_path input_path output_dir))
     end).
Proof.
  unfold process_image_try.
  destruct (Image_open (disk w) input_path) as [opened | e]; [ | left; eauto ].
  destruct (if negb (mode opened =? "RGB") then convert_RGB opened else load opened)
    as [img | e]; [ | left; eauto ].
  destruct (if crop_mode then resize_with_crop img tr else resize_with_padding img tr)
    as [result | e]; [ | left; eauto ].
  right. cbv zeta.
  destruct (Image_save (disk w) result
              (Path_str (output_path input_path output_dir)) 95) as [d saved] eqn:E.
  exists result, d, saved. split; [ first [ exact E | reflexivity ] | ].
  destruct saved; reflexivity.
Qed.

(** The body of the [try] leaves the streams as they were when it raises,
    and the output stream one line longer, the line of success, when it
    does not; the files change by the one call of [save], if at all. *)
Lemma process_image_try_world w input_path output_dir tr crop_mode w1 r :
  process_image_try w input_path output_dir tr crop_mode = (w1, r) ->
  stderr w1 = stderr w /\
  (disk w1 = disk w \/
   exists result saved,
     Image_save (disk w) result (Path_str (output_path input_path output_dir)) 95
       = (disk w1, saved)) /\
  match r with
  | Some _ => stdout w1 = stdout w
  | None =>
      stdout w1 = (stdout w ++
                   [("Processed: " ++ input_path ++ " -> "
                     ++ Path_str (output_path input_path output_dir))%string])%list /\
      exists result,
        Image_save (disk w) result (Path_str (output_path input_path output_dir)) 95
          = (disk w1, None)
  end.
Proof.
  destruct (process_image_try_cases w input_path output_dir tr crop_mode)
    as [(e & ->) | (result & d & saved & Hsave & ->)].
  - intros E. inversion E. subst w1 r. split; [ reflexivity | ].
    split; [ now left | reflexivity ].
  - destruct saved as [e | ].
    + intros E. inversion E. subst w1 r. split; [ reflexivity | ].
      split; [ right; exists result, (Some e); exact Hsave | reflexivity ].
    + destruct (print_cases (set_disk w d)
                  ("Processed: " ++ input_path ++ " -> "
                   ++ Path_str (output_path input_path output_dir)))
        as [(_ & ->) | (e & _ & ->)]; intros E; inversion E; subst w1 r.
      * split; [ reflexivity | ].
        split; [ right; exists result, None; exact Hsave | ].
        split; [ reflexivity | exists result; exact Hsave ].
      * split; [ reflexivity | ].
        split; [ right; exists result, None; exact Hsave | reflexivity ].
Qed.

(** X13: [process_image] contains every [Exception] but the one that the
    [print] of its handler raises.  When it returns normally it has printed
    exactly one line, the line of success after a save that succeeded or
    the line of an error that derives from [Exception]; an exception
    escapes it only if it does not derive from [Exception], or if it was
    raised by the stream while the line of an error was printed, and then
    nothing was printed.  It changes the files by at most one call of
    [save], to the output path; the error stream is left alone. *)
Theorem process_image_contains_exceptions w input_path output_dir tr crop_mode :
  exists w' escaped,
    process_image w input_path output_dir tr crop_mode = (w', escaped) /\
    stderr w' = stderr w /\
    (disk w' = disk w \/
     exists result saved,
       Image_save (disk w) result (Path_str (output_path input_path output_dir)) 95
         = (disk w', saved)) /\
    match escaped with
    | None =>
        (stdout w' = stdout w ++
           [("Processed: " ++ input_path ++ " -> "
             ++ Path_str (output_path input_path output_dir))%string])%list /\
        (exists result,
           Image_save (disk w) result (Path_str (output_path input_path output_dir)) 95
             = (disk w', None))
        \/
        exists e, is_Exception e = true /\
          (stdout w' = stdout w ++
             [("Error processing " ++ input_path ++ ": " ++ str_failure e)%string])%list
    | Some e =>
        stdout w' = stdout w /\
        (is_Exception e = false \/
         exists caught,
           is_Exception caught = true /\
           print_raises (stdout w)
             ("Error processing " ++ input_path ++ ": " ++ str_failure caught) = Some e)
    end.
Proof.
  unfold process_image.
  destruct (process_image_try w input_path output_dir tr crop_mode) as [w1 r] eqn:Etry.
  destruct (process_image_try_world _ _ _ _ _ _ _ Etry) as (Herr & Hdisk & Hout).
  destruct r as [e | ].
  - destruct (is_Exception e) eqn:Ee.
    + destruct (print_cases w1 ("Error processing " ++ input_path ++ ": "
                                ++ str_failure e)) as [(_ & ->) | (e' & Hp & ->)].
      * eexists _, None. split; [ reflexivity | ]. cbn [stderr disk stdout].
        split; [ exact Herr | split; [ exact Hdisk | ] ].
        right. exists e. split; [ exact Ee | now rewrite Hout ].
      * eexists _, (Some e'). split; [ reflexivity | ].
        split; [ exact Herr | split; [ exact Hdisk | ] ].
        split; [ exact Hout | ]. right. exists e. split; [ exact Ee | ].
        now rewrite <- Hout.
    + eexists _, (Some e). split; [ reflexivity | ].
      split; [ exact Herr | split; [ exact Hdisk | ] ].
      split; [ exact Hout | now left ].
  - eexists _, None. split; [ reflexivity | ].
    split; [ exact Herr | split; [ exact Hdisk | ] ].
    left. exact Hout.
Qed.




(** X15: on a decoded image of positive sizes and a positive finite ratio,
    the resize step of [process_image] raises nothing with the cropping
    policy and, when the padded sizes fit a C integer, nothing but the
    [MemoryError] of the allocator with the padding policy, which
    [process_image] reports with an empty message.  Otherwise [save] is
    called with the reconciled image, the centred slice of the decoded
    image with the cropping policy and the decoded image centred on black
    with the padding policy, and what [process_image] leaves is decided by
    that call and by the output stream. *)
Theorem process_image_saves_reconciled w input_path output_dir tr crop_mode img :
  opens_as (disk w) input_path img ->
  0 < width img <= INT_MAX -> 0 < height img <= INT_MAX ->
  valid tr = true -> pos_finite tr = true ->
  (crop_mode = false ->
   (inject_Z (width img) / F2Q tr <= inject_Z INT_MAX)%Q /\
   (inject_Z (height img) * F2Q tr <= inject_Z INT_MAX)%Q) ->
  (crop_mode = false /\
   resize_with_padding img tr = Raise MemoryError /\
   process_image w input_path output_dir tr crop_mode =
   print w ("Error processing " ++ input_path ++ ": "))
  \/
  exists result d saved,
    (if crop_mode then resize_with_crop img tr else resize_with_padding img tr)
      = Ok result /\
    (if crop_mode then centered_slice img result else centered_on_black img result) /\
    within_one_pixel (width result) (height result) (F2Q tr) /\
    Image_save (disk w) result (Path_str (output_path input_path output_dir)) 95
      = (d, saved) /\
    process_image w input_path output_dir tr crop_mode =
    match saved with
    | None =>
        match print (set_disk w d)
                ("Processed: " ++ input_path ++ " -> "
                 ++ Path_str (output_path input_path output_dir)) with
        | (w', None) => (w', None)
        | (w', Some e) =>
            if is_Exception e
            then print w' ("Error processing " ++ input_path ++ ": " ++ str_failure e)
            else (w', Some e)
        end
    | Some e =>
        if is_Exception e
        then print (set_disk w d)
               ("Error processing " ++ input_path ++ ": " ++ str_failure e)
        else (set_disk w d, Some e)
    end.
Proof.
  intros (opened & Hopen & Hdecode) Hw Hh Hv Hp Hfit.
  assert (Hres : (crop_mode = false /\ resize_with_padding img tr = Raise MemoryError) \/
                 exists result,
                   (if crop_mode then resize_with_crop img tr
                    else resize_with_padding img tr) = Ok result /\
                   (if crop_mode then centered_slice img result
                    else centered_on_black img result) /\
                   within_one_pixel (width result) (height result) (F2Q tr)).
  { destruct crop_mode.
    - destruct (resize_with_crop_spec img tr Hw Hh Hv Hp)
        as (out & cr & Hrun & _ & Hs & _ & Hr).
      right. exists out. split; [ exact Hrun | split; assumption ].
    - destruct (Hfit eq_refl) as [Hf1 Hf2].
      destruct (resize_with_padding_returns img tr Hw Hh Hv Hp Hf1 Hf2)
        as [(out & Hrun) | Hrun]; [ right | left; now split ].
      destruct (resize_with_padding_spec img tr out Hw Hh Hv Hp Hrun)
        as (cr & _ & Hc & _ & Hr).
      exists out. split; [ exact Hrun | split; assumption ]. }
  destruct Hres as [(-> & Hrun) | (result & Hrun & Hshape & Hratio)].
  - left. split; [ reflexivity | split; [ exact Hrun | ] ].
    unfold process_image, process_image_try.
    rewrite Hopen, Hdecode, Hrun. reflexivity.
  - right.
    destruct (Image_save (disk w) result
                (Path_str (output_path input_path output_dir)) 95) as [d saved] eqn:Es.
    exists result, d, saved.
    split; [ exact Hrun | split; [ exact Hshape | split; [ exact Hratio | ] ] ].
    split; [ exact Es | ].
    unfold process_image, process_image_try.
    rewrite Hopen, Hdecode, Hrun. cbv zeta. rewrite Es.
    destruct saved; [ reflexivity | ].
    destruct (print (set_disk w d)
                ("Processed: " ++ input_path ++ " -> "
                 ++ Path_str (output_path input_path output_dir))) as [w' [e | ]];
      reflexivity.
Qed.

(** Text that is not two numbers gets [ArgumentTypeError]. *)
Lemma parse_aspect_ratio_malformed_raises s :
  (forall ws hs, split_on ":"%char s = [ws; hs] ->
                 is_ok (float_of_str ws) && is_ok (float_of_str hs) = false) ->
  parse_aspect_ratio float_of_str s =
  Raise (ArgumentTypeError "Aspect ratio must be in format W:H (e.g., 16:9)").
Proof.
  intros Hbad. unfold parse_aspect_ratio, unpack_two_floats.
  pose proof float_of_str_raises as Hexn.
  destruct (split_on ":"%char s) as [ | p1 [ | p2 [ | p3 rest ] ] ].
  - reflexivity.
  - destruct (float_of_str p1) as [x | e] eqn:E1; [ reflexivity | ].
    destruct (Hexn p1 e E1) as (msg & ->). reflexivity.
  - specialize (Hbad p1 p2 eq_refl).
    destruct (float_of_str p1) as [x | e] eqn:E1.
    + destruct (float_of_str p2) as [y | e] eqn:E2; [ discriminate Hbad | ].
      destruct (Hexn p2 e E2) as (msg & ->). reflexivity.
    + destruct (Hexn p1 e E1) as (msg & ->). reflexivity.
  - destruct (float_of_str p1) as [x | e] eqn:E1.
    + destruct (float_of_str p2) as [y | e] eqn:E2.
      * destruct (float_of_str p3) as [z | e] eqn:E3; [ reflexivity | ].
        destruct (Hexn p3 e E3) as (msg & ->). reflexivity.
      * destruct (Hexn p2 e E2) as (msg & ->). reflexivity.
    + destruct (Hexn p1 e E1) as (msg & ->). reflexivity.
Qed.

(** X16: a ratio with a zero height crashes the command line.  The
    [ZeroDivisionError] of the division passes through [argparse] and
    escapes [main] before anything is done: no directory is made, no file
    is looked for, nothing is printed on either stream. *)
Theorem main_crashes_on_zero_height w c ws hs wf hf :
  split_on ":"%char (cl_aspect_ratio c) = [ws; hs] ->
  float_of_str ws = Ok wf ->
  float_of_str hs = Ok hf ->
  float_is_zero hf = true ->
  main w c = (w, Some (Core (ZeroDivisionError "float division by zero"))).
Proof.
  intros Hsplit Hw Hh Hz. unfold main, parse_args.
  assert (Hparse : parse_aspect_ratio float_of_str (cl_aspect_ratio c) =
                   Raise (ZeroDivisionError "float division by zero")).
  { unfold parse_aspect_ratio, unpack_two_floats.
    rewrite Hsplit, Hw, bind_ok, Hh, bind_ok. simpl bind.
    unfold float_truediv. rewrite Hz. reflexivity. }
  rewrite Hparse. reflexivity.
Qed.

(** X17: a ratio that is not two numbers separated by one colon stops the
    command line with a usage error: [argparse] reports the message of the
    module on the error stream and exits with status 2, before a directory
    is made or a file is looked for. *)
Theorem main_exits_on_malformed_ratio w c :
  (forall ws hs, split_on ":"%char (cl_aspect_ratio c) = [ws; hs] ->
                 is_ok (float_of_str ws) && is_ok (float_of_str hs) = false) ->
  main w c =
  (mkWorld (disk w) (stdout w)
     (stderr w ++
      ["argument --aspect-ratio: Aspect ratio must be in format W:H (e.g., 16:9)"])%list,
   Some SystemExit_2).
Proof.
  intros Hbad. unfold main, parse_args.
  rewrite (parse_aspect_ratio_malformed_raises _ Hbad). reflexivity.
Qed.

End CommandLineFacts.

(** ** Examples on the host in memory *)

Lemma memory_host_raises_exceptions : host_raises_exceptions (H := memory_host).
Proof.
  repeat split.
  - intros d p e. simpl.
    destruct (lookup_file d p) as [ f | ]; [ destruct (fst f =? EmptyString)%string | ];
      intros E; inversion E; reflexivity.
  - intros p e E. discriminate E.
  - intros p e E. discriminate E.
  - intros d img p q d' e E. discriminate E.
Qed.



Lemma process_image_saves_reconciled_example :
  exists w' result,
    process_image example_world "in/a.png" "in" ratio_1_1 true = (w', None) /\
    stdout w' = [ "Processed: in/a.png -> in/processed_a.png" ]%string /\
    lookup_file (disk w') "in/processed_a.png" = Some ("RGB"%string, result) /\
    size result = (3, 3) /\
    centered_slice (plain 4 3 white) result.
Proof.
  destruct (process_image_saves_reconciled example_world "in/a.png" "in" ratio_1_1
              true (plain 4 3 white))
    as [(Hc & _) | (result & d & saved & Hrun & Hshape & _ & Hsave & Hproc)].
  - exists ("RGB"%string, plain 4 3 white). split; reflexivity.
  - split; [ reflexivity | discriminate ].
  - split; [ reflexivity | discriminate ].
  - reflexivity.
  - reflexivity.
  - discriminate.
  - discriminate Hc.
  - simpl in Hsave. inversion Hsave. subst d saved. clear Hsave.
    eexists _, result. split; [ exact Hproc | ].
    split; [ reflexivity | split; [ reflexivity | split; [ | exact Hshape ] ] ].
    vm_compute in Hrun. inversion Hrun. reflexivity.
Defined.

Lemma main_crashes_on_zero_height_example :
  main example_world (mkCmdline "in/" "4:0" false None) =
  (example_world, Some (Core (ZeroDivisionError "float division by zero"))).
Proof.
  apply (main_crashes_on_zero_height example_world (mkCmdline "in/" "4:0" false None)
           "4"%string "0"%string
           (S754_finite false 4503599627370496 (-50)) (S754_zero false));
    reflexivity.
Defined.

Lemma main_exits_on_malformed_ratio_example :
  main example_world (mkCmdline "in/" "widescreen" false None) =
  (mkWorld example_disk []
     [ "argument --aspect-ratio: Aspect ratio must be in format W:H (e.g., 16:9)" ]%string,
   Some SystemExit_2).
Proof.
  apply (main_exits_on_malformed_ratio example_world
           (mkCmdline "in/" "widescreen" false None)).
  intros ws hs E. vm_compute in E. discriminate E.
Defined.

(* ===================================================================== *)
(** * The window *)
(* ===================================================================== *)

(** ** The selection: [dict.fromkeys] removes the duplicates *)

Lemma dict_contains_In {V : Type} (d : dict V) k :
  dict_contains d k = true <-> In k (dict_keys d).
Proof.
  induction d as [ | [k' v] d IH ]; simpl.
  - split; [ discriminate | contradiction ].
  - rewrite orb_true_iff, IH, String.eqb_eq. reflexivity.
Qed.

Lemma dict_keys_setitem {V : Type} (d : dict V) k v :
  dict_keys (dict_setitem d k v) =
  if dict_contains d k then dict_keys d else dict_keys d ++ [k].
Proof.
  induction d as [ | [k' v'] d IH ]; simpl; [ reflexivity | ].
  destruct (String.eqb k' k); simpl; [ reflexivity | ].
  rewrite IH. destruct (dict_contains d k); reflexivity.
Qed.

(** Keys that are new and distinct are appended in their order. *)
Lemma fromkeys_appends keys : forall d : dict unit,
  NoDup keys -> (forall k, In k keys -> ~ In k (dict_keys d)) ->
  dict_keys (fold_left (fun d k => dict_setitem d k tt) keys d) = dict_keys d ++ keys.
Proof.
  induction keys as [ | k keys IH ]; intros d Hnd Hnew; simpl.
  - now rewrite app_nil_r.
  - inversion Hnd as [ | ? ? Hk Hrest ]. subst.
    rewrite IH; [ | exact Hrest | ].
    + rewrite dict_keys_setitem.
      destruct (dict_contains d k) eqn:E.
      * exfalso. apply (Hnew k); [ now left | now apply dict_contains_In ].
      * now rewrite <- app_assoc.
    + intros x Hx. rewrite dict_keys_setitem.
      destruct (dict_contains d k).
      * apply Hnew. now right.
      * rewrite in_app_iff. intros [Hin | [-> | []]];
          [ apply (Hnew x); [ now right | exact Hin ] | contradiction ].
Qed.

(** Keys that are there already change nothing. *)
Lemma fromkeys_absorbs keys : forall d : dict unit,
  (forall k, In k keys -> In k (dict_keys d)) ->
  dict_keys (fold_left (fun d k => dict_setitem d k tt) keys d) = dict_keys d.
Proof.
  induction keys as [ | k keys IH ]; intros d Hold; simpl; [ reflexivity | ].
  assert (E : dict_keys (dict_setitem d k tt) = dict_keys d).
  { rewrite dict_keys_setitem.
    destruct (dict_contains d k) eqn:Ec; [ reflexivity | exfalso ].
    assert (In k (dict_keys d)) as Hin by (apply Hold; now left).
    apply dict_contains_In in Hin. congruence. }
  rewrite IH; [ exact E | ]. intros x Hx. rewrite E. apply Hold. now right.
Qed.

(** In general the keys stay distinct, stay in place, and the new ones are
    appended. *)
Lemma fromkeys_extends keys : forall d : dict unit,
  NoDup (dict_keys d) ->
  exists added,
    dict_keys (fold_left (fun d k => dict_setitem d k tt) keys d) = dict_keys d ++ added /\
    NoDup (dict_keys d ++ added) /\
    (forall k, In k added -> In k keys /\ ~ In k (dict_keys d)) /\
    (forall k, In k keys -> In k (dict_keys d ++ added)).
Proof.
  induction keys as [ | k keys IH ]; intros d Hnd; simpl.
  - exists []. rewrite app_nil_r.
    repeat split; try assumption; try contradiction.
  - assert (Hnd' : NoDup (dict_keys (dict_setitem d k tt))).
    { rewrite dict_keys_setitem. destruct (dict_contains d k) eqn:Ec; [ exact Hnd | ].
      apply NoDup_app_remove_l with (l := []). simpl.
      apply NoDup_rev in Hnd. rewrite <- (rev_involutive (dict_keys d ++ [k])).
      apply NoDup_rev. rewrite rev_app_distr. simpl. constructor; [ | exact Hnd ].
      rewrite <- in_rev. intros Hin. apply dict_contains_In in Hin. congruence. }
    destruct (IH _ Hnd') as (added & Hkeys & Hnd2 & Hadded & Hall).
    rewrite dict_keys_setitem in Hkeys, Hnd2, Hadded, Hall.
    destruct (dict_contains d k) eqn:Ec.
    + exists added. split; [ exact Hkeys | split; [ exact Hnd2 | split ] ].
      * intros x Hx. destruct (Hadded x Hx) as [H1 H2]. split; [ now right | exact H2 ].
      * intros x [-> | Hx]; [ | now apply Hall ].
        apply in_or_app. left. now apply dict_contains_In.
    + exists (k :: added). rewrite <- app_assoc in Hkeys, Hnd2, Hall. simpl in *.
      split; [ exact Hkeys | split; [ exact Hnd2 | split ] ].
      * intros x [<- | Hx].
        -- split; [ now left | ]. intros Hin. apply dict_contains_In in Hin. congruence.
        -- destruct (Hadded x Hx) as [H1 H2]. split; [ now right | ].
           intros Hin. apply H2. apply in_or_app. now left.
      * intros x [<- | Hx]; [ | now apply Hall ].
        apply in_or_app. right. now left.
Qed.

Lemma add_files_selected g file_paths :
  selected_files (add_files g file_paths) =
  dict_keys (dict_fromkeys (selected_files g ++ file_paths)).
Proof. reflexivity. Qed.

Lemma fromkeys_app l1 l2 :
  dict_fromkeys (l1 ++ l2) =
  fold_left (fun d k => dict_setitem d k tt) l2 (dict_fromkeys l1).
Proof. unfold dict_fromkeys. apply fold_left_app. Qed.

Lemma fromkeys_NoDup l : NoDup (dict_keys (dict_fromkeys l)).
Proof.
  unfold dict_fromkeys.
  destruct (fromkeys_extends l [] (NoDup_nil _)) as (added & -> & Hnd & _). exact Hnd.
Qed.

Lemma fromkeys_In l k : In k (dict_keys (dict_fromkeys l)) <-> In k l.
Proof.
  unfold dict_fromkeys.
  destruct (fromkeys_extends l [] (NoDup_nil _)) as (added & -> & _ & Hadded & Hall).
  simpl in *. split; [ intros Hin; now apply Hadded | apply Hall ].
Qed.

Lemma fromkeys_of_distinct l : NoDup l -> dict_keys (dict_fromkeys l) = l.
Proof.
  intros Hnd. unfold dict_fromkeys. rewrite fromkeys_appends; [ reflexivity | exact Hnd | ].
  intros k _ [].
Qed.

(** X18: [add_files] keeps the selection free of duplicates and in order.
    After it no file is selected twice, the selected files are the old
    ones and the new ones, the files selected before keep their places with
    the new ones behind them, adding the same files once more changes
    nothing, and the mosaic held and the save button are left as they
    were. *)
Theorem add_files_selection g file_paths :
  NoDup (selected_files g) ->
  let g' := add_files g file_paths in
  NoDup (selected_files g') /\
  (forall p, In p (selected_files g') <-> In p (selected_files g) \/ In p file_paths) /\
  (exists added,
     selected_files g' = selected_files g ++ added /\
     forall p, In p added -> In p file_paths /\ ~ In p (selected_files g)) /\
  selected_files (add_files g' file_paths) = selected_files g' /\
  final_mosaic g' = final_mosaic g /\ save_btn_enabled g' = save_btn_enabled g.
Proof.
  intros Hnd g'. unfold g'. rewrite !add_files_selected.
  split; [ apply fromkeys_NoDup | ].
  split; [ intros p; rewrite fromkeys_In, in_app_iff; reflexivity | ].
  split; [ | split; [ | split; reflexivity ] ].
  - rewrite fromkeys_app.
    assert (Hd : NoDup (dict_keys (dict_fromkeys (selected_files g))))
      by apply fromkeys_NoDup.
    destruct (fromkeys_extends file_paths _ Hd) as (added & Hkeys & _ & Hadded & _).
    rewrite (fromkeys_of_distinct _ Hnd) in Hkeys, Hadded.
    exists added. split; assumption.
  - rewrite (fromkeys_app (dict_keys (dict_fromkeys (selected_files g ++ file_paths)))
                          file_paths).
    rewrite fromkeys_absorbs; [ apply fromkeys_of_distinct, fromkeys_NoDup | ].
    intros k Hk.
    apply fromkeys_In. apply fromkeys_In. apply in_or_app. now right.
Qed.

Lemma add_files_selection_example :
  selected_files (add_files (add_files ImageBoxerGUI_init ["a.png"; "b.png"]%string)
                            ["b.png"; "c.png"; "a.png"; "c.png"]%string)
  = ["a.png"; "b.png"; "c.png"]%string /\
  NoDup ["a.png"; "b.png"; "c.png"]%string.
Proof.
  split; [ reflexivity | ].
  destruct (add_files_selection
              (add_files ImageBoxerGUI_init ["a.png"; "b.png"]%string)
              ["b.png"; "c.png"; "a.png"; "c.png"]%string) as (Hnd & _).
  - repeat constructor; simpl; intuition discriminate.
  - exact Hnd.
Defined.

(** ** Composing the mosaic from the window *)

Section WindowFacts.

Context {H : Host} {R : Resampler} {M : Memory}.

Local Open Scope string_scope.

Lemma obind_done {A B : Type} (a : A) (k : A -> outcome B) : obind (Done a) k = k a.
Proof. reflexivity. Qed.

(** The files load when each of them opens and decodes. *)
Lemma load_images_done d : forall file_paths images,
  Forall2 (opens_as d) file_paths images -> load_images d file_paths = Done images.
Proof.
  induction 1 as [ | p img ps imgs (opened & Ho & Hd) _ IH ]; [ reflexivity | ].
  simpl. rewrite Ho, obind_done, Hd, obind_done, IH. reflexivity.
Qed.

Lemma load_images_inv d : forall file_paths images,
  load_images d file_paths = Done images -> Forall2 (opens_as d) file_paths images.
Proof.
  induction file_paths as [ | p ps IH ]; intros images; simpl.
  - intros E. inversion E. constructor.
  - destruct (Image_open d p) as [opened | e] eqn:Ho; [ | discriminate ].
    rewrite obind_done.
    destruct (if negb (mode opened =? "RGB") then convert_RGB opened else load opened)
      as [img | e] eqn:Hd; [ | discriminate ].
    rewrite obind_done.
    destruct (load_images d ps) as [imgs | e]; [ | discriminate ].
    rewrite obind_done. intros E. inversion E. subst.
    constructor; [ exists opened; now split | now apply IH ].
Qed.

(** One file that does not open makes the loading fail. *)
Lemma load_images_fails d : forall file_paths p e0,
  host_raises_exceptions ->
  In p file_paths -> Image_open d p = Fails e0 ->
  exists e, load_images d file_paths = Fails e /\ is_Exception e = true.
Proof.
  intros file_paths p e0 (Hopen & Hload & Hconv & _).
  induction file_paths as [ | q qs IH ]; intros Hin Hp; [ contradiction | ].
  simpl.
  destruct (Image_open d q) as [opened | e] eqn:Ho.
  2:{ exists e. split; [ reflexivity | eapply Hopen, Ho ]. }
  rewrite obind_done.
  destruct (negb (mode opened =? "RGB")).
  - destruct (convert_RGB opened) as [img | e] eqn:Hd.
    2:{ exists e. split; [ reflexivity | eapply Hconv, Hd ]. }
    rewrite obind_done.
    destruct Hin as [-> | Hin]; [ congruence | ].
    destruct (IH Hin Hp) as (e & -> & He). exists e. now split.
  - destruct (load opened) as [img | e] eqn:Hd.
    2:{ exists e. split; [ reflexivity | eapply Hload, Hd ]. }
    rewrite obind_done.
    destruct Hin as [-> | Hin]; [ congruence | ].
    destruct (IH Hin Hp) as (e & -> & He). exists e. now split.
Qed.

(** X19: one file that cannot be opened blocks the whole mosaic.  With a
    preset that parses, [process_images] then shows one error dialog and
    changes nothing else: no mosaic is composed from the other files, and
    the mosaic held before, the preview and the save button stay as they
    were. *)
Theorem unreadable_file_blocks_mosaic g d current_text crop_checked ratio_text tr p e0 :
  host_raises_exceptions ->
  dict_getitem aspect_ratios current_text = Done ratio_text ->
  parse_aspect_ratio float_of_str ratio_text = Ok tr ->
  In p (selected_files g) ->
  Image_open d p = Fails e0 ->
  exists e,
    process_images g d current_text crop_checked =
    (show g (mkDialog critical "Error" ("Error processing images: " ++ str_failure e)),
     None).
Proof.
  intros Hh Hkey Hparse Hin Hp.
  destruct (load_images_fails d _ p e0 Hh Hin Hp) as (e & Hload & He).
  exists e. unfold process_images.
  destruct (selected_files g) as [ | q qs ] eqn:Es; [ contradiction | ].
  unfold process_images_try.
  rewrite Es, Hkey, obind_done, Hparse. simpl lift. rewrite obind_done, Hload.
  cbv beta iota delta [obind]. rewrite He. reflexivity.
Qed.

(** X20: when every selected file opens and decodes and the composition
    succeeds, [process_images] holds the mosaic of the decoded images, in
    the order of the selection and with the policy of the check box, shows
    it alone in the preview and enables the save button; no dialog is
    shown. *)
Theorem process_images_composes_selection
        g d current_text crop_checked ratio_text tr images mosaic :
  selected_files g <> [] ->
  dict_getitem aspect_ratios current_text = Done ratio_text ->
  parse_aspect_ratio float_of_str ratio_text = Ok tr ->
  Forall2 (opens_as d) (selected_files g) images ->
  create_image_mosaic images tr crop_checked = Ok mosaic ->
  ImageQt mosaic = None ->
  process_images g d current_text crop_checked =
  (mkGui (selected_files g) (processed_images g) (Some mosaic)
         [MosaicView mosaic 0 0] (drop_area_visible g) true (dialogs g),
   None).
Proof.
  intros Hsel Hkey Hparse Hopen Hmosaic Hqt.
  unfold process_images.
  destruct (selected_files g) as [ | q qs ] eqn:Es; [ contradiction | ].
  unfold process_images_try.
  rewrite Es, Hkey, obind_done, Hparse. simpl lift.
  rewrite obind_done, (load_images_done _ _ _ Hopen), obind_done, Hmosaic.
  simpl lift. unfold show_mosaic_preview. cbn [final_mosaic]. rewrite Hqt.
  cbn. rewrite ?Es. reflexivity.
Qed.

(** What [process_images] does to the mosaic, in all cases. *)
Lemma process_images_mosaic_fst g d current_text crop_checked :
  let g' := fst (process_images g d current_text crop_checked) in
  selected_files g' = selected_files g /\
  drop_area_visible g' = drop_area_visible g /\
  (final_mosaic g' = final_mosaic g /\ save_btn_enabled g' = save_btn_enabled g \/
   selected_files g <> [] /\
   exists ratio_text tr images mosaic,
     dict_getitem aspect_ratios current_text = Done ratio_text /\
     parse_aspect_ratio float_of_str ratio_text = Ok tr /\
     Forall2 (opens_as d) (selected_files g) images /\
     create_image_mosaic images tr crop_checked = Ok mosaic /\
     final_mosaic g' = Some mosaic /\
     (save_btn_enabled g' = true \/ save_btn_enabled g' = save_btn_enabled g)).
Proof.
  unfold process_images.
  destruct (selected_files g) as [ | q qs ] eqn:Es.
  { cbn. rewrite Es. repeat split. now left. }
  unfold process_images_try. rewrite Es.
  destruct (dict_getitem aspect_ratios current_text) as [ratio_text | e] eqn:Hkey.
  2:{ cbv beta iota delta [obind]. destruct (is_Exception e); cbn;
        rewrite ?Es; (split; [ reflexivity | split; [ reflexivity | now left ] ]). }
  rewrite obind_done.
  destruct (parse_aspect_ratio float_of_str ratio_text) as [tr | e] eqn:Hparse.
  2:{ cbv beta iota delta [obind lift is_Exception]. cbn;
        rewrite ?Es; (split; [ reflexivity | split; [ reflexivity | now left ] ]). }
  simpl lift. rewrite obind_done.
  destruct (load_images d (q :: qs)) as [images | e] eqn:Hload.
  2:{ cbv beta iota delta [obind]. destruct (is_Exception e); cbn;
        rewrite ?Es; (split; [ reflexivity | split; [ reflexivity | now left ] ]). }
  rewrite obind_done.
  destruct (create_image_mosaic images tr crop_checked) as [mosaic | e] eqn:Hmosaic.
  2:{ cbv beta iota delta [obind lift is_Exception]. cbn;
        rewrite ?Es; (split; [ reflexivity | split; [ reflexivity | now left ] ]). }
  simpl lift. unfold show_mosaic_preview. cbn [final_mosaic].
  apply load_images_inv in Hload.
  destruct (ImageQt mosaic) as [e | ].
  - destruct (is_Exception e);
      cbn [fst show selected_files processed_images final_mosaic preview_layout
           drop_area_visible save_btn_enabled dialogs];
      rewrite ?Es;
      (split; [ reflexivity | split; [ reflexivity | right ] ];
       split; [ discriminate | ];
       exists ratio_text, tr, images, mosaic; repeat split; auto).
  - cbn [fst show selected_files processed_images final_mosaic preview_layout
         drop_area_visible save_btn_enabled dialogs];
      rewrite ?Es;
      (split; [ reflexivity | split; [ reflexivity | right ] ];
       split; [ discriminate | ];
       exists ratio_text, tr, images, mosaic; repeat split; auto).
Qed.

Lemma process_images_mosaic g d current_text crop_checked g' r :
  process_images g d current_text crop_checked = (g', r) ->
  selected_files g' = selected_files g /\
  drop_area_visible g' = drop_area_visible g /\
  (final_mosaic g' = final_mosaic g /\ save_btn_enabled g' = save_btn_enabled g \/
   selected_files g <> [] /\
   exists ratio_text tr images mosaic,
     dict_getitem aspect_ratios current_text = Done ratio_text /\
     parse_aspect_ratio float_of_str ratio_text = Ok tr /\
     Forall2 (opens_as d) (selected_files g) images /\
     create_image_mosaic images tr crop_checked = Ok mosaic /\
     final_mosaic g' = Some mosaic /\
     (save_btn_enabled g' = true \/ save_btn_enabled g' = save_btn_enabled g)).
Proof.
  intros E. pose proof (process_images_mosaic_fst g d current_text crop_checked) as Hf.
  cbv zeta in Hf. rewrite E in Hf. exact Hf.
Qed.

Lemma save_mosaic_state g d file_path g' d' r :
  save_mosaic g d file_path = (g', d', r) ->
  selected_files g' = selected_files g /\
  drop_area_visible g' = drop_area_visible g /\
  final_mosaic g' = final_mosaic g /\
  save_btn_enabled g' = save_btn_enabled g.
Proof.
  intros E.
  assert (Hf : let g1 := fst (fst (save_mosaic g d file_path)) in
               selected_files g1 = selected_files g /\
               drop_area_visible g1 = drop_area_visible g /\
               final_mosaic g1 = final_mosaic g /\
               save_btn_enabled g1 = save_btn_enabled g).
  { unfold save_mosaic.
    destruct (final_mosaic g) as [mosaic | ] eqn:Em.
    - destruct file_path as [ | c rest ]; [ cbn; now rewrite Em | ].
      destruct (Image_save d mosaic (String c rest) 95) as [d0 [e | ]].
      + destruct (is_Exception e); cbn; now rewrite ?Em.
      + cbn; now rewrite ?Em.
    - cbn; now rewrite ?Em. }
  cbv zeta in Hf. rewrite E in Hf. exact Hf.
Qed.

(** X21: the mosaic that the window holds is replaced only by "Clear All"
    and by a composition that succeeded.  Whatever else happens in one
    step (files are selected or dropped, a composition fails before the
    mosaic is composed, the mosaic is saved), the mosaic held before is
    still held afterwards, so that "Save Mosaic" writes a mosaic that
    need not be the mosaic of the files selected now. *)
Theorem mosaic_kept_until_replaced g d a g' d' r :
  step (g, d) a = (g', d', r) ->
  final_mosaic g' = final_mosaic g \/
  a = ClearAll \/
  exists current_text crop_checked ratio_text tr images mosaic,
    a = CreateMosaic current_text crop_checked /\
    dict_getitem aspect_ratios current_text = Done ratio_text /\
    parse_aspect_ratio float_of_str ratio_text = Ok tr /\
    Forall2 (opens_as d) (selected_files g) images /\
    create_image_mosaic images tr crop_checked = Ok mosaic /\
    final_mosaic g' = Some mosaic.
Proof.
  destruct a as [chosen | file_paths | | current_text crop_checked | file_path ];
    simpl step.
  - intros E. inversion E. subst. left. destruct chosen; reflexivity.
  - intros E. inversion E. subst. left. destruct file_paths; reflexivity.
  - intros _. right. now left.
  - destruct (process_images g d current_text crop_checked) as [g1 e] eqn:Ep.
    intros E. inversion E. subst.
    destruct (process_images_mosaic _ _ _ _ _ _ Ep) as (_ & _ & [[Hm _] | (_ & Hc)]);
      [ now left | right; right ].
    destruct Hc as (ratio_text & tr & images & mosaic & H1 & H2 & H3 & H4 & H5 & _).
    exists current_text, crop_checked, ratio_text, tr, images, mosaic.
    repeat split; assumption.
  - intros E. destruct (save_mosaic_state _ _ _ _ _ _ E) as (_ & _ & Hm & _). now left.
Qed.

Lemma step_window_ok g d a g' d' r :
  step (g, d) a = (g', d', r) -> window_ok g -> window_ok g'.
Proof.
  intros E (Hnd & Hdrop & Hsave).
  destruct a as [chosen | file_paths | | current_text crop_checked | file_path ];
    simpl step in E.
  - inversion E. subst. destruct chosen as [ | c cs ]; [ now repeat split | ].
    unfold select_files.
    assert (H1 : NoDup (selected_files (add_files g (c :: cs))))
      by (rewrite add_files_selected; apply fromkeys_NoDup).
    assert (H5 : final_mosaic (add_files g (c :: cs)) = final_mosaic g)
      by reflexivity.
    assert (H6 : save_btn_enabled (add_files g (c :: cs)) = save_btn_enabled g)
      by reflexivity.
    split; [ exact H1 | split; [ reflexivity | now rewrite H5, H6 ] ].
  - inversion E. subst. destruct file_paths as [ | c cs ]; [ now repeat split | ].
    assert (H1 : NoDup (selected_files (add_files g (c :: cs))))
      by (rewrite add_files_selected; apply fromkeys_NoDup).
    assert (H5 : final_mosaic (add_files g (c :: cs)) = final_mosaic g)
      by reflexivity.
    assert (H6 : save_btn_enabled (add_files g (c :: cs)) = save_btn_enabled g)
      by reflexivity.
    split; [ exact H1 | split; [ reflexivity | now rewrite H5, H6 ] ].
  - inversion E. subst.
    split; [ constructor | split; [ reflexivity | cbn; discriminate ] ].
  - destruct (process_images g d current_text crop_checked) as [g1 e] eqn:Ep.
    inversion E. subst.
    destruct (process_images_mosaic _ _ _ _ _ _ Ep) as (Hs & Hd & Hcases).
    split; [ now rewrite Hs | split; [ now rewrite Hd, Hs | ] ].
    destruct Hcases as [[Hm Hb] | (_ & Hc)].
    + now rewrite Hm, Hb.
    + destruct Hc as (? & ? & ? & mosaic & _ & _ & _ & _ & Hm & _).
      intros _. rewrite Hm. discriminate.
  - destruct (save_mosaic_state _ _ _ _ _ _ E) as (Hs & Hd & Hm & Hb).
    split; [ now rewrite Hs | split; [ now rewrite Hd, Hs | now rewrite Hm, Hb ] ].
Qed.

(** X22: the window stays coherent.  After any run of selections, drops,
    clearings, compositions and saves from the initial state, no file is
    selected twice, the drop area shows exactly when no file is selected,
    and the save button is enabled only when a mosaic is held. *)
Theorem window_stays_coherent d actions g' d' r :
  run (ImageBoxerGUI_init, d) actions = (g', d', r) -> window_ok g'.
Proof.
  assert (Hgen : forall actions g d,
             window_ok g -> run (g, d) actions = (g', d', r) -> window_ok g').
  { induction actions0 as [ | a rest IH ]; intros g0 d0 Hok; cbn [run].
    - intros E. inversion E. subst. exact Hok.
    - destruct (step (g0, d0) a) as [[g1 d1] [e | ]] eqn:Es.
      + intros E. inversion E. subst. eapply step_window_ok; eassumption.
      + apply IH. eapply step_window_ok; eassumption. }
  apply Hgen.
  split; [ constructor | split; [ reflexivity | cbn; discriminate ] ].
Qed.

End WindowFacts.

(** ** The presets of the window *)

Section Presets.

Context {H : Host}.

Local Open Scope string_scope.

(** The parser reads its text only through the parts between the colons. *)
Lemma parse_aspect_ratio_ext (f g : string -> result float) s :
  (forall p, In p (split_on ":"%char s) -> f p = g p) ->
  parse_aspect_ratio f s = parse_aspect_ratio g s.
Proof.
  intros Hfg. unfold parse_aspect_ratio, unpack_two_floats.
  destruct (split_on ":"%char s) as [ | p1 [ | p2 [ | p3 rest ] ] ];
    [ reflexivity | | | ];
    rewrite ?(Hfg p1), ?(Hfg p2), ?(Hfg p3); simpl; auto.
Qed.

(** X23: every preset of the combo box parses.  When [float] reads the
    numbers of the presets as decimal numbers, each key of [aspect_ratios]
    leads to a text that [parse_aspect_ratio] turns into a positive finite
    ratio: neither the error about the format nor the division by zero can
    come from the combo box. *)
Theorem presets_parse current_text :
  (forall s, In s ["16"; "9"; "4"; "3"; "1"; "2"] -> float_of_str s = decimal_float s) ->
  In current_text (dict_keys aspect_ratios) ->
  exists ratio_text tr,
    dict_getitem aspect_ratios current_text = Done ratio_text /\
    parse_aspect_ratio float_of_str ratio_text = Ok tr /\
    valid tr = true /\ pos_finite tr = true.
Proof.
  intros Hfloat Hin.
  assert (Hparse : forall ratio_text,
             (forall p, In p (split_on ":"%char ratio_text) ->
                        In p ["16"; "9"; "4"; "3"; "1"; "2"]) ->
             parse_aspect_ratio float_of_str ratio_text =
             parse_aspect_ratio decimal_float ratio_text).
  { intros ratio_text Hparts. apply parse_aspect_ratio_ext.
    intros p Hp. apply Hfloat, Hparts, Hp. }
  simpl in Hin.
  destruct Hin as [<- | [<- | [<- | [<- | [<- | []]]]]]; eexists _, _;
    (split; [ reflexivity | ]);
    (rewrite Hparse; [ | simpl; intuition ]);
    (split; [ vm_compute; reflexivity | split; reflexivity ]).
Qed.

End Presets.

(** ** Examples of the window on the host in memory *)

Lemma presets_parse_example :
  exists tr,
    dict_getitem aspect_ratios "16:9 (Widescreen)" = Done "16:9"%string /\
    parse_aspect_ratio (float_of_str (Host := memory_host)) "16:9" = Ok tr /\
    tr = ratio_16_9.
Proof.
  destruct (presets_parse (H := memory_host) "16:9 (Widescreen)")
    as (ratio_text & tr & Hkey & Hparse & _).
  - intros s _. reflexivity.
  - simpl. now left.
  - inversion Hkey. subst ratio_text. exists tr.
    split; [ reflexivity | split; [ exact Hparse | ] ].
    assert (E : parse_aspect_ratio (float_of_str (Host := memory_host)) "16:9"
                = Ok ratio_16_9) by (vm_compute; reflexivity).
    rewrite Hparse in E. now inversion E.
Defined.

Lemma unreadable_file_blocks_mosaic_example :
  exists e,
    process_images (H := memory_host) (R := nearest)
      example_window example_disk "1:1 (Square)" true =
    (show example_window
       (mkDialog critical "Error"
          ("Error processing images: " ++ str_failure (H := memory_host) e)%string),
     None).
Proof.
  apply (unreadable_file_blocks_mosaic (H := memory_host) (R := nearest)
           example_window example_disk "1:1 (Square)" true "1:1" ratio_1_1
           "missing.png"
           (Foreign true "[Errno 2] No such file or directory: 'missing.png'")).
  - exact memory_host_raises_exceptions.
  - reflexivity.
  - vm_compute. reflexivity.
  - simpl. auto.
  - reflexivity.
Defined.

Lemma process_images_composes_selection_example :
  exists mosaic,
    process_images (H := memory_host) (R := nearest)
      (add_files ImageBoxerGUI_init ["in/a.png"]%string) example_disk
      "1:1 (Square)" true =
    (mkGui ["in/a.png"]%string [] (Some mosaic) [MosaicView mosaic 0 0] false true [],
     None) /\
    create_image_mosaic (R := nearest) [plain 4 3 white] ratio_1_1 true = Ok mosaic.
Proof.
  destruct (is_ok_inv (create_image_mosaic (R := nearest) [plain 4 3 white]
                         ratio_1_1 true)) as (mosaic & Hm);
    [ vm_compute; reflexivity | ].
  exists mosaic. split; [ | exact Hm ].
  apply (process_images_composes_selection (H := memory_host) (R := nearest)
           (add_files ImageBoxerGUI_init ["in/a.png"]%string) example_disk
           "1:1 (Square)" true "1:1" ratio_1_1 [plain 4 3 white] mosaic).
  - discriminate.
  - reflexivity.
  - vm_compute. reflexivity.
  - constructor; [ | constructor ].
    exists ("RGB"%string, plain 4 3 white). split; reflexivity.
  - exact Hm.
  - reflexivity.
Defined.

Lemma mosaic_kept_until_replaced_example :
  final_mosaic (select_files example_window ["in/b.txt"]%string)
  = final_mosaic example_window \/
  SelectFiles ["in/b.txt"]%string = ClearAll \/
  exists current_text crop_checked ratio_text tr images mosaic,
    SelectFiles ["in/b.txt"]%string = CreateMosaic current_text crop_checked /\
    dict_getitem aspect_ratios current_text = Done ratio_text /\
    parse_aspect_ratio (float_of_str (Host := memory_host)) ratio_text = Ok tr /\
    Forall2 (opens_as (H := memory_host) example_disk)
            (selected_files example_window) images /\
    create_image_mosaic (R := nearest) images tr crop_checked = Ok mosaic /\
    final_mosaic (select_files example_window ["in/b.txt"]%string) = Some mosaic.
Proof.
  apply (mosaic_kept_until_replaced (H := memory_host) (R := nearest)
           example_window example_disk (SelectFiles ["in/b.txt"]%string)
           (select_files example_window ["in/b.txt"]%string) example_disk None).
  reflexivity.
Defined.

Lemma window_stays_coherent_example :
  window_ok
    (fst (fst (run (H := memory_host) (R := nearest)
                 (ImageBoxerGUI_init, example_disk)
                 [ SelectFiles ["in/a.png"; "in/a.png"]%string;
                   CreateMosaic "1:1 (Square)" true;
                   DropFiles ["in/b.txt"; "in/a.png"]%string;
                   CreateMosaic "4:3 (Standard)" false;
                   SaveMosaic "out.png" ]))).
Proof.
  destruct (run (H := memory_host) (R := nearest)
              (ImageBoxerGUI_init, example_disk)
              [ SelectFiles ["in/a.png"; "in/a.png"]%string;
                CreateMosaic "1:1 (Square)" true;
                DropFiles ["in/b.txt"; "in/a.png"]%string;
                CreateMosaic "4:3 (Standard)" false;
                SaveMosaic "out.png" ]) as [[g' d'] r] eqn:E.
  exact (window_stays_coherent (H := memory_host) (R := nearest) _ _ _ _ _ E).
Defined.
